(** * Recording bot: the transport codec, the in-page recording session
      (app.js) and the host-side orchestrator (index.js).

    The development follows the two source files.  [Codec] embeds the
    two functions that carry a binary buffer across the page/host bridge,
    [Sandbox] embeds the in-page state (recorders, counters, timers) with
    the browser's event loop made explicit, and [Host] embeds the host's
    close sequence and its file writes. *)

From Stdlib Require Import Strings.Byte NArith Lia.
From stdpp Require Import gmap strings list fin_maps pretty sorting.

#[global] Set Warnings "-clear-no-such-hyp,-abstract-large-number".

(* ===================================================================== *)
(** * Binary transport codec                                             *)
(* ===================================================================== *)

Module Codec.

(** A JavaScript string is a sequence of UTF-16 code units. *)
Abbreviation jsstring := (list N).

(** The contents of an [ArrayBuffer] seen through a [Uint8Array]. *)
Abbreviation bytes := (list byte).

(** [String.fromCharCode.apply(null, view)]: one code unit per element. *)
Definition fromCharCode (view : bytes) : jsstring := Byte.to_N <$> view.

(** Storing a number into a [Uint8Array] slot keeps it modulo 256. *)
Definition toUint8 (c : N) : byte :=
  match Byte.of_N (c mod 256) with
  | Some b => b
  | None => x00
  end.

(** [view.subarray(b, e)] for [0 <= b]: both ends are clamped to the length
    of the view, and the result is empty when [e <= b]. *)
Definition subarray (view : bytes) (b e : nat) : bytes :=
  take (e - b) (drop b view).

Section Chunked.

Variable blocksize : nat.

(** [parseInt(length / blocksize) * blocksize].  The quotient is a
    non-negative double below 2^53 and never in exponent notation, so
    [parseInt] of its decimal print is its integer part. *)
Definition blocklength_of (length : nat) : nat :=
  (length / blocksize) * blocksize.

(** The [for] loop of [arrayBufferToString].  The accumulator holds
    [result] together with the operands of the successive [result +=],
    oldest first.  [fuel] bounds the number of iterations; [None] means
    the bound was hit with the loop condition still true. *)
Fixpoint for_blocks (fuel : nat) (bufView : bytes) (blocklength i : nat)
    (acc : jsstring * list jsstring) : option (jsstring * list jsstring) :=
  if i <? blocklength then
    match fuel with
    | O => None
    | S fuel' =>
        let piece := fromCharCode (subarray bufView i (i + blocksize)) in
        for_blocks fuel' bufView blocklength (i + blocksize)
                   (acc.1 ++ piece, acc.2 ++ [piece])
    end
  else Some acc.

(** [arrayBufferToString] with the list of appended pieces kept. *)
Definition arrayBufferToString_log (buffer : bytes)
    : option (jsstring * list jsstring) :=
  let bufView := buffer in
  let length := length bufView in
  let blocklength := blocklength_of length in
  match for_blocks (S length) bufView blocklength 0 ([], []) with
  | None => None
  | Some (result, log) =>
      if blocklength <? length then
        let piece := fromCharCode (subarray bufView blocklength length) in
        Some (result ++ piece, log ++ [piece])
      else Some (result, log)
  end.

End Chunked.

Definition blocksize : nat := 8192.

(** app.js, [arrayBufferToString]. *)
Definition arrayBufferToString (buffer : bytes) : option jsstring :=
  fst <$> arrayBufferToString_log blocksize buffer.

(** [string.charCodeAt(i)]; [None] stands for the NaN of an index out of
    range. *)
Definition charCodeAt (string : jsstring) (i : nat) : option N := string !! i.

(** The body of the [for] loop of [stringToArrayBuffer], run for the
    indices [i], [i+1], ..., [i + todo - 1]; a NaN is stored as 0. *)
Fixpoint for_chars (todo : nat) (string : jsstring) (i : nat) (bufView : bytes)
    : bytes :=
  match todo with
  | O => bufView
  | S todo' =>
      for_chars todo' string (S i)
                (<[i := toUint8 (default 0%N (charCodeAt string i))]> bufView)
  end.

(** index.js, [stringToArrayBuffer]: a zero-filled buffer of the length of
    the string, slot [i] set to [charCodeAt(i)] for [i = 0 .. length-1]. *)
Definition stringToArrayBuffer (string : jsstring) : bytes :=
  let length := length string in
  let buf := replicate length x00 in
  for_chars length string 0 buf.

(** The [k]-th full block of a buffer and the bytes after the last full
    block, as the codec is specified over them. *)
Definition block (bs : nat) (buffer : bytes) (k : nat) : bytes :=
  take bs (drop (k * bs) buffer).

Definition blocks (bs : nat) (buffer : bytes) : list bytes :=
  block bs buffer <$> seq 0 (length buffer / bs).

Definition remainder (bs : nat) (buffer : bytes) : bytes :=
  drop (length buffer / bs * bs) buffer.

End Codec.

(* ===================================================================== *)
(** * The in-page recording session (app.js)                             *)
(* ===================================================================== *)

Module Sandbox.
Import Codec.

(** ** Data *)

Inductive Kind := audio | video | data.

Record Track := {
  track_id : string;
  track_sid : string;
  track_kind : Kind
}.

Record Participant := {
  participant_sid : string;
  participant_identity : string;
  participant_tracks : list Track
}.

Inductive RoomState := connected | disconnected.

Record Room := {
  room_sid : string;
  room_name : string;
  room_localParticipant_sid : string;
  room_state : RoomState;
  room_participants : list Participant
}.

(** [MediaRecorder.state]. *)
Inductive RecordingState := inactive | recording | paused.

(** The continuations that the code passes as [stopped_callback]:
    the empty function of the room's [trackUnsubscribed] listener, the
    [callback] of one [shutdown()] call (named by its promise), and the
    restart closure of the [resize] listener. *)
Inductive StopCallback :=
  | CbNothing
  | CbShutdown (promise : nat)
  | CbRestart (track : Track) (identity : string).

(** The functions that the code stores in [recorder.ondataavailable]: the
    one set by [startRecorder] and the wrapper set by the [onpause]
    handler around whatever was there ([orig_handler]). *)
Inductive DataHandler :=
  | HRecord
  | HLast (orig_handler : DataHandler).

#[global] Instance RecordingState_eq_dec : EqDecision RecordingState.
Proof. solve_decision. Defined.

#[global] Instance DataHandler_eq_dec : EqDecision DataHandler.
Proof. solve_decision. Defined.

(** A [MediaRecorder] object.  [gathering] and [gathered] are the
    recorder's internal slots: whether it is collecting data and the data
    collected since the last [dataavailable]. *)
Record Recorder := {
  state : RecordingState;
  filename : string;
  filepath : list string;
  ondataavailable : DataHandler;
  onpause : bool;
  onstop : option StopCallback;
  gathering : bool;
  gathered : list byte
}.

(** What the page does to the outside: calls of the functions the host
    exposes, and [room.disconnect()]. *)
Inductive Event :=
  | EDebug (message : string)
  | EInfo (message : string)
  | EError (message : string)
  | EParentClose (error : option string)
  | ECreateRecording (filepath metapath : list string) (mimeType : string)
  | EAppendRecording (filepath : list string) (chunk : list N) (start : Z)
  | EDisconnect.

(** Tasks waiting in the page's event loop. *)
Inductive Task :=
  | TStart (r : nat)
  | TPause (r : nat)
  | TRequestData (r : nat)
  | TStop (r : nat).

(** A pending [FileReader] load, with the variables its [onload] closes
    over. *)
Record Load := {
  load_filepath : list string;
  load_filename : string;
  load_data : list byte
}.

(** The module-level variables of app.js, followed by the browser state
    they refer to: recorder objects and <video> elements by reference,
    the event loop, timers, the promises of [shutdown()] calls, and the
    calls made so far. *)
Record State := {
  room : option Room;
  shouldClose : bool;
  isClosing : bool;
  emptyRoomTimeout : option nat;
  recorders : list (string * nat);
  videos : gmap string nat;
  subscriptionCounts : gmap string nat;
  recorderCount : Z;
  listening : bool;
  once_disconnected : bool;
  once_room_ended : bool;
  h264 : bool;
  heap : list Recorder;
  elements : list (option (Track * string));
  tasks : list Task;
  loads : list Load;
  timers : list (nat * Z);
  next_timer : nat;
  promises : list bool;
  trace : list Event
}.

Definition roomEndingTimeoutSeconds : Z := 60.
Definition roomStartingTimeoutSeconds : Z := 600.

(** The state of a freshly loaded page; [h264] is the answer of
    [MediaRecorder.isTypeSupported("video/webm;codecs=h264")]. *)
Definition initial (h264 : bool) : State := {|
  room := None; shouldClose := false; isClosing := false;
  emptyRoomTimeout := None; recorders := []; videos := ∅;
  subscriptionCounts := ∅; recorderCount := 0;
  listening := false; once_disconnected := false; once_room_ended := false;
  h264 := h264; heap := []; elements := []; tasks := []; loads := [];
  timers := []; next_timer := 0; promises := []; trace := []
|}.

(** ** Field updates *)

Definition set_room (v : option Room) (s : State) : State :=
  {| room := v; shouldClose := shouldClose s; isClosing := isClosing s;
     emptyRoomTimeout := emptyRoomTimeout s; recorders := recorders s;
     videos := videos s; subscriptionCounts := subscriptionCounts s;
     recorderCount := recorderCount s; listening := listening s;
     once_disconnected := once_disconnected s;
     once_room_ended := once_room_ended s; h264 := h264 s; heap := heap s;
     elements := elements s; tasks := tasks s; loads := loads s;
     timers := timers s; next_timer := next_timer s;
     promises := promises s; trace := trace s |}.

Definition set_isClosing (v : bool) (s : State) : State :=
  {| room := room s; shouldClose := shouldClose s; isClosing := v;
     emptyRoomTimeout := emptyRoomTimeout s; recorders := recorders s;
     videos := videos s; subscriptionCounts := subscriptionCounts s;
     recorderCount := recorderCount s; listening := listening s;
     once_disconnected := once_disconnected s;
     once_room_ended := once_room_ended s; h264 := h264 s; heap := heap s;
     elements := elements s; tasks := tasks s; loads := loads s;
     timers := timers s; next_timer := next_timer s;
     promises := promises s; trace := trace s |}.

Definition set_emptyRoomTimeout (v : option nat) (s : State) : State :=
  {| room := room s; shouldClose := shouldClose s; isClosing := isClosing s;
     emptyRoomTimeout := v; recorders := recorders s;
     videos := videos s; subscriptionCounts := subscriptionCounts s;
     recorderCount := recorderCount s; listening := listening s;
     once_disconnected := once_disconnected s;
     once_room_ended := once_room_ended s; h264 := h264 s; heap := heap s;
     elements := elements s; tasks := tasks s; loads := loads s;
     timers := timers s; next_timer := next_timer s;
     promises := promises s; trace := trace s |}.

Definition set_recorders (v : list (string * nat)) (s : State) : State :=
  {| room := room s; shouldClose := shouldClose s; isClosing := isClosing s;
     emptyRoomTimeout := emptyRoomTimeout s; recorders := v;
     videos := videos s; subscriptionCounts := subscriptionCounts s;
     recorderCount := recorderCount s; listening := listening s;
     once_disconnected := once_disconnected s;
     once_room_ended := once_room_ended s; h264 := h264 s; heap := heap s;
     elements := elements s; tasks := tasks s; loads := loads s;
     timers := timers s; next_timer := next_timer s;
     promises := promises s; trace := trace s |}.

Definition set_videos (v : gmap string nat) (s : State) : State :=
  {| room := room s; shouldClose := shouldClose s; isClosing := isClosing s;
     emptyRoomTimeout := emptyRoomTimeout s; recorders := recorders s;
     videos := v; subscriptionCounts := subscriptionCounts s;
     recorderCount := recorderCount s; listening := listening s;
     once_disconnected := once_disconnected s;
     once_room_ended := once_room_ended s; h264 := h264 s; heap := heap s;
     elements := elements s; tasks := tasks s; loads := loads s;
     timers := timers s; next_timer := next_timer s;
     promises := promises s; trace := trace s |}.

Definition set_subscriptionCounts (v : gmap string nat) (s : State) : State :=
  {| room := room s; shouldClose := shouldClose s; isClosing := isClosing s;
     emptyRoomTimeout := emptyRoomTimeout s; recorders := recorders s;
     videos := videos s; subscriptionCounts := v;
     recorderCount := recorderCount s; listening := listening s;
     once_disconnected := once_disconnected s;
     once_room_ended := once_room_ended s; h264 := h264 s; heap := heap s;
     elements := elements s; tasks := tasks s; loads := loads s;
     timers := timers s; next_timer := next_timer s;
     promises := promises s; trace := trace s |}.

Definition set_recorderCount (v : Z) (s : State) : State :=
  {| room := room s; shouldClose := shouldClose s; isClosing := isClosing s;
     emptyRoomTimeout := emptyRoomTimeout s; recorders := recorders s;
     videos := videos s; subscriptionCounts := subscriptionCounts s;
     recorderCount := v; listening := listening s;
     once_disconnected := once_disconnected s;
     once_room_ended := once_room_ended s; h264 := h264 s; heap := heap s;
     elements := elements s; tasks := tasks s; loads := loads s;
     timers := timers s; next_timer := next_timer s;
     promises := promises s; trace := trace s |}.

Definition set_listening (v : bool) (s : State) : State :=
  {| room := room s; shouldClose := shouldClose s; isClosing := isClosing s;
     emptyRoomTimeout := emptyRoomTimeout s; recorders := recorders s;
     videos := videos s; subscriptionCounts := subscriptionCounts s;
     recorderCount := recorderCount s; listening := v;
     once_disconnected := once_disconnected s;
     once_room_ended := once_room_ended s; h264 := h264 s; heap := heap s;
     elements := elements s; tasks := tasks s; loads := loads s;
     timers := timers s; next_timer := next_timer s;
     promises := promises s; trace := trace s |}.

Definition set_once_disconnected (v : bool) (s : State) : State :=
  {| room := room s; shouldClose := shouldClose s; isClosing := isClosing s;
     emptyRoomTimeout := emptyRoomTimeout s; recorders := recorders s;
     videos := videos s; subscriptionCounts := subscriptionCounts s;
     recorderCount := recorderCount s; listening := listening s;
     once_disconnected := v;
     once_room_ended := once_room_ended s; h264 := h264 s; heap := heap s;
     elements := elements s; tasks := tasks s; loads := loads s;
     timers := timers s; next_timer := next_timer s;
     promises := promises s; trace := trace s |}.

Definition set_once_room_ended (v : bool) (s : State) : State :=
  {| room := room s; shouldClose := shouldClose s; isClosing := isClosing s;
     emptyRoomTimeout := emptyRoomTimeout s; recorders := recorders s;
     videos := videos s; subscriptionCounts := subscriptionCounts s;
     recorderCount := recorderCount s; listening := listening s;
     once_disconnected := once_disconnected s;
     once_room_ended := v; h264 := h264 s; heap := heap s;
     elements := elements s; tasks := tasks s; loads := loads s;
     timers := timers s; next_timer := next_timer s;
     promises := promises s; trace := trace s |}.

Definition set_heap (v : list Recorder) (s : State) : State :=
  {| room := room s; shouldClose := shouldClose s; isClosing := isClosing s;
     emptyRoomTimeout := emptyRoomTimeout s; recorders := recorders s;
     videos := videos s; subscriptionCounts := subscriptionCounts s;
     recorderCount := recorderCount s; listening := listening s;
     once_disconnected := once_disconnected s;
     once_room_ended := once_room_ended s; h264 := h264 s; heap := v;
     elements := elements s; tasks := tasks s; loads := loads s;
     timers := timers s; next_timer := next_timer s;
     promises := promises s; trace := trace s |}.

Definition set_elements (v : list (option (Track * string))) (s : State) : State :=
  {| room := room s; shouldClose := shouldClose s; isClosing := isClosing s;
     emptyRoomTimeout := emptyRoomTimeout s; recorders := recorders s;
     videos := videos s; subscriptionCounts := subscriptionCounts s;
     recorderCount := recorderCount s; listening := listening s;
     once_disconnected := once_disconnected s;
     once_room_ended := once_room_ended s; h264 := h264 s; heap := heap s;
     elements := v; tasks := tasks s; loads := loads s;
     timers := timers s; next_timer := next_timer s;
     promises := promises s; trace := trace s |}.

Definition set_tasks (v : list Task) (s : State) : State :=
  {| room := room s; shouldClose := shouldClose s; isClosing := isClosing s;
     emptyRoomTimeout := emptyRoomTimeout s; recorders := recorders s;
     videos := videos s; subscriptionCounts := subscriptionCounts s;
     recorderCount := recorderCount s; listening := listening s;
     once_disconnected := once_disconnected s;
     once_room_ended := once_room_ended s; h264 := h264 s; heap := heap s;
     elements := elements s; tasks := v; loads := loads s;
     timers := timers s; next_timer := next_timer s;
     promises := promises s; trace := trace s |}.

Definition set_loads (v : list Load) (s : State) : State :=
  {| room := room s; shouldClose := shouldClose s; isClosing := isClosing s;
     emptyRoomTimeout := emptyRoomTimeout s; recorders := recorders s;
     videos := videos s; subscriptionCounts := subscriptionCounts s;
     recorderCount := recorderCount s; listening := listening s;
     once_disconnected := once_disconnected s;
     once_room_ended := once_room_ended s; h264 := h264 s; heap := heap s;
     elements := elements s; tasks := tasks s; loads := v;
     timers := timers s; next_timer := next_timer s;
     promises := promises s; trace := trace s |}.

Definition set_timers (v : list (nat * Z)) (n : nat) (s : State) : State :=
  {| room := room s; shouldClose := shouldClose s; isClosing := isClosing s;
     emptyRoomTimeout := emptyRoomTimeout s; recorders := recorders s;
     videos := videos s; subscriptionCounts := subscriptionCounts s;
     recorderCount := recorderCount s; listening := listening s;
     once_disconnected := once_disconnected s;
     once_room_ended := once_room_ended s; h264 := h264 s; heap := heap s;
     elements := elements s; tasks := tasks s; loads := loads s;
     timers := v; next_timer := n;
     promises := promises s; trace := trace s |}.

Definition set_promises (v : list bool) (s : State) : State :=
  {| room := room s; shouldClose := shouldClose s; isClosing := isClosing s;
     emptyRoomTimeout := emptyRoomTimeout s; recorders := recorders s;
     videos := videos s; subscriptionCounts := subscriptionCounts s;
     recorderCount := recorderCount s; listening := listening s;
     once_disconnected := once_disconnected s;
     once_room_ended := once_room_ended s; h264 := h264 s; heap := heap s;
     elements := elements s; tasks := tasks s; loads := loads s;
     timers := timers s; next_timer := next_timer s;
     promises := v; trace := trace s |}.

Definition set_trace (v : list Event) (s : State) : State :=
  {| room := room s; shouldClose := shouldClose s; isClosing := isClosing s;
     emptyRoomTimeout := emptyRoomTimeout s; recorders := recorders s;
     videos := videos s; subscriptionCounts := subscriptionCounts s;
     recorderCount := recorderCount s; listening := listening s;
     once_disconnected := once_disconnected s;
     once_room_ended := once_room_ended s; h264 := h264 s; heap := heap s;
     elements := elements s; tasks := tasks s; loads := loads s;
     timers := timers s; next_timer := next_timer s;
     promises := promises s; trace := v |}.

Definition set_state (v : RecordingState) (r : Recorder) : Recorder :=
  {| state := v; filename := filename r; filepath := filepath r;
     ondataavailable := ondataavailable r; onpause := onpause r;
     onstop := onstop r; gathering := gathering r; gathered := gathered r |}.

Definition set_ondataavailable (v : DataHandler) (r : Recorder) : Recorder :=
  {| state := state r; filename := filename r; filepath := filepath r;
     ondataavailable := v; onpause := onpause r;
     onstop := onstop r; gathering := gathering r; gathered := gathered r |}.

Definition set_onpause (v : bool) (r : Recorder) : Recorder :=
  {| state := state r; filename := filename r; filepath := filepath r;
     ondataavailable := ondataavailable r; onpause := v;
     onstop := onstop r; gathering := gathering r; gathered := gathered r |}.

Definition set_onstop (v : option StopCallback) (r : Recorder) : Recorder :=
  {| state := state r; filename := filename r; filepath := filepath r;
     ondataavailable := ondataavailable r; onpause := onpause r;
     onstop := v; gathering := gathering r; gathered := gathered r |}.

Definition set_gathering (v : bool) (r : Recorder) : Recorder :=
  {| state := state r; filename := filename r; filepath := filepath r;
     ondataavailable := ondataavailable r; onpause := onpause r;
     onstop := onstop r; gathering := v; gathered := gathered r |}.

Definition set_gathered (v : list byte) (r : Recorder) : Recorder :=
  {| state := state r; filename := filename r; filepath := filepath r;
     ondataavailable := ondataavailable r; onpause := onpause r;
     onstop := onstop r; gathering := gathering r; gathered := v |}.

(** ** The JavaScript [Map] behind [recorders]

    Entries are kept in insertion order, which is the order [forEach]
    visits them in; [set] on a key already present keeps its position. *)

Fixpoint Map_get (k : string) (m : list (string * nat)) : option nat :=
  match m with
  | [] => None
  | (k', v) :: m' => if decide (k' = k) then Some v else Map_get k m'
  end.

Fixpoint Map_set (k : string) (v : nat) (m : list (string * nat))
    : list (string * nat) :=
  match m with
  | [] => [(k, v)]
  | (k', v') :: m' =>
      if decide (k' = k) then (k, v) :: m' else (k', v') :: Map_set k v m'
  end.

Fixpoint Map_delete (k : string) (m : list (string * nat))
    : list (string * nat) :=
  match m with
  | [] => []
  | (k', v') :: m' =>
      if decide (k' = k) then Map_delete k m' else (k', v') :: Map_delete k m'
  end.

(** ** Small pieces *)

Definition nl : string := String (Ascii.ascii_of_nat 10) "".

Definition kind_name (k : Kind) : string :=
  match k with audio => "audio" | video => "video" | data => "data" end.

Definition trackClassName (k : Kind) : string :=
  match k with
  | audio => "RemoteAudioTrack"
  | video => "RemoteVideoTrack"
  | data => "undefined"
  end.

(** [segments.join('/')]. *)
Fixpoint join (segments : list string) : string :=
  match segments with
  | [] => ""
  | [x] => x
  | x :: rest => x +:+ "/" +:+ join rest
  end.

Definition emit (e : Event) (s : State) : State :=
  set_trace (trace s ++ [e]) s.

Definition debug (message : string) : State → State := emit (EDebug message).
Definition info (message : string) : State → State := emit (EInfo message).
Definition error (message : string) : State → State := emit (EError message).
Definition parentClose (err : option string) : State → State :=
  emit (EParentClose err).
Definition createRecording (filepath metapath : list string) (mimeType : string)
    : State → State :=
  emit (ECreateRecording filepath metapath mimeType).
Definition appendRecording (filepath : list string) (chunk : list N)
    (start : Z) : State → State :=
  emit (EAppendRecording filepath chunk start).

(** An exception that leaves a handler is reported by the page's
    [error] listener (lines 21-23) through the host's [error]; the text
    of the stack is the browser's. *)
Definition uncaught (what : string) : State → State :=
  error (nl +:+ nl +:+ "  " +:+ what +:+ nl).

(** [setTimeout(parentClose, ms)] and [clearTimeout(id)]. *)
Definition setTimeout (ms : Z) (s : State) : nat * State :=
  (next_timer s, set_timers (timers s ++ [(next_timer s, ms)]) (S (next_timer s)) s).

Definition clearTimeout (id : nat) (s : State) : State :=
  set_timers (filter (λ t, t.1 ≠ id) (timers s)) (next_timer s) s.

Definition update_recorder (r : nat) (f : Recorder → Recorder) (s : State)
    : State :=
  set_heap (alter f r (heap s)) s.

Definition queue_task (t : Task) (s : State) : State :=
  set_tasks (tasks s ++ [t]) s.

(** ** [startRecorder] (lines 263-316) *)

Definition startRecorder (track : Track) (identity : string) (s : State)
    : State :=
  let videoCodec := if h264 s then "h264" else "vp8" in
  let codec :=
    match track_kind track with video => videoCodec | _ => "opus" end in
  let mimeType := kind_name (track_kind track) +:+ "/webm;codecs=" +:+ codec in
  let s := info ("Using MIME type " +:+ mimeType +:+ " to record") s in
  let trackIndex := identity +:+ "." +:+ kind_name (track_kind track) in
  let subscriptionCount := default 0 (subscriptionCounts s !! trackIndex) in
  let subscriptionCount := subscriptionCount + 1 in
  let s := set_subscriptionCounts
             (<[trackIndex := subscriptionCount]> (subscriptionCounts s)) s in
  match room s with
  | None => uncaught "TypeError" s
  | Some rm =>
      let filepath :=
        ["recordings"; room_name rm; trackIndex;
         pretty subscriptionCount +:+ ".webm"] in
      let metapath :=
        removelast filepath ++ [pretty subscriptionCount +:+ ".json"] in
      let filename := join filepath in
      let s := info ("Begin recording " +:+ filename +:+ ".") s in
      let s := createRecording filepath metapath mimeType s in
      let s := info ("Starting recorder for " +:+ filename +:+ ".") s in
      let r := length (heap s) in
      let recorder :=
        {| state := inactive; filename := filename; filepath := filepath;
           ondataavailable := HRecord; onpause := false; onstop := None;
           gathering := false; gathered := [] |} in
      let s := set_heap (heap s ++ [recorder]) s in
      let s := set_recorders (Map_set (track_id track) r (recorders s)) s in
      (* recorder.start(10000) *)
      let s := update_recorder r (set_gathering true ∘ set_state recording) s in
      queue_task (TStart r) s
  end.

(** ** [trackUnsubscribed] (lines 170-201) *)

Definition trackUnsubscribed (trackid : string) (stopped_callback : StopCallback)
    (s : State) : State :=
  let s := info ("Unsubscribe from " +:+ trackid) s in
  let recorder := Map_get trackid (recorders s) in
  let s := set_recorders (Map_delete trackid (recorders s)) s in
  let not_found :=
    error ("Recorder for track " +:+ trackid +:+
           " was not found or is not recording. Maybe already unsubscribed?") in
  match recorder with
  | None => not_found s
  | Some r =>
      match heap s !! r with
      | None => not_found s
      | Some rec =>
          match state rec with
          | recording =>
              let s := update_recorder r
                         (set_onstop (Some stopped_callback) ∘ set_onpause true) s in
              let s := info ("Pausing " +:+ filename rec +:+
                             " before stopping it.") s in
              (* recorder.pause() *)
              let s := update_recorder r (set_state paused) s in
              queue_task (TPause r) s
          | _ => not_found s
          end
      end
  end.

(** ** [record] (lines 218-261) and [trackSubscribed] (lines 162-168) *)

Definition record (track : Track) (participant : Participant) (s : State)
    : State :=
  let identity := participant_identity participant in
  let s :=
    match track_kind track with
    | video =>
        let videoElement := length (elements s) in
        let s :=
          match videos s !! identity with
          | None =>
              info ("Created a new <video> element for " +:+ identity) s
          | Some _ =>
              info ("Replaced <video> element for " +:+ identity) s
          end in
        let s := set_videos (<[identity := videoElement]> (videos s)) s in
        let s := set_elements (elements s ++ [Some (track, identity)]) s in
        info ("Added onresize event handler for " +:+ identity +:+ " video.") s
    | _ => s
    end in
  startRecorder track identity s.

Definition trackSubscribed (track : Track) (participant : Participant)
    (s : State) : State :=
  match track_kind track with
  | data => s
  | _ => record track participant s
  end.

(** ** [shutdown] (lines 124-151) *)

(** The [then] of the promise: runs once, when the promise is resolved. *)
Definition then_disconnect (s : State) : State :=
  match room s with
  | Some rm =>
      match room_state rm with
      | disconnected => s
      | connected =>
          let s := info "Disconnecting from Room..." s in
          let s := emit EDisconnect s in
          set_room (Some {| room_sid := room_sid rm; room_name := room_name rm;
                            room_localParticipant_sid := room_localParticipant_sid rm;
                            room_state := disconnected;
                            room_participants := room_participants rm |}) s
      end
  | None => s
  end.

Definition resolve (promise : nat) (s : State) : State :=
  match promises s !! promise with
  | Some false =>
      then_disconnect (set_promises (<[promise := true]> (promises s)) s)
  | _ => s
  end.

Definition callback (promise : nat) (count : Z) (s : State) : State :=
  if decide (count ≤ 0)%Z then resolve promise s else s.

Definition shutdown (s : State) : State :=
  let promise := length (promises s) in
  let s := set_promises (promises s ++ [false]) s in
  if decide (0 < length (recorders s)) then
    let s := info "Shutting down any remaining recorders..." s in
    let s :=
      if decide (recorderCount s ≠ Z.of_nat (length (recorders s))) then
        let s := error ("Active recorder count " +:+ pretty (recorderCount s) +:+
                        " doesn't match recorder size " +:+
                        pretty (length (recorders s)) +:+ ".") s in
        let s := error "Will reset active recorder count to match." s in
        set_recorderCount (Z.of_nat (length (recorders s))) s
      else s in
    foldl (λ s entry, trackUnsubscribed entry.1 (CbShutdown promise) s)
          s (recorders s)
  else
    let s := info "No active recorders to shut down." s in
    resolve promise s.

(** [close] of the page (lines 154-159). *)
Definition close (s : State) : State :=
  if isClosing s then s else set_isClosing true s.

(** ** The recorder's events *)

(** What a stop continuation does when called with [count]. *)
Definition run_callback (cb : StopCallback) (count : Z) (s : State) : State :=
  match cb with
  | CbNothing => s
  | CbShutdown promise => callback promise count s
  | CbRestart track identity => startRecorder track identity s
  end.

(** A [dataavailable] event carrying [data], delivered to handler [h] of
    a recorder with the given file. *)
Fixpoint handle_data (h : DataHandler) (rec : Recorder) (blob : list byte)
    (s : State) : State :=
  match h with
  | HRecord =>
      if decide (length blob = 0) then
        error "Received a data available event of size 0! Doing nothing!" s
      else
        (* fileReader.readAsArrayBuffer(event.data) *)
        set_loads (loads s ++ [{| load_filepath := filepath rec;
                                  load_filename := filename rec;
                                  load_data := blob |}]) s
  | HLast orig_handler =>
      if decide (length blob = 0) then s
      else
        let s := info ("Writing last " +:+ pretty (length blob) +:+
                       " bytes to " +:+ filename rec) s in
        handle_data orig_handler rec blob s
  end.

(** Fire [dataavailable] at recorder [r] with everything gathered so
    far, and start a new blob. *)
Definition fire_dataavailable (r : nat) (s : State) : State :=
  match heap s !! r with
  | Some rec =>
      let blob := gathered rec in
      let s := update_recorder r (set_gathered []) s in
      handle_data (ondataavailable rec) rec blob s
  | None => s
  end.

(** The [onpause] handler installed by [trackUnsubscribed]
    (lines 176-189). *)
Definition on_pause (r : nat) (s : State) : State :=
  match heap s !! r with
  | Some rec =>
      let orig_handler := ondataavailable rec in
      let s := update_recorder r (set_ondataavailable (HLast orig_handler)) s in
      let s := info ("Paused " +:+ filename rec +:+ ", requesting final data.") s in
      (* recorder.requestData() *)
      match state rec with
      | inactive => uncaught "InvalidStateError" s
      | _ =>
          let s := queue_task (TRequestData r) s in
          let s := info ("Stopping " +:+ filename rec +:+ " completely.") s in
          (* recorder.stop() *)
          let s := update_recorder r (set_state inactive) s in
          queue_task (TStop r) s
      end
  | None => s
  end.

(** The [onstop] handler installed by [trackUnsubscribed]
    (lines 190-194). *)
Definition on_stop (rec : Recorder) (stopped_callback : StopCallback)
    (s : State) : State :=
  let s := set_recorderCount (recorderCount s - 1) s in
  let s := info ("Stopped " +:+ filename rec +:+
                 ". Active recorder count is now " +:+
                 pretty (recorderCount s) +:+ ".") s in
  run_callback stopped_callback (recorderCount s) s.

(** The [onstart] handler (lines 310-313). *)
Definition on_start (rec : Recorder) (s : State) : State :=
  let s := set_recorderCount (recorderCount s + 1) s in
  info ("Recorder " +:+ filename rec +:+
        " started. Active recorder count is now " +:+
        pretty (recorderCount s) +:+ ".") s.

(** One task of the event loop. *)
Definition run_task (t : Task) (s : State) : State :=
  match t with
  | TStart r =>
      match heap s !! r with
      | Some rec => on_start rec s
      | None => s
      end
  | TPause r =>
      let s := update_recorder r (set_gathering false) s in
      match heap s !! r with
      | Some rec => if onpause rec then on_pause r s else s
      | None => s
      end
  | TRequestData r => fire_dataavailable r s
  | TStop r =>
      let s := update_recorder r (set_gathering false) s in
      let s := fire_dataavailable r s in
      match heap s !! r with
      | Some rec =>
          match onstop rec with
          | Some stopped_callback => on_stop rec stopped_callback s
          | None => s
          end
      | None => s
      end
  end.

(** The [onload] of a [FileReader] (lines 302-307); [now] is what
    [Date.now()] returns. *)
Definition on_load (l : Load) (now : Z) (s : State) : State :=
  let buffer := load_data l in
  let s := info ("Writing " +:+ pretty (length buffer) +:+ " bytes to " +:+
                 load_filename l) s in
  let start := now in
  match arrayBufferToString buffer with
  | Some chunk => appendRecording (load_filepath l) chunk start s
  | None => s
  end.

(** ** [main] (lines 29-114) *)

Definition participants_message (participants : list Participant) : string :=
  let n := length participants in
  let message :=
    "There " +:+ (if decide (1 < n) then "are" else "is") +:+ " " +:+
    pretty n +:+ " RemoteParticipant" +:+
    (if decide (1 < n) then "s" else "") +:+ " in the Room:" +:+ nl +:+ nl in
  foldl (λ message participant,
           let message :=
             message +:+ "  - RemoteParticipant " +:+
             participant_sid participant +:+ nl in
           foldl (λ message track,
                    match track_kind track with
                    | data => message
                    | k => message +:+ "    - " +:+ trackClassName k +:+ " " +:+
                           track_sid track +:+ nl
                    end)
                 message (participant_tracks participant))
        message participants.

Definition main (connectedRoom : Room) (s : State) : State :=
  let s := debug "Connecting to Room..." s in
  let s := set_room (Some connectedRoom) s in
  let s := info ("Connected to Room " +:+ room_sid connectedRoom +:+
                 " as LocalParticipant " +:+
                 room_localParticipant_sid connectedRoom +:+ ".") s in
  if shouldClose s then close s
  else
    let participants := room_participants connectedRoom in
    let s :=
      if decide (length participants = 0) then
        let s := info "There are no RemoteParticipants in the Room." s in
        let s := info ("I will wait for " +:+ pretty roomEndingTimeoutSeconds +:+
                       " seconds before I give up and leave.") s in
        let '(id, s) := setTimeout (roomStartingTimeoutSeconds * 1000) s in
        set_emptyRoomTimeout (Some id) s
      else
        let s := info (participants_message participants) s in
        foldl (λ s participant,
                 foldl (λ s track, trackSubscribed track participant s)
                       s (participant_tracks participant))
              s participants in
    set_listening true s.

(** ** The listeners registered by [main] *)

Definition with_participants (f : list Participant → list Participant)
    (s : State) : State :=
  match room s with
  | Some rm =>
      set_room (Some {| room_sid := room_sid rm; room_name := room_name rm;
                        room_localParticipant_sid := room_localParticipant_sid rm;
                        room_state := room_state rm;
                        room_participants := f (room_participants rm) |}) s
  | None => s
  end.

Definition current_participants (s : State) : list Participant :=
  match room s with
  | Some rm => room_participants rm
  | None => []
  end.

Definition is_member (sid : string) (s : State) : bool :=
  bool_decide (sid ∈ participant_sid <$> current_participants s).

Definition on_participantConnected (participant : Participant) (s : State)
    : State :=
  let s := info ("RemoteParticipant " +:+ participant_sid participant +:+
                 " connected.") s in
  match emptyRoomTimeout s with
  | Some id =>
      let s := clearTimeout id s in
      set_emptyRoomTimeout None s
  | None => s
  end.

Definition on_participantDisconnected (participant : Participant) (s : State)
    : State :=
  let s := info ("RemoteParticipant " +:+ participant_sid participant +:+
                 " disconnected.") s in
  let participants := current_participants s in
  if decide (length participants = 0) then
    let s := info ("The last participant left. Will disconnect in " +:+
                   pretty roomEndingTimeoutSeconds +:+ " seconds") s in
    let '(id, s) := setTimeout (roomEndingTimeoutSeconds * 1000) s in
    set_emptyRoomTimeout (Some id) s
  else s.

Definition on_trackSubscribed (track : Track) (participant : Participant)
    (s : State) : State :=
  match track_kind track with
  | data => s
  | k =>
      let s := info ("Subscribed to " +:+ trackClassName k +:+ " " +:+
                     track_sid track +:+ " published by RemoteParticipant " +:+
                     participant_sid participant) s in
      trackSubscribed track participant s
  end.

Definition on_trackUnsubscribed (track : Track) (participant : Participant)
    (s : State) : State :=
  match track_kind track with
  | data => s
  | k =>
      let s := info ("Unsubscribed from " +:+ trackClassName k +:+ " " +:+
                     track_sid track +:+ " published by RemoteParticipant " +:+
                     participant_sid participant) s in
      trackUnsubscribed (track_id track) CbNothing s
  end.

Definition on_disconnected (err : option string) (s : State) : State :=
  let s := info "Disconnected from Room." s in
  parentClose err s.

Definition on_room_ended (s : State) : State :=
  let s := info "Room ended. Closing everything down." s in
  parentClose (Some "Room ended") s.

(** The [resize] listener added by [record] (lines 248-256). *)
Definition on_resize (track : Track) (identity : string) (s : State) : State :=
  let s := info ("Video for participant " +:+ identity +:+
                 " has resized video element " +:+ "" +:+
                 ". Restarting recording on the same track.") s in
  trackUnsubscribed (track_id track) (CbRestart track identity) s.

(** ** The page as a transition system

    Everything that can make the page run code: the host evaluating
    [main], [shutdown] or [close]; the room's events; a <video> element
    resizing; a timer firing; the event loop delivering the next recorder
    event or the next file load; a recorder gathering data, reaching its
    timeslice, or losing its tracks. *)
Inductive Action :=
  | AMain (connectedRoom : Room)
  | AShutdown
  | AClose
  | AParticipantConnected (participant : Participant)
  | AParticipantDisconnected (participant : Participant)
  | ATrackSubscribed (track : Track) (participant : Participant)
  | ATrackUnsubscribed (track : Track) (participant : Participant)
  | ARoomDisconnected (err : option string)
  | ARoomEnded
  | AResize (element : nat)
  | ATimer (id : nat)
  | ATask
  | ALoad (now : Z)
  | AGather (r : nat) (chunk : list byte)
  | ATimeslice (r : nat)
  | AEnded (r : nat).

Definition step (a : Action) (s : State) : State :=
  match a with
  | AMain connectedRoom =>
      match room s with
      | None => main connectedRoom s
      | Some _ => s
      end
  | AShutdown => shutdown s
  | AClose => close s
  | AParticipantConnected p =>
      if listening s && negb (is_member (participant_sid p) s) then
        on_participantConnected p (with_participants (λ ps, ps ++ [p]) s)
      else s
  | AParticipantDisconnected p =>
      if listening s && is_member (participant_sid p) s then
        on_participantDisconnected p
          (with_participants
             (filter (λ q, participant_sid q ≠ participant_sid p)) s)
      else s
  | ATrackSubscribed track p =>
      if listening s then on_trackSubscribed track p s else s
  | ATrackUnsubscribed track p =>
      if listening s then on_trackUnsubscribed track p s else s
  | ARoomDisconnected err =>
      if listening s && negb (once_disconnected s) then
        on_disconnected err (set_once_disconnected true s)
      else s
  | ARoomEnded =>
      if listening s && negb (once_room_ended s) then
        on_room_ended (set_once_room_ended true s)
      else s
  | AResize element =>
      match elements s !! element with
      | Some (Some (track, who)) => on_resize track who s
      | _ => s
      end
  | ATimer id =>
      if bool_decide (id ∈ (fst <$> timers s)) then
        parentClose None (clearTimeout id s)
      else s
  | ATask =>
      match tasks s with
      | t :: rest => run_task t (set_tasks rest s)
      | [] => s
      end
  | ALoad now =>
      match loads s with
      | l :: rest => on_load l now (set_loads rest s)
      | [] => s
      end
  | AGather r chunk =>
      match heap s !! r with
      | Some rec =>
          if gathering rec then
            update_recorder r (set_gathered (gathered rec ++ chunk)) s
          else s
      | None => s
      end
  | ATimeslice r =>
      match heap s !! r with
      | Some rec =>
          match state rec with
          | recording => fire_dataavailable r s
          | _ => s
          end
      | None => s
      end
  | AEnded r =>
      match heap s !! r with
      | Some rec =>
          match state rec with
          | inactive => s
          | _ => queue_task (TStop r) (update_recorder r (set_state inactive) s)
          end
      | None => s
      end
  end.

Definition run (actions : list Action) (s : State) : State :=
  foldl (λ s a, step a s) s actions.

End Sandbox.

(* ===================================================================== *)
(** * The host process (index.js)                                        *)
(* ===================================================================== *)

Module Host.
Import Codec.

(** The value passed to [close]: an [Error] object carries a [stack], the
    values the page sends through [parentClose] (a string, a plain
    object) do not. *)
Inductive ErrorValue :=
  | WithStack (stack : string)
  | NoStack.

Inductive Level := Ldebug | Linfo | Lerror.

(** The two callers of [appendFile]: [createRecording] for the metadata
    and [appendRecording] for a chunk, whose callback uses [start]. *)
Inductive WriteKind := Metadata | Chunk (start : Z).

(** What the host does to the outside. *)
Inductive Event :=
  | ELog (level : Level) (message : string)
  | EAppendFile (path : string) (data : list byte) (kind : WriteKind)
  | EConsole (message : string)
  | EListen (port : Z)
  | ELaunch
  | ENewPage
  | EGoto (url : string)
  | EExpose
  | EEvaluateMain (token roomSid : string)
  | EEvaluateShutdown
  | EWait (ms : Z)
  | EServerClose
  | EEvaluateClose
  | EBrowserClose
  | EExit (code : Z).

(** Where a suspended call of [close] resumes. *)
Inductive ClosePoint :=
  | AfterShutdown
  | AfterWait
  | AfterPageClose
  | AfterBrowserClose.

(** Where the suspended [main] resumes. *)
Inductive MainPoint :=
  | AfterListen
  | AfterLaunch
  | AfterNewPage
  | AfterGoto
  | AfterExpose
  | AfterEvaluate.

(** An [appendFile] call whose input/output has not completed. *)
Record Write := {
  write_path : string;
  write_data : list byte;
  write_kind : WriteKind
}.

Record Config := {
  port : Z;
  token : string;
  roomSid : string
}.

(** The module-level variables of index.js, the suspended [async] calls,
    the file system, and the events so far.  [exited] holds the status
    once [process.exit] has run. *)
Record State := {
  browser : bool;
  page : bool;
  server : bool;
  shouldClose : bool;
  isClosing : bool;
  main_at : option (Config * MainPoint);
  closing : list (option ErrorValue * ClosePoint);
  dirs : gset string;
  files : gmap string (list byte);
  pending : list Write;
  exited : option Z;
  trace : list Event
}.

Definition initial : State := {|
  browser := false; page := false; server := false;
  shouldClose := false; isClosing := false;
  main_at := None; closing := []; dirs := ∅; files := ∅; pending := [];
  exited := None; trace := []
|}.

Definition set_browser (v : bool) (s : State) : State :=
  {| browser := v; page := page s; server := server s;
     shouldClose := shouldClose s; isClosing := isClosing s;
     main_at := main_at s; closing := closing s; dirs := dirs s;
     files := files s; pending := pending s; exited := exited s;
     trace := trace s |}.

Definition set_page (v : bool) (s : State) : State :=
  {| browser := browser s; page := v; server := server s;
     shouldClose := shouldClose s; isClosing := isClosing s;
     main_at := main_at s; closing := closing s; dirs := dirs s;
     files := files s; pending := pending s; exited := exited s;
     trace := trace s |}.

Definition set_server (v : bool) (s : State) : State :=
  {| browser := browser s; page := page s; server := v;
     shouldClose := shouldClose s; isClosing := isClosing s;
     main_at := main_at s; closing := closing s; dirs := dirs s;
     files := files s; pending := pending s; exited := exited s;
     trace := trace s |}.

Definition set_shouldClose (v : bool) (s : State) : State :=
  {| browser := browser s; page := page s; server := server s;
     shouldClose := v; isClosing := isClosing s;
     main_at := main_at s; closing := closing s; dirs := dirs s;
     files := files s; pending := pending s; exited := exited s;
     trace := trace s |}.

Definition set_isClosing (v : bool) (s : State) : State :=
  {| browser := browser s; page := page s; server := server s;
     shouldClose := shouldClose s; isClosing := v;
     main_at := main_at s; closing := closing s; dirs := dirs s;
     files := files s; pending := pending s; exited := exited s;
     trace := trace s |}.

Definition set_main_at (v : option (Config * MainPoint)) (s : State) : State :=
  {| browser := browser s; page := page s; server := server s;
     shouldClose := shouldClose s; isClosing := isClosing s;
     main_at := v; closing := closing s; dirs := dirs s;
     files := files s; pending := pending s; exited := exited s;
     trace := trace s |}.

Definition set_closing (v : list (option ErrorValue * ClosePoint)) (s : State)
    : State :=
  {| browser := browser s; page := page s; server := server s;
     shouldClose := shouldClose s; isClosing := isClosing s;
     main_at := main_at s; closing := v; dirs := dirs s;
     files := files s; pending := pending s; exited := exited s;
     trace := trace s |}.

Definition set_dirs (v : gset string) (s : State) : State :=
  {| browser := browser s; page := page s; server := server s;
     shouldClose := shouldClose s; isClosing := isClosing s;
     main_at := main_at s; closing := closing s; dirs := v;
     files := files s; pending := pending s; exited := exited s;
     trace := trace s |}.

Definition set_files (v : gmap string (list byte)) (s : State) : State :=
  {| browser := browser s; page := page s; server := server s;
     shouldClose := shouldClose s; isClosing := isClosing s;
     main_at := main_at s; closing := closing s; dirs := dirs s;
     files := v; pending := pending s; exited := exited s;
     trace := trace s |}.

Definition set_pending (v : list Write) (s : State) : State :=
  {| browser := browser s; page := page s; server := server s;
     shouldClose := shouldClose s; isClosing := isClosing s;
     main_at := main_at s; closing := closing s; dirs := dirs s;
     files := files s; pending := v; exited := exited s;
     trace := trace s |}.

Definition set_exited (v : option Z) (s : State) : State :=
  {| browser := browser s; page := page s; server := server s;
     shouldClose := shouldClose s; isClosing := isClosing s;
     main_at := main_at s; closing := closing s; dirs := dirs s;
     files := files s; pending := pending s; exited := v;
     trace := trace s |}.

Definition set_trace (v : list Event) (s : State) : State :=
  {| browser := browser s; page := page s; server := server s;
     shouldClose := shouldClose s; isClosing := isClosing s;
     main_at := main_at s; closing := closing s; dirs := dirs s;
     files := files s; pending := pending s; exited := exited s;
     trace := v |}.

Definition emit (e : Event) (s : State) : State :=
  set_trace (trace s ++ [e]) s.

Definition logger_debug (m : string) : State → State := emit (ELog Ldebug m).
Definition logger_info (m : string) : State → State := emit (ELog Linfo m).
Definition logger_error (m : string) : State → State := emit (ELog Lerror m).

Definition nl : string := String (Ascii.ascii_of_nat 10) "".
Definition quote : string := String (Ascii.ascii_of_nat 34) "".
Definition backslash : string := String (Ascii.ascii_of_nat 92) "".

(** ** [path.join] of Node's [path] module (posix)

    The non-empty arguments are put together with "/" and the result is
    normalised: empty and "." segments are dropped, a ".." segment takes
    the segment before it away (or stays, in a relative path, when there
    is none to take), and a leading or trailing "/" is kept. *)

Definition slash : Ascii.ascii := Ascii.ascii_of_nat 47.

(** [path.split('/')]. *)
Fixpoint segments (path : string) : list string :=
  match path with
  | EmptyString => [""]
  | String c rest =>
      if decide (c = slash) then "" :: segments rest
      else
        match segments rest with
        | x :: xs => String c x :: xs
        | [] => [String c ""]
        end
  end.

(** [segments.join('/')]. *)
Fixpoint with_slashes (segments : list string) : string :=
  match segments with
  | [] => ""
  | [x] => x
  | x :: rest => x +:+ "/" +:+ with_slashes rest
  end.

(** [normalizeString]: the segments kept, in order. *)
Definition normalizeString (path : string) (allowAboveRoot : bool)
    : list string :=
  foldl (λ res segment,
           if decide (segment = "" ∨ segment = ".") then res
           else if decide (segment = "..") then
             match last res with
             | Some previous =>
                 if decide (previous = "..") then
                   if allowAboveRoot then res ++ [".."] else res
                 else removelast res
             | None => if allowAboveRoot then [".."] else []
             end
           else res ++ [segment])
        [] (segments path).

Definition starts_with_slash (path : string) : bool :=
  match path with
  | String c _ => bool_decide (c = slash)
  | EmptyString => false
  end.

Fixpoint ends_with_slash (path : string) : bool :=
  match path with
  | EmptyString => false
  | String c EmptyString => bool_decide (c = slash)
  | String _ rest => ends_with_slash rest
  end.

(** [path.normalize]. *)
Definition normalize (path : string) : string :=
  if decide (path = "") then "."
  else
    let isAbsolute := starts_with_slash path in
    let trailingSeparator := ends_with_slash path in
    let path := with_slashes (normalizeString path (negb isAbsolute)) in
    if decide (path = "") then
      if isAbsolute then "/" else if trailingSeparator then "./" else "."
    else
      let path := if trailingSeparator then path +:+ "/" else path in
      if isAbsolute then "/" +:+ path else path.

(** [path.join(...args)]. *)
Definition join (args : list string) : string :=
  match filter (λ arg, arg ≠ "") args with
  | [] => "."
  | arg :: rest =>
      normalize (foldl (λ joined arg, joined +:+ "/" +:+ arg) arg rest)
  end.

(** [indent] (lines 193-195): two spaces in front of every line. *)
Fixpoint indent_from (str : string) : string :=
  match str with
  | EmptyString => ""
  | String c rest =>
      if decide (c = Ascii.ascii_of_nat 10)
      then String c ("  " +:+ indent_from rest)
      else String c (indent_from rest)
  end.

Definition indent (str : string) : string := "  " +:+ indent_from str.

(** The code units of a string of the model. *)
Fixpoint code_units (str : string) : list N :=
  match str with
  | EmptyString => []
  | String c rest => Ascii.N_of_ascii c :: code_units rest
  end.

(** [JSON.stringify] of a string without control characters. *)
Fixpoint json_escape (str : string) : string :=
  match str with
  | EmptyString => ""
  | String c rest =>
      if decide (c = Ascii.ascii_of_nat 34 ∨ c = Ascii.ascii_of_nat 92)
      then backslash +:+ String c (json_escape rest)
      else String c (json_escape rest)
  end.

(** [JSON.stringify({ createTime: now, contentType: mimeType })]. *)
Definition metaString (now : Z) (mimeType : string) : string :=
  "{" +:+ quote +:+ "createTime" +:+ quote +:+ ":" +:+ pretty now +:+ "," +:+
  quote +:+ "contentType" +:+ quote +:+ ":" +:+
  quote +:+ json_escape mimeType +:+ quote +:+ "}".

(** [appendFile(path, data, callback)]: the write is handed to the
    runtime; the call returns at once. *)
Definition appendFile (path : string) (bytes : list byte) (kind : WriteKind)
    (s : State) : State :=
  let s := emit (EAppendFile path bytes kind) s in
  set_pending (pending s ++ [{| write_path := path; write_data := bytes;
                                write_kind := kind |}]) s.

(** The function exposed as [createRecording] (lines 94-106). *)
Definition createRecording (filepath metapath : list string)
    (mimeType : string) (now : Z) (s : State) : State :=
  let s := set_dirs ({[ join (take (length filepath - 1) filepath) ]} ∪ dirs s) s in
  let metaString := metaString now mimeType in
  let s := appendFile (join metapath)
             (stringToArrayBuffer (code_units metaString)) Metadata s in
  logger_info ("Created " +:+ join filepath +:+ " and wrote metadata " +:+
               metaString) s.

(** The function exposed as [appendRecording] (lines 107-122). *)
Definition appendRecording (filepath : list string) (chunk : list N)
    (start : Z) (s : State) : State :=
  let filename := join filepath in
  let buffer := stringToArrayBuffer chunk in
  appendFile filename buffer (Chunk start) s.

(** The runtime finishes the write at position [i] of [pending] and
    calls its callback: with an error and nothing written, or with the
    bytes appended to the file (created when missing). *)
Definition complete (i : nat) (failure : option string) (now : Z) (s : State)
    : State :=
  match pending s !! i with
  | None => s
  | Some w =>
      let s := set_pending (delete i (pending s)) s in
      match failure with
      | Some stack =>
          match write_kind w with
          | Metadata =>
              logger_error (nl +:+ "Error writing metadata" +:+ nl +:+
                            indent stack +:+ nl) s
          | Chunk _ => logger_error (nl +:+ nl +:+ indent stack +:+ nl) s
          end
      | None =>
          let old := default [] (files s !! write_path w) in
          let s := set_files (<[write_path w := old ++ write_data w]> (files s)) s in
          match write_kind w with
          | Metadata => s
          | Chunk start =>
              let elapsed := (now - start)%Z in
              logger_debug ("Wrote " +:+ pretty (length (write_data w)) +:+
                            " bytes to " +:+ write_path w +:+ " in " +:+
                            pretty elapsed +:+ "ms") s
          end
      end
  end.

(** ** [close] (lines 148-191), cut at its [await]s *)

Definition process_exit (error : option ErrorValue) (s : State) : State :=
  match error with
  | Some _ => set_exited (Some 1%Z) (emit (EExit 1) s)
  | None => set_exited (Some 0%Z) (emit (EExit 0) s)
  end.

Definition suspend (error : option ErrorValue) (at_ : ClosePoint) (s : State)
    : State :=
  set_closing (closing s ++ [(error, at_)]) s.

Definition close_from_browser (error : option ErrorValue) (s : State) : State :=
  if browser s then
    let s := logger_debug "Closing browser..." s in
    suspend error AfterBrowserClose (emit EBrowserClose s)
  else process_exit error s.

Definition close_from_server (error : option ErrorValue) (s : State) : State :=
  let s :=
    if server s then
      let s := logger_debug "Closing HTTP server..." s in
      let s := emit EServerClose s in
      logger_info "Closed HTTP server." s
    else s in
  if page s then
    let s := logger_debug "Closing page..." s in
    suspend error AfterPageClose (emit EEvaluateClose s)
  else close_from_browser error s.

Definition close_from_wait (error : option ErrorValue) (s : State) : State :=
  let s := logger_info
             "Waiting 10 seconds for everything to finish before exiting..." s in
  suspend error AfterWait (emit (EWait 10000) s).

(** A call of [close], run up to its first [await] (or to its end). *)
Definition close (error : option ErrorValue) (s : State) : State :=
  if isClosing s then s
  else
    let s := set_isClosing true s in
    match error with
    | Some NoStack =>
        (* indent(undefined) throws; the call ends here *)
        s
    | _ =>
        let s :=
          match error with
          | Some (WithStack stack) =>
              logger_error (nl +:+ nl +:+ indent stack +:+ nl) s
          | _ => s
          end in
        if page s then
          let s := logger_debug
                     "Shutting down any remaining recorders and disconnecting room..." s in
          suspend error AfterShutdown (emit EEvaluateShutdown s)
        else close_from_wait error s
    end.

(** The awaited promise of a suspended call is fulfilled. *)
Definition close_resume (error : option ErrorValue) (at_ : ClosePoint)
    (s : State) : State :=
  match at_ with
  | AfterShutdown =>
      let s := logger_info "All recorders shut down and room disconnected." s in
      close_from_wait error s
  | AfterWait => close_from_server error s
  | AfterPageClose =>
      let s := logger_info "Closed page." s in
      close_from_browser error s
  | AfterBrowserClose =>
      let s := logger_info "Closed browser." s in
      process_exit error s
  end.

(** ** [main] (lines 47-138), cut at its [await]s *)

Definition main (c : Config) (pid : Z) (s : State) : State :=
  let s := emit (EConsole ("PID=" +:+ pretty pid +:+ nl)) s in
  let s := logger_debug "Starting HTTP server..." s in
  set_main_at (Some (c, AfterListen)) (emit (EListen (port c)) s).

Definition await (c : Config) (at_ : MainPoint) (e : Event) (s : State)
    : State :=
  set_main_at (Some (c, at_)) (emit e s).

Definition main_resume (c : Config) (at_ : MainPoint) (s : State) : State :=
  let s := set_main_at None s in
  let url := "http://localhost:" +:+ pretty (port c) in
  match at_ with
  | AfterListen =>
      let s := set_server true s in
      let s := logger_info ("Started HTTP server. Listening on " +:+
                            pretty (port c) +:+ ".") s in
      if shouldClose s then close None s
      else await c AfterLaunch ELaunch (logger_debug "Launching browser..." s)
  | AfterLaunch =>
      let s := set_browser true s in
      let s := logger_info "Launched browser." s in
      if shouldClose s then close None s
      else await c AfterNewPage ENewPage (logger_debug "Opening new page..." s)
  | AfterNewPage =>
      let s := set_page true s in
      let s := logger_info "Opened new page." s in
      if shouldClose s then close None s
      else await c AfterGoto (EGoto url)
                 (logger_debug ("Navigating to " +:+ url +:+ "...") s)
  | AfterGoto =>
      let s := logger_info ("Navigated to " +:+ url +:+ ".") s in
      if shouldClose s then close None s
      else await c AfterExpose EExpose
                 (logger_debug "Registering callback(s)..." s)
  | AfterExpose =>
      let s := logger_info "Registered callback(s)." s in
      if shouldClose s then close None s
      else await c AfterEvaluate (EEvaluateMain (token c) (roomSid c)) s
  | AfterEvaluate =>
      if shouldClose s then close None s else s
  end.

(** The [catch] of the call of [main] (lines 242-245). *)
Definition main_rejected (stack : string) (s : State) : State :=
  let s := set_main_at None s in
  let s := set_shouldClose true s in
  close (Some (WithStack stack)) s.

(** A signal handler (lines 209-218). *)
Definition on_signal (signal : string) (s : State) : State :=
  let s := logger_debug ("Received " +:+ signal +:+ ".") s in
  let s := set_shouldClose true s in
  close None s.

(** ** The host as a transition system *)

Inductive Call :=
  | CDebug (message : string)
  | CInfo (message : string)
  | CError (message : string)
  | CParentClose (error : option ErrorValue)
  | CCreateRecording (filepath metapath : list string) (mimeType : string)
  | CAppendRecording (filepath : list string) (chunk : list N) (start : Z).

Definition serve (call : Call) (now : Z) (s : State) : State :=
  match call with
  | CDebug m => logger_debug m s
  | CInfo m => logger_info m s
  | CError m => logger_error m s
  | CParentClose error => close error s
  | CCreateRecording filepath metapath mimeType =>
      createRecording filepath metapath mimeType now s
  | CAppendRecording filepath chunk start => appendRecording filepath chunk start s
  end.

Inductive Action :=
  | AStart (c : Config) (pid : Z)
  | AMainResume
  | AMainReject (stack : string)
  | ASignal (signal : string)
  | ACall (call : Call) (now : Z)
  | ACloseResume (i : nat)
  | AComplete (i : nat) (failure : option string) (now : Z).

Definition step (a : Action) (s : State) : State :=
  match exited s with
  | Some _ => s
  | None =>
      match a with
      | AStart c pid => main c pid s
      | AMainResume =>
          match main_at s with
          | Some (c, at_) => main_resume c at_ s
          | None => s
          end
      | AMainReject stack =>
          match main_at s with
          | Some _ => main_rejected stack s
          | None => s
          end
      | ASignal signal => on_signal signal s
      | ACall call now => serve call now s
      | ACloseResume i =>
          match closing s !! i with
          | Some (error, at_) =>
              close_resume error at_ (set_closing (delete i (closing s)) s)
          | None => s
          end
      | AComplete i failure now => complete i failure now s
      end
  end.

Definition run (actions : list Action) (s : State) : State :=
  foldl (λ s a, step a s) s actions.

End Host.

(* ===================================================================== *)
(** * Vocabulary of the statements                                       *)
(* ===================================================================== *)

Module Props.
Import Sandbox.

(** Track [trackid] has an entry in [recorders] whose recorder is in the
    [recording] state: the test of line 174. *)
Definition registered_recording (trackid : string) (s : State) : Prop :=
  ∃ r rec, Map_get trackid (recorders s) = Some r
           ∧ heap s !! r = Some rec ∧ state rec = recording.

(** What [trackUnsubscribed] does to a recorder it found recording:
    the two handlers are installed and [pause()] moves it to [paused]. *)
Definition mark_stopping (cb : StopCallback) (rec : Recorder) : Recorder :=
  set_state paused (set_onstop (Some cb) (set_onpause true rec)).

(** What the [pause] event does to it: gathering ends, the data handler
    is wrapped, and [stop()] moves it to [inactive]. *)
Definition finish_pause (rec : Recorder) : Recorder :=
  set_state inactive
    (set_ondataavailable (HLast (ondataavailable rec))
       (set_gathering false rec)).

(** The recorder once its data has been handed over. *)
Definition emptied (rec : Recorder) : Recorder :=
  set_gathered [] (set_gathering false rec).



Definition not_found_message (trackid : string) : string :=
  "Recorder for track " +:+ trackid +:+
  " was not found or is not recording. Maybe already unsubscribed?".

(** The [appendRecording] calls of a trace, oldest first. *)
Definition appends (t : list Event) : list (list string * list N) :=
  omap (λ e, match e with
             | EAppendRecording filepath chunk _ => Some (filepath, chunk)
             | _ => None
             end) t.

(** The number of [room.disconnect()] calls of a trace. *)
Definition disconnects (t : list Event) : nat :=
  length (omap (λ e, match e with EDisconnect => Some () | _ => None end) t).

(** The registered recorders are distinct objects under distinct track
    ids, all recording with the data handler of [startRecorder]. *)
Definition all_recording (s : State) : Prop :=
  NoDup (recorders s).*1 ∧ NoDup (recorders s).*2
  ∧ ∀ t r, (t, r) ∈ recorders s →
      ∃ rec, heap s !! r = Some rec ∧ state rec = recording
             ∧ ondataavailable rec = HRecord.

(** [all_recording], as a test that evaluates. *)
Definition all_recording_check (s : State) : bool :=
  bool_decide (NoDup (recorders s).*1)
  && bool_decide (NoDup (recorders s).*2)
  && forallb (λ e : string * nat,
                match heap s !! e.2 with
                | Some rec => bool_decide (state rec = recording)
                              && bool_decide (ondataavailable rec = HRecord)
                | None => false
                end) (recorders s).


Definition mismatch_message (count : Z) (size : nat) : string :=
  "Active recorder count " +:+ pretty count +:+
  " doesn't match recorder size " +:+ pretty size +:+ ".".


(** No registered recorder is recording, as a test that evaluates. *)
Definition none_recording_check (s : State) : bool :=
  forallb (λ e : string * nat,
             match heap s !! e.2 with
             | Some rec => negb (bool_decide (state rec = recording))
             | None => true
             end) (recorders s).

(** The part of the state the idle timer is about. *)
Definition occupancy (s : State)
    : list (nat * Z) * nat * option nat * option (list Participant) :=
  (timers s, next_timer s, emptyRoomTimeout s, room_participants <$> room s).


(** The idle timer all through a run. *)
Definition timer_inv (s : State) : Prop :=
  (∀ t, t ∈ timers s → emptyRoomTimeout s = Some t.1)
  ∧ (timers s ≠ [] → room_participants <$> room s = Some [])
  ∧ (room s = None → timers s = []).


(** The two tasks that the [pause] event of recorder [r] queues. *)
Definition final_tasks (r : nat) : list Task := [TRequestData r; TStop r].

(** A drain started by the [shutdown()] call of promise [p] is under way:
    the recorders [A] wait for their [pause] event, [X] (at most one) has
    had its requested data delivered and waits for its [stop] event, the
    recorders [B] wait for both, and [D] are done.  The count is the
    number of recorders still to stop; the promise is pending, the room
    is connected, and [d] calls of [room.disconnect()] were made. *)
Record draining (p d : nat) (A X B D : list nat) (s : State) : Prop := {
  draining_tasks :
    tasks s = (TPause <$> A) ++ (TStop <$> X) ++ mjoin (final_tasks <$> B);
  draining_head : length X ≤ 1 ∧ (X ≠ [] → A = []);
  draining_nodup : NoDup (A ++ X ++ B ++ D);
  draining_paused :
    ∀ r, r ∈ A → ∃ rec, heap s !! r = Some rec ∧ state rec = paused
                        ∧ onpause rec = true
                        ∧ onstop rec = Some (CbShutdown p)
                        ∧ ondataavailable rec = HRecord;
  draining_stopping :
    ∀ r, r ∈ X ++ B → ∃ rec, heap s !! r = Some rec ∧ state rec = inactive
                             ∧ onstop rec = Some (CbShutdown p)
                             ∧ ondataavailable rec = HLast HRecord;
  draining_done :
    ∀ r, r ∈ D → ∃ rec, heap s !! r = Some rec ∧ state rec = inactive;
  draining_count :
    recorderCount s = Z.of_nat (length A + length X + length B);
  draining_promise : promises s !! p = Some false;
  draining_room : ∃ rm, room s = Some rm ∧ room_state rm = connected;
  draining_disconnects : disconnects (trace s) = d
}.

(** Such a drain has ended: the count is zero, nothing is queued, the
    promise is resolved, and [room.disconnect()] was called once more, as
    the last thing the page did; the recorders [all] are inactive. *)
Definition drain_finished (p d : nat) (all : list nat) (s : State) : Prop :=
  recorderCount s = 0%Z ∧ tasks s = []
  ∧ disconnects (trace s) = S d ∧ last (trace s) = Some EDisconnect
  ∧ promises s !! p = Some true
  ∧ ∀ r, r ∈ all → ∃ rec, heap s !! r = Some rec ∧ state rec = inactive.


Definition disconnected_room (rm : Room) : Room :=
  {| room_sid := room_sid rm; room_name := room_name rm;
     room_localParticipant_sid := room_localParticipant_sid rm;
     room_state := disconnected;
     room_participants := room_participants rm |}.

(** Recorder [r] is as [trackUnsubscribed] leaves a recorder it found
    recording. *)
Definition paused_for (cb : StopCallback) (s : State) (r : nat) : Prop :=
  ∃ rec, heap s !! r = Some rec ∧ state rec = paused ∧ onpause rec = true
         ∧ onstop rec = Some cb ∧ ondataavailable rec = HRecord.


Definition is_log (e : Event) : Prop :=
  match e with
  | EDebug _ | EInfo _ | EError _ => True
  | _ => False
  end.

(** The number of recorder events left in such a drain. *)
Definition events_left (A X B : list nat) : nat :=
  3 * length A + length X + 2 * length B.

(** ** Promises nobody will resolve *)

(** The promise of a [shutdown()] call is pending and no recorder holds
    its [callback] as stop continuation. *)
Definition forgotten (p : nat) (s : State) : Prop :=
  promises s !! p = Some false
  ∧ Some (CbShutdown p) ∉ (onstop <$> heap s).

(** The part of the state that [forgotten] reads. *)
Definition continuations (s : State) : list bool * list (option StopCallback) :=
  (promises s, onstop <$> heap s).

(** ** The recording files *)

(** The file of subscription [n] of a participant's track kind. *)
Definition recording_path (name key : string) (n : nat) : list string :=
  ["recordings"; name; key; pretty n +:+ ".webm"].

Definition created (t : list Event) (fp : list string) : Prop :=
  ∃ mp mime, ECreateRecording fp mp mime ∈ t.

(** Every [appendRecording] call comes after a [createRecording] call for
    the same file. *)
Definition metadata_first (t : list Event) : Prop :=
  ∀ i fp chunk start,
    t !! i = Some (EAppendRecording fp chunk start) →
    ∃ j mp mime, j < i ∧ t !! j = Some (ECreateRecording fp mp mime).

Definition is_append (e : Event) : Prop :=
  match e with EAppendRecording _ _ _ => True | _ => False end.

(** The recorders' files: each is the file of a subscription index between
    1 and the current count of its key, in the directory of the room; no
    two recorders have the same file; each was announced by
    [createRecording], as was the file of every pending load; and the
    trace has every append after the creation of its file. *)
Record files_ok (rm : option Room) (counts : gmap string nat)
    (paths loading : list (list string)) (t : list Event) : Prop := {
  files_paths :
    ∀ fp, fp ∈ paths →
      ∃ r key n, rm = Some r ∧ fp = recording_path (room_name r) key n
                 ∧ 1 ≤ n ≤ default 0 (counts !! key);
  files_distinct : NoDup paths;
  files_created : ∀ fp, fp ∈ paths → created t fp;
  files_loading : ∀ fp, fp ∈ loading → created t fp;
  files_metadata_first : metadata_first t
}.

Definition files_inv (s : State) : Prop :=
  files_ok (room s) (subscriptionCounts s) (filepath <$> heap s)
           (load_filepath <$> loads s) (trace s).

(** The part of the state the files invariant reads, the trace apart. *)
Definition files_view (s : State) :=
  (room_name <$> room s, subscriptionCounts s, filepath <$> heap s,
   load_filepath <$> loads s).

(** A step that leaves that part alone and makes no [appendRecording]
    call. *)
Definition quiet_step (s s' : State) : Prop :=
  files_view s' = files_view s
  ∧ ∃ evs, trace s' = trace s ++ evs ∧ Forall (λ e, ¬ is_append e) evs.

(** ** The bridge between page and host *)

(** The call the host receives for an event of the page: the exposed
    functions are called with the page's arguments; a value given to
    [parentClose] arrives without a [stack]. *)
Definition page_call (e : Sandbox.Event) : option Host.Call :=
  match e with
  | Sandbox.EDebug m => Some (Host.CDebug m)
  | Sandbox.EInfo m => Some (Host.CInfo m)
  | Sandbox.EError m => Some (Host.CError m)
  | Sandbox.EParentClose err =>
      Some (Host.CParentClose (match err with
                               | Some _ => Some Host.NoStack
                               | None => None
                               end))
  | Sandbox.ECreateRecording filepath metapath mimeType =>
      Some (Host.CCreateRecording filepath metapath mimeType)
  | Sandbox.EAppendRecording filepath chunk start =>
      Some (Host.CAppendRecording filepath chunk start)
  | Sandbox.EDisconnect => None
  end.

(** The calls of the exposed functions among the host's actions. *)
Definition host_calls (actions : list Host.Action) : list Host.Call :=
  omap (λ a, match a with Host.ACall call _ => Some call | _ => None end)
       actions.

(** The [appendFile] calls of a host trace, oldest first. *)
Definition writes (t : list Host.Event)
    : list (string * list byte * Host.WriteKind) :=
  omap (λ e, match e with
             | Host.EAppendFile path content kind => Some (path, content, kind)
             | _ => None
             end) t.

(** The [appendFile] call an action of the host makes when it is
    served. *)
Definition issue (a : Host.Action)
    : option (string * list byte * Host.WriteKind) :=
  match a with
  | Host.ACall (Host.CCreateRecording filepath metapath mimeType) now =>
      Some (Host.join metapath,
            Codec.stringToArrayBuffer
              (Host.code_units (Host.metaString now mimeType)),
            Host.Metadata)
  | Host.ACall (Host.CAppendRecording filepath chunk start) _ =>
      Some (Host.join filepath, Codec.stringToArrayBuffer chunk, Host.Chunk start)
  | _ => None
  end.

(** In the sequence [ws] of [appendFile] calls, every write of a chunk
    comes after the write of the metadata that a [createRecording] call
    of the page trace [t] announced for the same file. *)
Definition metadata_issued_first (t : list Sandbox.Event)
    (ws : list (string * list byte * Host.WriteKind)) : Prop :=
  ∀ before path content start after,
    ws = before ++ (path, content, Host.Chunk start) :: after →
    ∃ filepath metapath mimeType now,
      path = Host.join filepath
      ∧ Sandbox.ECreateRecording filepath metapath mimeType ∈ t
      ∧ (Host.join metapath,
         Codec.stringToArrayBuffer (Host.code_units (Host.metaString now mimeType)),
         Host.Metadata) ∈ before.

(** ** The host's teardown *)

(** The teardown stages of the host's [close], numbered in the order of
    the source: page shutdown, the wait, server, page, browser, exit. *)
Definition stage (e : Host.Event) : option nat :=
  match e with
  | Host.EEvaluateShutdown => Some 0
  | Host.EWait _ => Some 1
  | Host.EServerClose => Some 2
  | Host.EEvaluateClose => Some 3
  | Host.EBrowserClose => Some 4
  | Host.EExit _ => Some 5
  | _ => None
  end.

Definition stages (t : list Host.Event) : list nat := omap stage t.

(** How far the teardown has come: one more than the stage a suspended
    call of [close] is waiting for, 6 after the exit, 0 otherwise. *)
Definition level (s : Host.State) : nat :=
  match Host.exited s with
  | Some _ => 6
  | None =>
      match Host.closing s with
      | (_, Host.AfterShutdown) :: _ => 1
      | (_, Host.AfterWait) :: _ => 2
      | (_, Host.AfterPageClose) :: _ => 4
      | (_, Host.AfterBrowserClose) :: _ => 5
      | [] => 0
      end
  end.


(** How many times stage [n] was performed. *)
Definition times (n : nat) (l : list nat) : nat :=
  length (filter (λ m, m = n) l).

(** The stages that a call of [close] goes through from state [s]: the
    ones of lines 158-190 whose [if] holds. *)
Definition teardown (s : Host.State) : list nat :=
  (if Host.page s then [0] else []) ++ [1]
  ++ (if Host.server s then [2] else [])
  ++ (if Host.page s then [3] else [])
  ++ (if Host.browser s then [4] else []) ++ [5].

(** ** The host's files and startup *)

(** A string without a line feed. *)
Fixpoint one_line (str : string) : Prop :=
  match str with
  | EmptyString => True
  | String c rest => c ≠ Ascii.ascii_of_nat 10 ∧ one_line rest
  end.

(** The file system once the write [w] has completed. *)
Definition apply_write (fs : gmap string (list byte)) (w : Host.Write)
    : gmap string (list byte) :=
  <[Host.write_path w :=
      default [] (fs !! Host.write_path w) ++ Host.write_data w]> fs.

(** The file system once every pending write has completed, in the
    order the writes were issued. *)
Definition flush (s : Host.State) : gmap string (list byte) :=
  foldl apply_write (Host.files s) (Host.pending s).

(** The host serves a call that logs or writes, or the runtime completes
    the oldest pending write. *)
Definition in_order (a : Host.Action) : Prop :=
  match a with
  | Host.ACall (Host.CParentClose _) _ => False
  | Host.ACall _ _ => True
  | Host.AComplete 0 None _ => True
  | _ => False
  end.

(** The bytes that the writes [ws] append to [path], oldest first. *)
Definition written (path : string)
    (ws : list (string * list byte * Host.WriteKind)) : list byte :=
  concat (omap (λ w, if decide (w.1.1 = path) then Some w.1.2 else None) ws).

(** A step of [main] that brings something up after the server. *)
Definition startup_step (e : Host.Event) : Prop :=
  match e with
  | Host.ELaunch | Host.ENewPage | Host.EGoto _ | Host.EExpose
  | Host.EEvaluateMain _ _ => True
  | _ => False
  end.

(** A call of [close] ended in its error report: the guard is set, no
    call is suspended, the process has not exited. *)
Definition stuck (s : Host.State) : Prop :=
  Host.isClosing s = true ∧ Host.closing s = [] ∧ Host.exited s = None.

(** ** Frames of the page's steps *)

(** A step that leaves the view [V] of the state alone and only makes
    calls that satisfy [P]. *)
Definition framed {T} (V : State → T) (P : Event → Prop) (s s' : State)
    : Prop :=
  V s' = V s ∧ ∃ evs, trace s' = trace s ++ evs ∧ Forall P evs.

(** Whether the room is there, and connected. *)
Definition connection (s : State) : option RoomState := room_state <$> room s.

Definition not_disconnect (e : Event) : Prop := e ≠ EDisconnect.

(** [room.disconnect()] was not called, or it was called once and the
    room is disconnected. *)
Definition disconnected_once (s : State) : Prop :=
  disconnects (trace s) = 0
  ∨ (disconnects (trace s) = 1 ∧ connection s = Some disconnected).

(** ** What [shutdown] does with the recorders *)




(** ** The layout of the recordings *)

(** A [createRecording] call for a recording of the room [name]: the
    file is [recordings/<name>/<identity>.<kind>/<n>.webm] for an audio
    or video track and an index from 1, the metadata file is its sibling
    [<n>.json], and the type is the one of the kind. *)
Definition recording_call (name : string) (e : Event) : Prop :=
  match e with
  | ECreateRecording filepath metapath mimeType =>
      ∃ identity kind n,
        1 ≤ n
        ∧ filepath = ["recordings"; name;
                      identity +:+ "." +:+ kind_name kind;
                      pretty n +:+ ".webm"]
        ∧ metapath = ["recordings"; name;
                      identity +:+ "." +:+ kind_name kind;
                      pretty n +:+ ".json"]
        ∧ ((kind = audio ∧ mimeType = "audio/webm;codecs=opus")
           ∨ (kind = video ∧ (mimeType = "video/webm;codecs=h264"
                              ∨ mimeType = "video/webm;codecs=vp8")))
  | _ => True
  end.

Definition not_create (e : Event) : Prop :=
  match e with ECreateRecording _ _ _ => False | _ => True end.

(** A stop continuation that restarts nothing but a video track. *)
Definition restarts_video (cb : option StopCallback) : Prop :=
  match cb with
  | Some (CbRestart track _) => track_kind track = video
  | _ => True
  end.

(** A <video> element whose listener is for a video track. *)
Definition listens_video (e : option (Track * string)) : Prop :=
  match e with
  | Some (track, _) => track_kind track = video
  | None => True
  end.

(** What the layout of the recordings depends on. *)
Definition layout_view (s : State)
    : option string * list (option (Track * string))
      * list (option StopCallback) :=
  (room_name <$> room s, elements s, onstop <$> heap s).

(** Every [createRecording] call made so far was for a recording of the
    room, and whatever can start a recorder later is for a video
    track. *)
Record layout_inv (s : State) : Prop := {
  layout_calls :
    ∀ e, e ∈ trace s → not_create e
                       ∨ ∃ rm, room s = Some rm ∧ recording_call (room_name rm) e;
  layout_elements : Forall listens_video (elements s);
  layout_heap : Forall restarts_video (onstop <$> heap s)
}.

(** ** The recorders that [main] starts *)



(** The files of the [createRecording] calls of a trace, oldest first. *)
Definition creations (t : list Event) : list (list string) :=
  omap (λ e, match e with
             | ECreateRecording filepath _ _ => Some filepath
             | _ => None
             end) t.

(** A recorder as [startRecorder] leaves it. *)
Definition just_started (rec : Recorder) : Prop :=
  state rec = recording ∧ ondataavailable rec = HRecord
  ∧ onpause rec = false ∧ onstop rec = None
  ∧ gathering rec = true ∧ gathered rec = [].

(** From [s0] to [s], [n] recorders were started and nothing else
    happened to the recorders, the event loop, the room or the timer. *)
Record started (n : nat) (s0 s : State) : Prop := {
  started_heap : ∃ new, heap s = heap s0 ++ new ∧ length new = n
                        ∧ Forall just_started new
                        ∧ creations (trace s)
                          = creations (trace s0) ++ (filepath <$> new);
  started_tasks : tasks s = tasks s0 ++ (TStart <$> seq (length (heap s0)) n);
  started_room : room s = room s0;
  started_count : recorderCount s = recorderCount s0;
  started_timers : timers s = timers s0
                   ∧ emptyRoomTimeout s = emptyRoomTimeout s0;
  started_listening : listening s = listening s0;
  started_loads : loads s = loads s0
}.

(** The files of the recorders, oldest first. *)
Definition recorder_files (s : State) : list (list string) :=
  filepath <$> heap s.

(** Each recorder's file was announced by one [createRecording] call,
    and nothing else was. *)
Definition announced (s : State) : Prop :=
  creations (trace s) = recorder_files s.

(** ** File names *)

Fixpoint no_slash (s : string) : Prop :=
  match s with
  | EmptyString => True
  | String c rest => c ≠ Host.slash ∧ no_slash rest
  end.

(** A name that [path.join] leaves alone and that names an entry of a
    directory: not empty, not "." or "..", and without a "/". *)
Definition plain (name : string) : Prop :=
  name ≠ "" ∧ name ≠ "." ∧ name ≠ ".." ∧ no_slash name.



(** ** The steady recording path *)

(** What the page calls when a recorder delivers the data [chunk] at its
    timeslice and the file reader has loaded it. *)
Definition chunk_events (rec : Recorder) (chunk : list byte) (now : Z)
    : list Event :=
  if decide (length chunk = 0) then
    [EError "Received a data available event of size 0! Doing nothing!"]
  else
    [EInfo ("Writing " +:+ pretty (length chunk) +:+ " bytes to " +:+
            filename rec);
     EAppendRecording (filepath rec) (Codec.fromCharCode chunk) now].

(** A recorder gathers [chunk], reaches its timeslice, and the file
    reader delivers what it was given. *)
Definition capture (r : nat) (now : Z) (chunk : list byte) : list Action :=
  [AGather r chunk; ATimeslice r; ALoad now].

(** Recorder [r] is [rec], running as [startRecorder] set it up, with
    nothing gathered and no file load pending. *)
Definition steady (r : nat) (rec : Recorder) (s : State) : Prop :=
  heap s !! r = Some rec ∧ state rec = recording ∧ gathering rec = true
  ∧ ondataavailable rec = HRecord ∧ gathered rec = [] ∧ loads s = [].

(** The recorder captures the chunks one after the other, each with the
    time at which its load is delivered. *)
Definition captures (r : nat) (chunks : list (list byte * Z)) : list Action :=
  mjoin ((λ c, capture r c.2 c.1) <$> chunks).

(** The calls that these captures make. *)
Definition captured_events (rec : Recorder) (chunks : list (list byte * Z))
    : list Event :=
  mjoin ((λ c, chunk_events rec c.1 c.2) <$> chunks).

(** The host serves each call and the runtime completes its write, if
    it issued one, before the next call. *)
Definition served_and_written (calls : list Host.Call) (now : Z)
    : list Host.Action :=
  mjoin ((λ call, [Host.ACall call now; Host.AComplete 0 None now]) <$> calls).

End Props.

(** Concrete rooms and runs used to exercise the statements. *)
Module Examples.
Import Sandbox.

Definition mic : Track :=
  {| track_id := "a1"; track_sid := "MTa1"; track_kind := audio |}.
Definition cam : Track :=
  {| track_id := "v1"; track_sid := "MTv1"; track_kind := video |}.
Definition alice : Participant :=
  {| participant_sid := "PA1"; participant_identity := "alice";
     participant_tracks := [mic; cam] |}.
Definition bob : Participant :=
  {| participant_sid := "PA2"; participant_identity := "bob";
     participant_tracks := [] |}.

Definition demo (participants : list Participant) : Room :=
  {| room_sid := "RM1"; room_name := "demo";
     room_localParticipant_sid := "PA0"; room_state := connected;
     room_participants := participants |}.

(** Alice is in the room with a microphone and a camera; both recorders
    have started. *)
Definition both_started : State :=
  run [AMain (demo [alice]); ATask; ATask] (initial false).

(** The same, after the microphone's recorder gathered three bytes. *)
Definition with_data : State :=
  run [AGather 0 [x01; x02; x03]] both_started.



(** The microphone's track ended on its own: its recorder went inactive
    without a stop handler, and the later unsubscription only removed the
    entry.  The count is now one more than the registered recorders. *)
Definition drifted : State :=
  run [AEnded 0; ATask; ATrackUnsubscribed mic alice] both_started.


(** Both of Alice's tracks ended on their own: the two recorders are
    registered and inactive. *)
Definition both_ended : State :=
  run [AEnded 0; AEnded 1; ATask; ATask] both_started.

(** The microphone's recorder reached its timeslice in [with_data] and
    the file load was delivered: the page made its first
    [appendRecording] call. *)
Definition first_chunk : State :=
  run [ATimeslice 0; ALoad 5000] with_data.

(** The host serving every call of a page trace, in order. *)
Definition served (t : list Event) (now : Z) : list Host.Action :=
  (λ call, Host.ACall call now) <$> omap Props.page_call t.

(** A host that came up completely: server, browser and page are there
    and [main] waits for the page's [main]. *)
Definition started : list Host.Action :=
  [Host.AStart {| Host.port := 3000; Host.token := "tok";
                  Host.roomSid := "RM1" |} 42;
   Host.AMainResume; Host.AMainResume; Host.AMainResume; Host.AMainResume;
   Host.AMainResume].

(** That host gets SIGINT; while its [close] is in flight the page calls
    [parentClose] and a second SIGINT arrives; the awaited steps of the
    first call complete one by one. *)
Definition interrupted : list Host.Action :=
  started
  ++ [Host.ASignal "SIGINT";
      Host.ACall (Host.CParentClose None) 0;
      Host.ACloseResume 0;
      Host.ASignal "SIGINT";
      Host.ACloseResume 0; Host.ACloseResume 0; Host.ACloseResume 0].

End Examples.

(** * Tactics *)

(** Unfold the field updates and the logging calls, so that a state given
    by its fields stays a state given by its fields. *)
Ltac norm :=
  cbv beta iota zeta delta
    [Sandbox.set_room Sandbox.set_isClosing Sandbox.set_emptyRoomTimeout Sandbox.set_recorders Sandbox.set_videos
     Sandbox.set_subscriptionCounts Sandbox.set_recorderCount Sandbox.set_listening
     Sandbox.set_once_disconnected Sandbox.set_once_room_ended Sandbox.set_heap Sandbox.set_elements
     Sandbox.set_tasks Sandbox.set_loads Sandbox.set_timers Sandbox.set_promises Sandbox.set_trace
     Sandbox.emit Sandbox.debug Sandbox.info Sandbox.error Sandbox.parentClose Sandbox.createRecording Sandbox.appendRecording
     Sandbox.uncaught Sandbox.update_recorder Sandbox.queue_task
     Sandbox.room Sandbox.shouldClose Sandbox.isClosing Sandbox.emptyRoomTimeout Sandbox.recorders Sandbox.videos
     Sandbox.subscriptionCounts Sandbox.recorderCount Sandbox.listening Sandbox.once_disconnected
     Sandbox.once_room_ended Sandbox.h264 Sandbox.heap Sandbox.elements Sandbox.tasks Sandbox.loads Sandbox.timers Sandbox.next_timer
     Sandbox.promises Sandbox.trace]; simpl.

Ltac rewrite_hyps :=
  repeat match goal with
         | H : ?x = _ |- context [?x] => rewrite H
         end.

Ltac occ :=
  intros; unfold Props.occupancy in *;
  repeat first
    [ progress simpl
    | case_match ];
  try done; try (rewrite_hyps; simpl; done).


(* ===================================================================== *)
(** * Properties of the codec                                            *)
(* ===================================================================== *)

Section CodecFacts.
Import Codec.

Lemma toUint8_to_N (b : byte) : toUint8 (Byte.to_N b) = b.
Proof.
  unfold toUint8.
  rewrite N.mod_small by (pose proof (Byte.to_N_bounded b); lia).
  by rewrite Byte.of_to_N.
Qed.

Lemma for_chars_spec (todo : nat) : ∀ (string : jsstring) (i : nat) (buf : bytes),
  i + todo = length string → length buf = length string →
  for_chars todo string i buf
  = take i buf ++ (toUint8 <$> drop i string).
Proof.
  induction todo as [|todo IH]; intros string i buf Hlen Hbuf; simpl.
  - rewrite Nat.add_0_r in Hlen. subst i.
    rewrite drop_ge by lia. rewrite take_ge by lia. by rewrite app_nil_r.
  - rewrite IH by (rewrite ?length_insert; lia).
    destruct (lookup_lt_is_Some_2 string i) as [c Hc]; [lia|].
    unfold charCodeAt. rewrite Hc. simpl.
    rewrite (drop_S _ _ _ Hc). simpl.
    rewrite (take_S_r _ _ (toUint8 c)) by (apply list_lookup_insert_eq; lia).
    rewrite take_insert_ge by lia.
    by rewrite <- app_assoc.
Qed.

Lemma stringToArrayBuffer_map (string : jsstring) :
  stringToArrayBuffer string = toUint8 <$> string.
Proof.
  unfold stringToArrayBuffer.
  rewrite for_chars_spec by (rewrite ?length_replicate; lia).
  by rewrite take_0, drop_0.
Qed.

Lemma fromCharCode_app (u v : bytes) :
  fromCharCode (u ++ v) = fromCharCode u ++ fromCharCode v.
Proof. apply fmap_app. Qed.

Lemma stringToArrayBuffer_fromCharCode (b : bytes) :
  stringToArrayBuffer (fromCharCode b) = b.
Proof.
  rewrite stringToArrayBuffer_map. unfold fromCharCode.
  induction b as [|x b IH]; csimpl; [done|].
  by rewrite toUint8_to_N, IH.
Qed.

Section Blocks.
Variable bs : nat.
Hypothesis bs_pos : 0 < bs.

(** The loop, started at the boundary of block [k] with [n] blocks to
    go, appends exactly these [n] blocks. *)
Lemma for_blocks_spec (n : nat) :
  ∀ (fuel k : nat) (v : bytes) (acc : list N * list (list N)),
    n ≤ fuel → (k + n) * bs ≤ length v →
    for_blocks bs fuel v ((k + n) * bs) (k * bs) acc
    = Some (acc.1 ++ fromCharCode (take (n * bs) (drop (k * bs) v)),
            acc.2 ++ ((fromCharCode ∘ block bs v) <$> seq k n)).
Proof.
  induction n as [|n IH]; intros fuel k v [res log] Hfuel Hlen.
  - rewrite Nat.add_0_r. destruct fuel; simpl;
      rewrite Nat.ltb_irrefl; simpl; by rewrite !app_nil_r.
  - destruct fuel as [|fuel]; [lia|]. simpl for_blocks.
    replace (k * bs <? (k + S n) * bs) with true
      by (symmetry; apply Nat.ltb_lt; nia).
    replace ((k + S n) * bs) with ((S k + n) * bs) by lia.
    replace (k * bs + bs) with (S k * bs) by lia.
    rewrite IH by lia. simpl. f_equal. f_equal.
    + rewrite <- app_assoc, <- fromCharCode_app. f_equal. f_equal.
      unfold subarray.
      replace (bs + k * bs - k * bs) with bs by lia.
      rewrite <- (take_take_drop (drop (k * bs) v) bs (n * bs)).
      rewrite drop_drop. do 3 f_equal. lia.
    + rewrite <- app_assoc. simpl. do 3 f_equal.
      unfold block, subarray. f_equal. lia.
Qed.

Lemma blocklength_le (len : nat) : blocklength_of bs len ≤ len.
Proof. unfold blocklength_of. pose proof (Nat.Div0.mul_div_le len bs). lia. Qed.

Lemma blocklength_lt_iff (len : nat) :
  blocklength_of bs len < len ↔ len mod bs ≠ 0.
Proof.
  unfold blocklength_of. pose proof (Nat.div_mod_eq len bs). lia.
Qed.

(** What the instrumented encoder returns, for every buffer. *)
Lemma arrayBufferToString_log_spec (b : bytes) :
  arrayBufferToString_log bs b
  = Some (fromCharCode b,
          ((fromCharCode ∘ block bs b) <$> seq 0 (length b / bs))
          ++ (if decide (length b mod bs = 0) then []
              else [fromCharCode (remainder bs b)])).
Proof.
  unfold arrayBufferToString_log.
  pose proof (blocklength_le (length b)) as Hle.
  pose proof (blocklength_lt_iff (length b)) as Hlt.
  pose proof (for_blocks_spec (length b / bs) (S (length b)) 0 b ([], [])) as H.
  rewrite Nat.add_0_l, Nat.mul_0_l in H. cbn [fst snd app] in H.
  unfold blocklength_of in *.
  rewrite H; clear H; [|pose proof (Nat.Div0.div_le_upper_bound (length b) bs (length b)); nia | lia].
  rewrite drop_0.
  destruct (Nat.ltb_spec (length b / bs * bs) (length b)) as [Hc|Hc].
  - rewrite decide_False by (apply Hlt; lia).
    assert (subarray b (length b / bs * bs) (length b) = remainder bs b) as ->.
    { unfold subarray, remainder. apply take_ge. rewrite length_drop. lia. }
    f_equal. f_equal. rewrite <- fromCharCode_app. f_equal.
    apply take_drop.
  - rewrite decide_True by lia.
    rewrite app_nil_r. f_equal. f_equal. f_equal.
    apply take_ge. lia.
Qed.

Lemma length_block (b : bytes) (k : nat) :
  k < length b / bs → length (block bs b k) = bs.
Proof.
  intros Hk. unfold block. rewrite length_take, length_drop.
  pose proof (Nat.Div0.mul_div_le (length b) bs). nia.
Qed.

Lemma concat_blocks_upto (b : bytes) (n : nat) :
  n * bs ≤ length b →
  concat (block bs b <$> seq 0 n) = take (n * bs) b.
Proof.
  induction n as [|n IH]; intros Hn; [done|].
  rewrite seq_S, fmap_app, concat_app, IH by lia. simpl.
  rewrite app_nil_r. unfold block.
  rewrite take_take_drop. f_equal. lia.
Qed.

Lemma concat_blocks_remainder (b : bytes) :
  concat (blocks bs b) ++ remainder bs b = b.
Proof.
  unfold blocks, remainder.
  rewrite concat_blocks_upto by (pose proof (Nat.Div0.mul_div_le (length b) bs); lia).
  apply take_drop.
Qed.

Lemma remainder_nil_iff (b : bytes) :
  remainder bs b = [] ↔ length b mod bs = 0.
Proof.
  unfold remainder. pose proof (Nat.div_mod_eq (length b) bs).
  pose proof (length_drop b (length b / bs * bs)).
  split; intros H1.
  - rewrite H1 in *. simpl in *. lia.
  - apply nil_length_inv. lia.
Qed.

End Blocks.

Lemma blocksize_pos : 0 < blocksize.
Proof. apply Nat.ltb_lt. by vm_compute. Qed.

Lemma arrayBufferToString_eq (b : bytes) :
  arrayBufferToString b = Some (fromCharCode b).
Proof.
  unfold arrayBufferToString.
  by rewrite (arrayBufferToString_log_spec _ blocksize_pos).
Qed.

(** C2.  Decoding the transport encoding of any byte sequence gives the
    sequence back: the encoder returns a string for every buffer, of
    any length, and [stringToArrayBuffer] of that string is the buffer. *)
Theorem codec_roundtrip (b : list byte) :
  stringToArrayBuffer <$> arrayBufferToString b = Some b.
Proof.
  rewrite arrayBufferToString_eq. simpl.
  by rewrite stringToArrayBuffer_fromCharCode.
Qed.

(** C8.  The encoder cuts the buffer by floor division of its length by
    8192: the pieces it appends are the [length / 8192] full blocks of
    8192 bytes, each the encoding of that block on its own, followed by
    the remaining [length mod 8192] bytes as one more piece exactly when
    the length is not a multiple of 8192.  No piece is empty, the pieces
    are consecutive slices that make up the buffer, and the result is
    their concatenation. *)
Theorem codec_chunking (b : list byte) :
  ∃ result log,
    arrayBufferToString_log blocksize b = Some (result, log)
    ∧ arrayBufferToString b = Some result
    ∧ result = concat log
    ∧ log = (fromCharCode <$> blocks 8192 b)
            ++ (if decide (length b mod 8192 = 0) then []
                else [fromCharCode (remainder 8192 b)])
    ∧ length (blocks 8192 b) = length b / 8192
    ∧ Forall (λ blk, length blk = 8192
                     ∧ arrayBufferToString blk = Some (fromCharCode blk))
             (blocks 8192 b)
    ∧ length (remainder 8192 b) = length b mod 8192
    ∧ Forall (λ piece, piece ≠ []) log
    ∧ concat (blocks 8192 b) ++ remainder 8192 b = b.
Proof.
  change 8192 with blocksize.
  pose proof blocksize_pos as Hpos.
  pose proof (arrayBufferToString_log_spec _ Hpos b) as Hlog.
  eexists _, _. split; [exact Hlog|].
  assert (Hblk : Forall (λ blk : list byte, length blk = blocksize
                     ∧ arrayBufferToString blk = Some (fromCharCode blk))
             (blocks blocksize b)).
  { unfold blocks. apply Forall_fmap, Forall_forall. intros k Hk.
    apply list_elem_of_In, in_seq in Hk. simpl. split.
    - apply length_block; [done|lia].
    - apply arrayBufferToString_eq. }
  assert (Hrem : length (remainder blocksize b) = length b mod blocksize).
  { unfold remainder. rewrite length_drop.
    pose proof (Nat.div_mod_eq (length b) blocksize). lia. }
  split_and!.
  - apply arrayBufferToString_eq.
  - rewrite <- (concat_blocks_remainder _ Hpos b) at 1.
    rewrite fromCharCode_app, concat_app. f_equal.
    + unfold blocks. rewrite list_fmap_compose.
      unfold fromCharCode. generalize (block blocksize b <$> seq 0 (length b / blocksize)).
      intros l. induction l as [|x l IH]; csimpl; [done|].
      by rewrite fmap_app, IH.
    + destruct (decide (length b mod blocksize = 0)) as [H0|H0]; simpl.
      * apply (remainder_nil_iff _ Hpos) in H0. by rewrite H0.
      * by rewrite app_nil_r.
  - unfold blocks. by rewrite list_fmap_compose.
  - unfold blocks. by rewrite length_fmap, length_seq.
  - exact Hblk.
  - exact Hrem.
  - apply Forall_app. split.
    + apply Forall_fmap, Forall_forall. intros k Hk.
      apply list_elem_of_In, in_seq in Hk. simpl.
      intros Hnil. apply (f_equal length) in Hnil.
      unfold fromCharCode in Hnil. rewrite length_fmap in Hnil.
      rewrite length_block in Hnil by (done || lia). cbn [length] in Hnil. lia.
    + destruct (decide (length b mod blocksize = 0)) as [H0|H0]; [constructor|].
      repeat constructor. intros Hnil. apply (f_equal length) in Hnil.
      unfold fromCharCode in Hnil. rewrite length_fmap, Hrem in Hnil.
      cbn [length] in Hnil. lia.
  - apply (concat_blocks_remainder _ Hpos).
Qed.

(** ** Lengths and ranges *)

Lemma to_N_toUint8 (c : N) : Byte.to_N (toUint8 c) = (c mod 256)%N.
Proof.
  unfold toUint8. destruct (Byte.of_N (c mod 256)) as [b|] eqn:Hb.
  - by apply Byte.to_of_N.
  - apply Byte.of_N_None_iff in Hb.
    pose proof (N.mod_upper_bound c 256). lia.
Qed.

(** X1.  The encoder never fails and gives one code unit per byte, each
    the value of its byte and so below 256: whatever the length of the
    buffer, the string has that length. *)
Theorem encoded_code_units (b : list byte) :
  ∃ s, arrayBufferToString b = Some s
       ∧ length s = length b
       ∧ (∀ i, s !! i = Byte.to_N <$> b !! i)
       ∧ Forall (λ c, (c < 256)%N) s.
Proof.
  exists (fromCharCode b). split_and!.
  - apply arrayBufferToString_eq.
  - unfold fromCharCode. by rewrite length_fmap.
  - intros i. unfold fromCharCode. by rewrite list_lookup_fmap.
  - unfold fromCharCode. apply Forall_fmap, Forall_forall. intros x _. simpl.
    pose proof (Byte.to_N_bounded x). lia.
Qed.

(** X2.  The decoder keeps the length of the string and stores each code
    unit modulo 256.  So encoding what it decoded gives the string back
    exactly when every code unit of the string is below 256; a code unit
    of 256 or more comes back as its low byte. *)
Theorem decoded_low_bytes (s : list N) :
  length (stringToArrayBuffer s) = length s
  ∧ (∀ i, Byte.to_N <$> stringToArrayBuffer s !! i
          = (λ c, c mod 256)%N <$> s !! i)
  ∧ arrayBufferToString (stringToArrayBuffer s)
    = Some ((λ c, c mod 256)%N <$> s)
  ∧ (arrayBufferToString (stringToArrayBuffer s) = Some s
     ↔ Forall (λ c, (c < 256)%N) s).
Proof.
  rewrite stringToArrayBuffer_map, arrayBufferToString_eq.
  assert (Hmap : fromCharCode (toUint8 <$> s) = (λ c, c mod 256)%N <$> s).
  { unfold fromCharCode. rewrite <- list_fmap_compose.
    apply list_fmap_ext. intros i c _. apply to_N_toUint8. }
  split_and!.
  - by rewrite length_fmap.
  - intros i. rewrite list_lookup_fmap.
    destruct (s !! i) as [c|]; simpl; [|done]. by rewrite to_N_toUint8.
  - by rewrite Hmap.
  - rewrite Hmap. clear Hmap. split.
    + intros [= Heq]. induction s as [|c s IH]; [constructor|].
      rewrite fmap_cons in Heq. injection Heq as Hc Hs.
      constructor; [|apply IH; exact Hs].
      pose proof (N.mod_upper_bound c 256). lia.
    + intros Hall. f_equal. induction Hall as [|c s Hc Hall IH]; [done|].
      rewrite fmap_cons, IH. f_equal. by apply N.mod_small.
Qed.

End CodecFacts.


(* ===================================================================== *)
(** * Properties of paths                                                *)
(* ===================================================================== *)

Section PathFacts.
Import Host Props.

#[local] Arguments String.append : simpl never.


Lemma string_length_app (s1 s2 : string) :
  String.length (s1 +:+ s2) = String.length s1 + String.length s2.
Proof.
  induction s1 as [|a s1 IH]; [done|].
  change (String a s1 +:+ s2) with (String a (s1 +:+ s2)).
  cbn [String.length]. by rewrite IH.
Qed.

Lemma string_app_nil_r (s : string) : s +:+ "" = s.
Proof.
  induction s as [|c s IH]; [done|].
  change (String c (s +:+ "") = String c s). by rewrite IH.
Qed.

Lemma string_app_inj_l (t s1 s2 : string) : t +:+ s1 = t +:+ s2 → s1 = s2.
Proof.
  induction t as [|c t IH]; [done|].
  change (String c (t +:+ s1) = String c (t +:+ s2) → s1 = s2).
  intros [= H]. by apply IH.
Qed.

Lemma segments_nonempty (path : string) : segments path ≠ [].
Proof.
  destruct path as [|c rest]; simpl; [done|].
  case_decide; [done|]. by destruct (segments rest).
Qed.

Lemma segments_cons (c : Ascii.ascii) (rest : string) :
  c ≠ slash →
  ∃ x xs, segments rest = x :: xs ∧ segments (String c rest) = String c x :: xs.
Proof.
  intros Hc. simpl. rewrite decide_False by done.
  destruct (segments rest) as [|x xs] eqn:Hs.
  - by apply segments_nonempty in Hs.
  - by exists x, xs.
Qed.



Lemma segments_Forall (path : string) : Forall no_slash (segments path).
Proof.
  induction path as [|c rest IH]; simpl; [by repeat constructor|].
  case_decide; [by constructor|].
  destruct (segments rest) as [|x xs]; [by repeat constructor|].
  inversion IH; subst. by constructor.
Qed.
















(** ** The names of the page's files *)






End PathFacts.


(* ===================================================================== *)
(** * Properties of the in-page session                                  *)
(* ===================================================================== *)

Section SandboxFacts.
Import Sandbox Props.

#[local] Arguments String.append : simpl never.
#[local] Arguments pretty : simpl never.

#[local] Arguments run : simpl never.

Lemma run_cons (a : Action) (l : list Action) (s : State) :
  run (a :: l) s = run l (step a s).
Proof. done. Qed.

Lemma run_nil (s : State) : run [] s = s.
Proof. done. Qed.

Lemma run_app (l1 l2 : list Action) (s : State) :
  run (l1 ++ l2) s = run l2 (run l1 s).
Proof. unfold run. apply foldl_app. Qed.

Lemma alter_at {A} (f : A → A) (i : nat) (l : list A) (x : A) :
  l !! i = Some x → alter f i l = <[i := f x]> l.
Proof.
  intros H. rewrite list_insert_alter. apply list_alter_ext; [|done].
  intros y Hy. congruence.
Qed.

(** ** The [recorders] map *)

Lemma Map_get_delete_eq (k : string) (m : list (string * nat)) :
  Map_get k (Map_delete k m) = None.
Proof.
  induction m as [|[k' v] m IH]; simpl; [done|].
  destruct (decide (k' = k)) as [->|Hne]; [done|].
  simpl. by rewrite decide_False.
Qed.

Lemma Map_get_delete_ne (k k' : string) (m : list (string * nat)) :
  k ≠ k' → Map_get k' (Map_delete k m) = Map_get k' m.
Proof.
  intros Hne. induction m as [|[k0 v] m IH]; simpl; [done|].
  destruct (decide (k0 = k)) as [->|Hk].
  - by rewrite decide_False.
  - simpl. by rewrite IH.
Qed.


Lemma Map_get_set_ne (k k' : string) (v : nat) (m : list (string * nat)) :
  k ≠ k' → Map_get k' (Map_set k v m) = Map_get k' m.
Proof.
  intros Hne. induction m as [|[k0 v0] m IH]; simpl.
  - by rewrite decide_False.
  - destruct (decide (k0 = k)) as [->|Hk]; simpl.
    + by rewrite !decide_False.
    + by rewrite IH.
Qed.

(** ** [trackUnsubscribed], case by case *)

Lemma trackUnsubscribed_miss (trackid : string) (cb : StopCallback) (s : State) :
  ¬ registered_recording trackid s →
  trackUnsubscribed trackid cb s
  = error (not_found_message trackid)
      (set_recorders (Map_delete trackid (recorders s))
         (info ("Unsubscribe from " +:+ trackid) s)).
Proof.
  intros Hmiss. unfold trackUnsubscribed. simpl.
  destruct (Map_get trackid (recorders s)) as [r|] eqn:Hget; [|done].
  destruct (heap s !! r) as [rec|] eqn:Hrec; [|done].
  destruct (state rec) eqn:Hst; try done.
  exfalso. apply Hmiss. by exists r, rec.
Qed.

Lemma trackUnsubscribed_hit (trackid : string) (cb : StopCallback) (s : State)
    (r : nat) (rec : Recorder) :
  Map_get trackid (recorders s) = Some r →
  heap s !! r = Some rec →
  state rec = recording →
  trackUnsubscribed trackid cb s
  = set_tasks (tasks s ++ [TPause r])
      (set_heap (<[r := mark_stopping cb rec]> (heap s))
         (set_trace (trace s ++ [EInfo ("Unsubscribe from " +:+ trackid);
                                 EInfo ("Pausing " +:+ filename rec +:+
                                        " before stopping it.")])
            (set_recorders (Map_delete trackid (recorders s)) s))).
Proof.
  intros Hget Hrec Hst. destruct s; simpl in *.
  unfold trackUnsubscribed. norm. rewrite Hget, Hrec, Hst. norm.
  by rewrite list_alter_alter_eq, <- app_assoc, (alter_at _ _ _ _ Hrec).
Qed.

(** ** The recorder's events, one task at a time *)

Lemma disconnects_app (t1 t2 : list Event) :
  disconnects (t1 ++ t2) = disconnects t1 + disconnects t2.
Proof. unfold disconnects. by rewrite omap_app, length_app. Qed.

Lemma handle_data_frame (h : DataHandler) (rec : Recorder) (blob : list byte)
    (s : State) :
  let s' := handle_data h rec blob s in
  heap s' = heap s ∧ tasks s' = tasks s ∧ recorderCount s' = recorderCount s
  ∧ promises s' = promises s ∧ recorders s' = recorders s ∧ room s' = room s
  ∧ subscriptionCounts s' = subscriptionCounts s
  ∧ disconnects (trace s') = disconnects (trace s).
Proof.
  revert s. induction h as [|h IH]; intros s; simpl.
  - destruct (decide (length blob = 0)); simpl; split_and!; try done.
    rewrite disconnects_app. unfold disconnects. simpl. lia.
  - destruct (decide (length blob = 0)); [done|].
    destruct (IH (info ("Writing last " +:+ pretty (length blob) +:+
                        " bytes to " +:+ filename rec) s))
      as (-> & -> & -> & -> & -> & -> & -> & ->). simpl.
    split_and!; try done. rewrite disconnects_app. unfold disconnects. simpl. lia.
Qed.

Lemma step_start (s : State) (r : nat) (rec : Recorder) (rest : list Task) :
  tasks s = TStart r :: rest →
  heap s !! r = Some rec →
  step ATask s
  = set_trace (trace s ++ [EInfo ("Recorder " +:+ filename rec +:+
                                  " started. Active recorder count is now " +:+
                                  pretty (recorderCount s + 1)%Z +:+ ".")])
      (set_recorderCount (recorderCount s + 1) (set_tasks rest s)).
Proof.
  intros Htasks Hrec. destruct s; simpl in *. subst.
  norm. rewrite Hrec. unfold on_start. by norm.
Qed.

Lemma step_pause (s : State) (r : nat) (rec : Recorder) (rest : list Task) :
  tasks s = TPause r :: rest →
  heap s !! r = Some rec →
  onpause rec = true →
  state rec = paused →
  step ATask s
  = set_tasks (rest ++ [TRequestData r; TStop r])
      (set_heap (<[r := finish_pause rec]> (heap s))
         (set_trace (trace s ++ [EInfo ("Paused " +:+ filename rec +:+
                                        ", requesting final data.");
                                 EInfo ("Stopping " +:+ filename rec +:+
                                        " completely.")]) s)).
Proof.
  intros Htasks Hrec Hp Hst. destruct s; simpl in *. subst.
  norm. rewrite list_lookup_alter_eq, Hrec. simpl. rewrite Hp.
  unfold on_pause. norm. rewrite list_lookup_alter_eq, Hrec. simpl.
  rewrite Hst. norm.
  by rewrite !list_alter_alter_eq, <- !app_assoc, (alter_at _ _ _ _ Hrec).
Qed.

Lemma fire_dataavailable_eq (s : State) (r : nat) (rec : Recorder) :
  heap s !! r = Some rec →
  fire_dataavailable r s
  = handle_data (ondataavailable rec) rec (gathered rec)
      (set_heap (<[r := set_gathered [] rec]> (heap s)) s).
Proof.
  intros Hrec. unfold fire_dataavailable, update_recorder.
  by rewrite Hrec, (alter_at _ _ _ _ Hrec).
Qed.

Lemma step_requestData (s : State) (r : nat) (rec : Recorder) (rest : list Task) :
  tasks s = TRequestData r :: rest →
  heap s !! r = Some rec →
  step ATask s
  = handle_data (ondataavailable rec) rec (gathered rec)
      (set_heap (<[r := set_gathered [] rec]> (heap s)) (set_tasks rest s)).
Proof.
  intros Htasks Hrec. unfold step. rewrite Htasks. unfold run_task.
  by rewrite (fire_dataavailable_eq _ _ rec).
Qed.

Lemma step_stop (s : State) (r : nat) (rec : Recorder) (cb : StopCallback)
    (rest : list Task) :
  tasks s = TStop r :: rest →
  heap s !! r = Some rec →
  onstop rec = Some cb →
  step ATask s
  = on_stop (emptied rec) cb
      (handle_data (ondataavailable rec) (set_gathering false rec) (gathered rec)
         (set_heap (<[r := emptied rec]> (heap s)) (set_tasks rest s))).
Proof.
  intros Htasks Hrec Hcb. unfold step. rewrite Htasks. unfold run_task.
  assert (Hr : r < length (heap s)) by (by eapply lookup_lt_Some).
  rewrite (fire_dataavailable_eq _ _ (set_gathering false rec))
    by (simpl; by rewrite list_lookup_alter_eq, Hrec).
  match goal with |- context [handle_data ?h ?rc ?b ?st] =>
    destruct (handle_data_frame h rc b st) as (-> & _) end.
  simpl. rewrite (alter_at _ _ _ _ Hrec), list_insert_insert_eq.
  rewrite list_lookup_insert_eq by done. simpl. by rewrite Hcb.
Qed.

Lemma handle_data_last (rec rec' : Recorder) (blob : list byte) (s : State) :
  filename rec' = filename rec → filepath rec' = filepath rec →
  handle_data (HLast HRecord) rec' blob s
  = if decide (length blob = 0) then s
    else set_loads (loads s ++ [{| load_filepath := filepath rec;
                                   load_filename := filename rec;
                                   load_data := blob |}])
           (set_trace (trace s ++ [EInfo ("Writing last " +:+
                                          pretty (length blob) +:+
                                          " bytes to " +:+ filename rec)]) s).
Proof.
  intros Hn Hp. simpl. rewrite Hn, Hp.
  destruct (decide (length blob = 0)); [done|]. by destruct s.
Qed.

(** ** The drain of one recorder *)


Lemma on_load_trace (l : Load) (now : Z) (s : State) :
  trace (on_load l now s)
  = trace s ++ [EInfo ("Writing " +:+ pretty (length (load_data l)) +:+
                       " bytes to " +:+ load_filename l);
                EAppendRecording (load_filepath l)
                                 (Codec.fromCharCode (load_data l)) now].
Proof.
  unfold on_load. rewrite arrayBufferToString_eq. norm.
  by rewrite <- app_assoc.
Qed.




(** ** Promises nobody will resolve *)

Lemma forgotten_same p s s' :
  continuations s' = continuations s → forgotten p s → forgotten p s'.
Proof. unfold forgotten, continuations. by intros [= -> ->]. Qed.

Lemma fmap_onstop_alter (f : Recorder → Recorder) (r : nat) (h : list Recorder) :
  (∀ x, onstop (f x) = onstop x) →
  onstop <$> alter f r h = onstop <$> h.
Proof.
  intros Hf. revert r. induction h as [|x h IH]; intros r; [done|].
  destruct r as [|r]; simpl.
  - by rewrite Hf.
  - f_equal. apply IH.
Qed.

Lemma continuations_update r f s :
  (∀ x, onstop (f x) = onstop x) →
  continuations (update_recorder r f s) = continuations s.
Proof.
  intros Hf. unfold continuations. simpl. by rewrite fmap_onstop_alter.
Qed.

(** Bring the state on the left down to the one it was made from, as
    long as only other fields were set. *)
Ltac same_peel :=
  lazymatch goal with
  | |- continuations ?s = continuations ?s => reflexivity
  | |- continuations (match ?x with _ => _ end) = _ => destruct x eqn:?
  | |- continuations (update_recorder ?r ?f ?x) = _ =>
      transitivity (continuations x);
      [apply continuations_update; by intros []|]
  | |- continuations (_ ?x) = _ =>
      transitivity (continuations x); [reflexivity|]
  end.

Ltac same :=
  unfold uncaught, createRecording, appendRecording, parentClose, queue_task,
    info, error, debug, emit;
  repeat same_peel.

Lemma forgotten_trackUnsubscribed p t cb s :
  cb ≠ CbShutdown p → forgotten p s → forgotten p (trackUnsubscribed t cb s).
Proof.
  intros Hcb [Hp Hno]. unfold trackUnsubscribed. cbv zeta.
  set (s1 := set_recorders _ _).
  assert (H1 : forgotten p s1) by done.
  destruct (Map_get t _) as [r|]; [|by apply (forgotten_same p s1); [same|]].
  destruct (heap s1 !! r) as [rec|] eqn:Hrec;
    [|by apply (forgotten_same p s1); [same|]].
  destruct (state rec); try (by apply (forgotten_same p s1); [same|]).
  split; [done|]. simpl.
  rewrite fmap_onstop_alter by (by intros []).
  rewrite (alter_at _ _ _ _ Hrec), list_fmap_insert. simpl.
  intros Hin. apply list_elem_of_lookup_1 in Hin as [i Hi].
  destruct (decide (i = r)) as [->|Hne].
  - rewrite list_lookup_insert_eq in Hi; [congruence|].
    rewrite length_fmap. by eapply lookup_lt_Some.
  - rewrite list_lookup_insert_ne in Hi by done.
    apply Hno. by eapply list_elem_of_lookup_2.
Qed.

Lemma forgotten_startRecorder p track who s :
  forgotten p s → forgotten p (startRecorder track who s).
Proof.
  intros [Hp Hno]. unfold startRecorder. cbv zeta.
  destruct (room _) as [rm|]; [|by apply (forgotten_same p s); [same|]].
  split; [done|]. simpl.
  rewrite fmap_onstop_alter by (by intros []). rewrite fmap_app. simpl.
  intros Hin. apply elem_of_app in Hin as [Hin|Hin]; [done|].
  by apply list_elem_of_singleton in Hin.
Qed.

Lemma forgotten_resolve p q s :
  q ≠ p → forgotten p s → forgotten p (resolve q s).
Proof.
  intros Hq [Hp Hno]. unfold resolve.
  destruct (promises s !! q) as [[|]|]; [done| |done].
  apply (forgotten_same p (set_promises (<[q:=true]> (promises s)) s)).
  - unfold then_disconnect. same.
  - split; [|done]. simpl. by rewrite list_lookup_insert_ne.
Qed.

Lemma forgotten_run_callback p cb count s :
  cb ≠ CbShutdown p → forgotten p s → forgotten p (run_callback cb count s).
Proof.
  intros Hcb Hf. destruct cb as [|q|track who]; simpl; [done| |].
  - unfold callback. case_match; [|done].
    apply forgotten_resolve; [congruence|done].
  - by apply forgotten_startRecorder.
Qed.

Lemma continuations_handle_data h rec blob s :
  continuations (handle_data h rec blob s) = continuations s.
Proof.
  revert s. induction h as [|orig IH]; intros s; simpl.
  - case_match; same.
  - case_match; [done|]. by rewrite IH.
Qed.

Lemma continuations_fire_dataavailable r s :
  continuations (fire_dataavailable r s) = continuations s.
Proof.
  unfold fire_dataavailable. destruct (heap s !! r); [|done]. cbv zeta.
  rewrite continuations_handle_data. same.
Qed.

Lemma forgotten_run_task p t s : forgotten p s → forgotten p (run_task t s).
Proof.
  intros Hf. destruct t as [r|r|r|r]; simpl.
  - apply (forgotten_same p s); [|done]. unfold on_start. same.
  - apply (forgotten_same p s); [|done]. unfold on_pause. same.
  - apply (forgotten_same p s); [|done]. apply continuations_fire_dataavailable.
  - set (s1 := fire_dataavailable r _).
    assert (H1 : forgotten p s1).
    { apply (forgotten_same p s); [|done]. unfold s1.
      rewrite continuations_fire_dataavailable. same. }
    destruct (heap s1 !! r) as [rec|] eqn:Hrec; [|done].
    destruct (onstop rec) as [cb|] eqn:Hcb; [|done].
    unfold on_stop. cbv zeta. apply forgotten_run_callback.
    + intros ->. destruct H1 as [_ Hno]. apply Hno.
      apply list_elem_of_fmap. exists rec. split; [done|].
      by eapply list_elem_of_lookup_2.
    + apply (forgotten_same p s1); [same|done].
Qed.

Lemma forgotten_record p track participant s :
  forgotten p s → forgotten p (record track participant s).
Proof.
  intros Hf. unfold record. cbv zeta. apply forgotten_startRecorder.
  apply (forgotten_same p s); [same|done].
Qed.

Lemma forgotten_trackSubscribed p track participant s :
  forgotten p s → forgotten p (trackSubscribed track participant s).
Proof.
  intros Hf. unfold trackSubscribed.
  case_match; try done; by apply forgotten_record.
Qed.

Lemma forgotten_foldl {A} p (f : State → A → State) (l : list A) :
  (∀ s x, forgotten p s → forgotten p (f s x)) →
  ∀ s, forgotten p s → forgotten p (foldl f s l).
Proof.
  intros Hf. induction l as [|x l IH]; intros s Hs; simpl; [done|].
  by apply IH, Hf.
Qed.

Lemma forgotten_shutdown p s : forgotten p s → forgotten p (shutdown s).
Proof.
  intros [Hp Hno]. unfold shutdown. cbv zeta.
  assert (Hlt : p < length (promises s)) by (by eapply lookup_lt_Some).
  set (s1 := set_promises (promises s ++ [false]) s).
  assert (H1 : forgotten p s1).
  { split; [|done]. simpl. by rewrite lookup_app_l. }
  case_match.
  - apply forgotten_foldl.
    + intros s2 [t r] H2. apply forgotten_trackUnsubscribed; [|done].
      intros [= Heq]. lia.
    + apply (forgotten_same p s1); [|done]. case_match; same.
  - apply forgotten_resolve; [lia|].
    apply (forgotten_same p s1); [same|done].
Qed.

Lemma forgotten_main p connectedRoom s :
  forgotten p s → forgotten p (main connectedRoom s).
Proof.
  intros Hf. unfold main. cbv zeta.
  set (s1 := info _ (set_room _ (debug _ s))).
  assert (H1 : forgotten p s1)
    by (apply (forgotten_same p s); [unfold s1; same|done]).
  clearbody s1. destruct (shouldClose s1).
  - apply (forgotten_same p s1); [|done]. unfold close. same.
  - lazymatch goal with
    | |- forgotten _ (set_listening _ ?x) =>
        apply (forgotten_same p x); [reflexivity|]
    end.
    destruct (decide (length (room_participants connectedRoom) = 0)).
    + apply (forgotten_same p s1); [|done]. unfold setTimeout. same.
    + apply forgotten_foldl.
      * intros s2 participant. apply forgotten_foldl. intros s3 track.
        apply forgotten_trackSubscribed.
      * apply (forgotten_same p s1); [same|done].
Qed.

Lemma forgotten_step p a s : forgotten p s → forgotten p (step a s).
Proof.
  intros Hf. destruct a; simpl.
  - case_match; [done|]. by apply forgotten_main.
  - by apply forgotten_shutdown.
  - apply (forgotten_same p s); [|done]. unfold close. same.
  - case_match; [|done]. apply (forgotten_same p s); [|done].
    unfold on_participantConnected, with_participants, clearTimeout. same.
  - case_match; [|done]. apply (forgotten_same p s); [|done].
    unfold on_participantDisconnected, with_participants, setTimeout. same.
  - case_match; [|done]. unfold on_trackSubscribed.
    case_match; try done; apply forgotten_trackSubscribed;
      (apply (forgotten_same p s); [same|done]).
  - case_match; [|done]. unfold on_trackUnsubscribed.
    case_match; try done; (apply forgotten_trackUnsubscribed; [done|]);
      (apply (forgotten_same p s); [same|done]).
  - case_match; [|done]. apply (forgotten_same p s); [|done].
    unfold on_disconnected. same.
  - case_match; [|done]. apply (forgotten_same p s); [|done].
    unfold on_room_ended. same.
  - repeat case_match; try done. unfold on_resize.
    apply forgotten_trackUnsubscribed; [done|].
    apply (forgotten_same p s); [same|done].
  - case_match; [|done]. apply (forgotten_same p s); [|done].
    unfold clearTimeout. same.
  - destruct (tasks s) as [|t rest]; [done|]. apply forgotten_run_task.
    apply (forgotten_same p s); [same|done].
  - destruct (loads s) as [|l rest]; [done|].
    apply (forgotten_same p s); [|done]. unfold on_load. same.
  - repeat case_match; try done. apply (forgotten_same p s); [same|done].
  - repeat case_match; try done.
    apply (forgotten_same p s); [|done]. apply continuations_fire_dataavailable.
  - repeat case_match; try done; (apply (forgotten_same p s); [same|done]).
Qed.

Lemma forgotten_run p actions s : forgotten p s → forgotten p (run actions s).
Proof.
  revert s. induction actions as [|a actions IH]; intros s Hf; [done|].
  rewrite run_cons. by apply IH, forgotten_step.
Qed.

(** ** A track without a recording recorder *)

Lemma not_recording_after_miss (trackid t : string) (s : State) :
  (∀ t, ¬ registered_recording t s) →
  ¬ registered_recording t
      (error (not_found_message trackid)
         (set_recorders (Map_delete trackid (recorders s))
            (info ("Unsubscribe from " +:+ trackid) s))).
Proof.
  intros Hall (r & rec & Hget & Hrec & Hst). simpl in *.
  destruct (decide (trackid = t)) as [->|Hne].
  - by rewrite Map_get_delete_eq in Hget.
  - rewrite Map_get_delete_ne in Hget by done.
    apply (Hall t). by exists r, rec.
Qed.

Lemma dispatch_none_recording (cb : StopCallback) (l : list (string * nat)) :
  ∀ s, (∀ t, ¬ registered_recording t s) →
    let s' := foldl (λ s entry, trackUnsubscribed entry.1 cb s) s l in
    heap s' = heap s ∧ tasks s' = tasks s ∧ promises s' = promises s
    ∧ recorderCount s' = recorderCount s ∧ room s' = room s
    ∧ disconnects (trace s') = disconnects (trace s).
Proof.
  induction l as [|[t r] l IH]; intros s Hall; simpl; [done|].
  rewrite (trackUnsubscribed_miss _ _ _ (Hall t)).
  destruct (IH _ (λ t', not_recording_after_miss t t' s Hall))
    as (-> & -> & -> & -> & -> & ->).
  simpl. split_and!; try done.
  unfold disconnects. rewrite <- app_assoc, omap_app. simpl.
  by rewrite app_nil_r.
Qed.

Lemma Map_get_Some_elem (t : string) (r : nat) (m : list (string * nat)) :
  Map_get t m = Some r → (t, r) ∈ m.
Proof.
  induction m as [|[t' r'] m IH]; simpl; [done|].
  destruct (decide (t' = t)) as [->|Hne].
  - intros [= ->]. apply list_elem_of_here.
  - intros H. apply list_elem_of_further. by apply IH.
Qed.

Lemma none_recording_check_sound (s : State) :
  none_recording_check s = true → ∀ t, ¬ registered_recording t s.
Proof.
  unfold none_recording_check. rewrite forallb_forall.
  intros Hall t (r & rec & Hget & Hrec & Hst).
  apply Map_get_Some_elem, list_elem_of_In in Hget.
  specialize (Hall _ Hget). simpl in Hall. rewrite Hrec in Hall.
  by rewrite bool_decide_eq_true_2 in Hall.
Qed.

(** C10.  When the track has no entry in [recorders], or its entry is a
    recorder that is not in the [recording] state, [trackUnsubscribed]
    removes the entry and logs an error, and that is all: the count, the
    recorder objects (so no handler holds the continuation), the pending
    tasks and the promises are as before.  Consequently a [shutdown()]
    whose registered recorders are all in that case leaves its promise
    pending with nothing queued that could resolve it, and does not
    disconnect; and whatever happens afterwards, that promise stays
    pending. *)
Theorem trackUnsubscribed_not_recording (s : State) (trackid : string)
    (cb : StopCallback) :
  ¬ registered_recording trackid s →
  let s' := trackUnsubscribed trackid cb s in
  (Map_get trackid (recorders s') = None
   ∧ trace s' = trace s ++ [EInfo ("Unsubscribe from " +:+ trackid);
                            EError (not_found_message trackid)]
   ∧ recorderCount s' = recorderCount s
   ∧ heap s' = heap s ∧ tasks s' = tasks s ∧ loads s' = loads s
   ∧ promises s' = promises s ∧ room s' = room s)
  ∧ ((∀ t, ¬ registered_recording t s) → 0 < length (recorders s) →
     let s'' := shutdown s in
     let p := length (promises s) in
     promises s'' = promises s ++ [false]
     ∧ heap s'' = heap s ∧ tasks s'' = tasks s
     ∧ disconnects (trace s'') = disconnects (trace s)
     ∧ (Some (CbShutdown p) ∉ (onstop <$> heap s) →
        ∀ actions, promises (run actions s'') !! p = Some false)).
Proof.
  intros Hmiss s'. split.
  - subst s'. rewrite (trackUnsubscribed_miss _ _ _ Hmiss). norm.
    rewrite Map_get_delete_eq, <- app_assoc. done.
  - intros Hall Hsize s'' p.
    assert (Hshut : promises s'' = promises s ++ [false]
                    ∧ heap s'' = heap s ∧ tasks s'' = tasks s
                    ∧ disconnects (trace s'') = disconnects (trace s)).
    { subst s''. unfold shutdown. rewrite decide_True by done.
      match goal with |- context [foldl ?f ?s0 ?l] =>
        destruct (dispatch_none_recording
                    (CbShutdown (length (promises s))) l s0)
          as (-> & -> & -> & _ & _ & ->)
      end.
      + intros t (r & rec & Hget & Hrec & Hst). apply (Hall t).
        exists r, rec. split_and!; try done.
        * by destruct (decide (_ ≠ _)).
        * by destruct (decide (_ ≠ _)).
      + destruct (decide (_ ≠ _)); simpl; split_and!; try done;
          unfold disconnects; rewrite !omap_app; simpl;
          by rewrite ?app_nil_r. }
    destruct Hshut as (Hprom & Hheap & Htasks & Hdisc).
    split_and!; try done.
    intros Hno actions.
    apply (forgotten_run p actions s''). split.
    + rewrite Hprom. unfold p. by rewrite lookup_app_r, Nat.sub_diag by lia.
    + by rewrite Hheap.
Qed.

(** ** The drain started by [shutdown] *)

Lemma on_stop_shutdown (rec : Recorder) (p : nat) (s : State) :
  on_stop rec (CbShutdown p) s
  = let s2 := set_trace (trace s ++ [EInfo ("Stopped " +:+ filename rec +:+
                                       ". Active recorder count is now " +:+
                                       pretty (recorderCount s - 1)%Z +:+ ".")])
                (set_recorderCount (recorderCount s - 1) s) in
    if decide (recorderCount s - 1 ≤ 0)%Z then resolve p s2 else s2.
Proof. by destruct s. Qed.

Lemma resolve_pending (p : nat) (s : State) (rm : Room) :
  promises s !! p = Some false →
  room s = Some rm →
  room_state rm = connected →
  resolve p s
  = set_room (Some (disconnected_room rm))
      (set_trace (trace s ++ [EInfo "Disconnecting from Room..."; EDisconnect])
         (set_promises (<[p := true]> (promises s)) s)).
Proof.
  intros Hp Hrm Hconn. unfold resolve, then_disconnect. rewrite Hp.
  destruct s; simpl in *. subst. rewrite Hconn. norm.
  by rewrite <- app_assoc.
Qed.

Lemma draining_step (p d : nat) (A X B D : list nat) (s : State) :
  draining p d A X B D s →
  0 < events_left A X B →
  (∃ A' X' B' D',
      draining p d A' X' B' D' (step ATask s)
      ∧ S (events_left A' X' B') = events_left A X B
      ∧ 0 < events_left A' X' B'
      ∧ A' ++ X' ++ B' ++ D' ≡ₚ A ++ X ++ B ++ D)
  ∨ (events_left A X B = 1
     ∧ drain_finished p d (A ++ X ++ B ++ D) (step ATask s)).
Proof.
  intros [Ht [Hx1 Hx2] Hnd Hpa Hst Hdo Hc Hp (rm & Hrm & Hconn) Hd] Hpos.
  destruct A as [|r A].
  - destruct X as [|r X].
    + destruct B as [|r B]; [unfold events_left in Hpos; simpl in Hpos; lia|].
      (* the requested data of [r] *)
      left. exists [], [r], B, D.
      destruct (Hst r) as (rec & Hrec & Hina & Hcb & Hh); [set_solver|].
      simpl in Ht.
      rewrite (step_requestData _ _ _ _ Ht Hrec).
      match goal with |- context [handle_data ?h ?rc ?b ?st] =>
        destruct (handle_data_frame h rc b st)
          as (Hf1 & Hf2 & Hf3 & Hf4 & Hf5 & Hf6 & Hf7 & Hf8) end.
      split_and!.
      * constructor.
        -- rewrite Hf2. done.
        -- split; [simpl; lia|done].
        -- done.
        -- intros r' ?. set_solver.
        -- intros r' Hr'. rewrite Hf1. simpl.
           destruct (decide (r' = r)) as [->|Hne].
           ++ eexists. rewrite list_lookup_insert_eq by (by eapply lookup_lt_Some).
              split; [done|]. simpl. done.
           ++ rewrite list_lookup_insert_ne by done. apply Hst. set_solver.
        -- intros r' Hr'. rewrite Hf1. simpl.
           assert (r' ≠ r).
           { intros ->. simpl in Hnd. apply NoDup_cons in Hnd as [Hnd _].
             set_solver. }
           rewrite list_lookup_insert_ne by done. by apply Hdo.
        -- rewrite Hf3. simpl. rewrite Hc. simpl. lia.
        -- by rewrite Hf4.
        -- rewrite Hf6. simpl. eauto.
        -- by rewrite Hf8.
      * unfold events_left. simpl. lia.
      * unfold events_left. simpl. lia.
      * done.
    + (* the stop of [r] *)
      destruct X; [|simpl in Hx1; lia]. simpl in Ht.
      destruct (Hst r) as (rec & Hrec & Hina & Hcb & Hh); [set_solver|].
      rewrite (step_stop _ _ _ _ _ Ht Hrec Hcb).
      match goal with |- context [handle_data ?h ?rc ?b ?st] =>
        destruct (handle_data_frame h rc b st)
          as (Hf1 & Hf2 & Hf3 & Hf4 & Hf5 & Hf6 & Hf7 & Hf8);
        set (s1 := handle_data h rc b st) in *
      end.
      simpl in Hf1, Hf2, Hf3, Hf4, Hf6, Hf8.
      rewrite on_stop_shutdown. cbv zeta.
      assert (Hr : r < length (heap s)) by (by eapply lookup_lt_Some).
      destruct B as [|r2 B].
      * (* the last recorder: the promise is resolved *)
        right. split; [done|].
        rewrite decide_True by (rewrite Hf3, Hc; simpl; lia).
        erewrite resolve_pending; [|simpl; by rewrite Hf4|simpl; by rewrite Hf6|done].
        unfold drain_finished. simpl. split_and!.
        -- rewrite Hf3, Hc. simpl. lia.
        -- by rewrite Hf2.
        -- rewrite !disconnects_app, Hf8, Hd. unfold disconnects. simpl. lia.
        -- by rewrite last_app.
        -- rewrite Hf4. apply list_lookup_insert_eq. by eapply lookup_lt_Some.
        -- intros r' Hr'. rewrite Hf1.
           destruct (decide (r' = r)) as [->|Hne].
           ++ eexists. rewrite list_lookup_insert_eq by done. done.
           ++ rewrite list_lookup_insert_ne by done. apply Hdo. set_solver.
      * left. exists [], [], (r2 :: B), (r :: D).
        rewrite decide_False by (rewrite Hf3, Hc; simpl; lia).
        split_and!.
        -- constructor; simpl.
           ++ by rewrite Hf2.
           ++ split; [lia|done].
           ++ simpl in Hnd. eapply NoDup_Permutation_proper; [|exact Hnd].
              solve_Permutation.
           ++ set_solver.
           ++ intros r' Hr'. rewrite Hf1.
              assert (r' ≠ r).
              { intros ->. simpl in Hnd. apply NoDup_cons in Hnd as [Hnd _].
                set_solver. }
              rewrite list_lookup_insert_ne by done. apply Hst. set_solver.
           ++ intros r' Hr'. rewrite Hf1.
              destruct (decide (r' = r)) as [->|Hne].
              ** eexists. rewrite list_lookup_insert_eq by done. done.
              ** rewrite list_lookup_insert_ne by done. apply Hdo. set_solver.
           ++ rewrite Hf3, Hc. simpl. lia.
           ++ by rewrite Hf4.
           ++ rewrite Hf6. eauto.
           ++ rewrite disconnects_app, Hf8, Hd. unfold disconnects. simpl. lia.
        -- unfold events_left. simpl. lia.
        -- unfold events_left. simpl. lia.
        -- simpl. solve_Permutation.
  - (* the pause of [r] *)
    destruct X; [|exfalso; by discriminate Hx2]. simpl in Ht.
    destruct (Hpa r) as (rec & Hrec & Hpau & Hon & Hcb & Hh); [set_solver|].
    rewrite (step_pause _ _ _ _ Ht Hrec Hon Hpau).
    assert (Hr : r < length (heap s)) by (by eapply lookup_lt_Some).
    left. exists A, [], (B ++ [r]), D. split_and!.
    + constructor; simpl.
      * rewrite fmap_app, join_app. simpl. by rewrite <- app_assoc.
      * split; [lia|done].
      * simpl in Hnd. eapply NoDup_Permutation_proper; [|exact Hnd].
        solve_Permutation.
      * intros r' Hr'.
        assert (r' ≠ r).
        { intros ->. simpl in Hnd. apply NoDup_cons in Hnd as [Hnd _].
          set_solver. }
        rewrite list_lookup_insert_ne by done. apply Hpa. set_solver.
      * intros r' Hr'.
        destruct (decide (r' = r)) as [->|Hne].
        -- eexists. rewrite list_lookup_insert_eq by done.
           split; [done|]. simpl. by rewrite Hh.
        -- rewrite list_lookup_insert_ne by done. apply Hst. set_solver.
      * intros r' Hr'.
        assert (r' ≠ r).
        { intros ->. simpl in Hnd. apply NoDup_cons in Hnd as [Hnd _].
          set_solver. }
        rewrite list_lookup_insert_ne by done. by apply Hdo.
      * rewrite Hc, length_app. simpl. lia.
      * done.
      * eauto.
      * rewrite disconnects_app, Hd. unfold disconnects. simpl. lia.
    + unfold events_left. rewrite length_app. simpl. lia.
    + unfold events_left. rewrite length_app. simpl. lia.
    + simpl. solve_Permutation.
Qed.

Lemma draining_positive (p d : nat) (A X B D : list nat) (s : State) :
  draining p d A X B D s → 0 < events_left A X B →
  disconnects (trace s) = d ∧ (0 < recorderCount s)%Z.
Proof.
  intros [] Hpos. split; [done|].
  unfold events_left in Hpos. lia.
Qed.

Lemma draining_run (n : nat) :
  ∀ (p d : nat) (A X B D : list nat) (s : State),
    draining p d A X B D s →
    events_left A X B = S n →
    (∀ k, k ≤ n →
       disconnects (trace (run (replicate k ATask) s)) = d
       ∧ (0 < recorderCount (run (replicate k ATask) s))%Z)
    ∧ drain_finished p d (A ++ X ++ B ++ D) (run (replicate (S n) ATask) s).
Proof.
  induction n as [|n IH]; intros p d A X B D s Hdr Hev.
  - destruct (draining_step _ _ _ _ _ _ _ Hdr) as
      [(A' & X' & B' & D' & _ & Hev' & Hpos' & _)|[_ Hfin]]; [lia|lia|].
    split; [|done].
    intros k Hk. replace k with 0 by lia. rewrite run_nil.
    apply (draining_positive _ _ _ _ _ _ _ Hdr). lia.
  - destruct (draining_step _ _ _ _ _ _ _ Hdr) as
      [(A' & X' & B' & D' & Hdr' & Hev' & Hpos' & Hperm)|[? _]]; [lia| |lia].
    destruct (IH _ _ _ _ _ _ _ Hdr') as [Hbefore Hfin]; [lia|].
    split.
    + intros [|k] Hk.
      * rewrite run_nil. apply (draining_positive _ _ _ _ _ _ _ Hdr). lia.
      * simpl replicate. rewrite run_cons. apply Hbefore. lia.
    + simpl replicate. rewrite run_cons.
      destruct Hfin as (? & ? & ? & ? & ? & Hall). split_and!; try done.
      intros r Hr. apply Hall. by rewrite Hperm.
Qed.

Lemma Map_get_elem (t : string) (r : nat) (m : list (string * nat)) :
  NoDup m.*1 → (t, r) ∈ m → Map_get t m = Some r.
Proof.
  induction m as [|[t' r'] m IH]; intros Hnd Hin; [by apply elem_of_nil in Hin|].
  simpl in *. apply NoDup_cons in Hnd as [Hnotin Hnd].
  apply elem_of_cons in Hin as [Heq|Hin].
  - inversion Heq; subst. by rewrite decide_True.
  - rewrite decide_False; [by apply IH|].
    intros ->. apply Hnotin. apply list_elem_of_fmap. by exists (t, r).
Qed.

Lemma dispatch_all_recording (cb : StopCallback) (l : list (string * nat)) :
  ∀ (s : State) (done : list nat),
    NoDup l.*1 → NoDup (done ++ l.*2) →
    (∀ t r, (t, r) ∈ l →
       Map_get t (recorders s) = Some r
       ∧ ∃ rec, heap s !! r = Some rec ∧ state rec = recording
                ∧ ondataavailable rec = HRecord) →
    (∀ r, r ∈ done → paused_for cb s r) →
    tasks s = TPause <$> done →
    let s' := foldl (λ s entry, trackUnsubscribed entry.1 cb s) s l in
    tasks s' = TPause <$> (done ++ l.*2)
    ∧ (∀ r, r ∈ done ++ l.*2 → paused_for cb s' r)
    ∧ recorderCount s' = recorderCount s ∧ promises s' = promises s
    ∧ room s' = room s ∧ disconnects (trace s') = disconnects (trace s).
Proof.
  induction l as [|[t r] l IH]; intros s done Hk Hr Hreg Hdone Ht; simpl.
  - rewrite app_nil_r. done.
  - simpl in Hk, Hr. apply NoDup_cons in Hk as [Hknew Hk].
    destruct (Hreg t r) as (Hget & rec & Hrec & Hst & Hh); [set_solver|].
    rewrite (trackUnsubscribed_hit _ _ _ _ _ Hget Hrec Hst).
    assert (Hlt : r < length (heap s)) by (by eapply lookup_lt_Some).
    assert (Hr' : NoDup ((done ++ [r]) ++ l.*2)) by (by rewrite <- app_assoc).
    match goal with |- context [foldl ?f ?s1 l] =>
      destruct (IH s1 (done ++ [r]) Hk Hr') as (H1 & H2 & H3 & H4 & H5 & H6)
    end.
    + intros t' r' Hin. simpl.
      assert (t ≠ t').
      { intros ->. apply Hknew. apply list_elem_of_fmap. by exists (t', r'). }
      assert (r' ≠ r).
      { intros ->. apply NoDup_app in Hr as (_ & _ & Hr).
        apply NoDup_cons in Hr as [Hr _]. apply Hr.
        apply list_elem_of_fmap. by exists (t', r). }
      rewrite Map_get_delete_ne by done.
      rewrite list_lookup_insert_ne by done. apply Hreg. set_solver.
    + intros r' Hin. unfold paused_for. simpl.
      destruct (decide (r' = r)) as [->|Hne].
      * eexists. rewrite list_lookup_insert_eq by done.
        split; [done|]. simpl. by rewrite Hh.
      * rewrite list_lookup_insert_ne by done. apply Hdone. set_solver.
    + simpl. by rewrite Ht, fmap_app.
    + rewrite <- app_assoc in H1, H2. simpl in *. split_and!; try done.
      rewrite H6, disconnects_app. unfold disconnects. simpl. lia.
Qed.
(** [shutdown] up to the dispatch: the promise is created and the count
    is made equal to the size of [recorders]. *)
Lemma shutdown_unfold (s : State) :
  0 < length (recorders s) →
  ∃ s0,
    shutdown s
    = foldl (λ s' entry, trackUnsubscribed entry.1
                           (CbShutdown (length (promises s))) s')
            s0 (recorders s)
    ∧ recorders s0 = recorders s ∧ heap s0 = heap s ∧ tasks s0 = tasks s
    ∧ room s0 = room s ∧ promises s0 = promises s ++ [false]
    ∧ recorderCount s0 = Z.of_nat (length (recorders s))
    ∧ trace s0
      = trace s ++ [EInfo "Shutting down any remaining recorders..."]
        ++ (if decide (recorderCount s ≠ Z.of_nat (length (recorders s)))
            then [EError (mismatch_message (recorderCount s)
                                           (length (recorders s)));
                  EError "Will reset active recorder count to match."]
            else []).
Proof.
  intros Hsize. unfold shutdown. rewrite decide_True by done.
  destruct s; simpl in *.
  destruct (decide (_ ≠ _)) as [Hne|Heq]; norm.
  - eexists. split; [reflexivity|]. norm.
    rewrite <- !app_assoc. by repeat split.
  - apply dec_stable in Heq. eexists. split; [reflexivity|]. norm.
    rewrite ?app_nil_r. by repeat split.
Qed.

Lemma shutdown_drains (s : State) :
  all_recording s →
  tasks s = [] →
  0 < length (recorders s) →
  (∃ rm, room s = Some rm ∧ room_state rm = connected) →
  draining (length (promises s)) (disconnects (trace s))
           (recorders s).*2 [] [] [] (shutdown s).
Proof.
  intros (Hk & Hr & Hreg) Ht Hsize Hroom.
  destruct (shutdown_unfold s Hsize)
    as (s0 & -> & Hrecs & Hheap & Htasks & Hrm & Hprom & Hcount & Htrace).
  destruct (dispatch_all_recording (CbShutdown (length (promises s)))
              (recorders s) s0 []) as (H1 & H2 & H3 & H4 & H5 & H6).
  - done.
  - done.
  - intros t r Hin. rewrite Hrecs, Hheap. split.
    + by apply Map_get_elem.
    + by apply (Hreg t).
  - intros r Hin. by apply elem_of_nil in Hin.
  - by rewrite Htasks, Ht.
  - simpl in H1, H2. constructor.
    + rewrite H1. simpl. by rewrite app_nil_r.
    + split; [simpl; lia|done].
    + by rewrite !app_nil_r.
    + intros r Hin. destruct (H2 r Hin) as (rec & ? & ? & ? & ? & ?).
      by exists rec.
    + intros r Hin. by apply elem_of_nil in Hin.
    + intros r Hin. by apply elem_of_nil in Hin.
    + rewrite H3, Hcount. simpl. rewrite length_fmap. f_equal. lia.
    + rewrite H4, Hprom. by rewrite lookup_app_r, Nat.sub_diag by lia.
    + by rewrite H5, Hrm.
    + rewrite H6, Htrace, !disconnects_app.
      destruct (decide (_ ≠ _)); unfold disconnects; simpl; lia.
Qed.

Lemma events_left_dispatch (l : list nat) :
  events_left l [] [] = 3 * length l.
Proof. unfold events_left. simpl. lia. Qed.

(** After [shutdown] on a quiet page whose registered recorders are all
    recording, the [3 * n] recorder events run as follows. *)
Lemma shutdown_then_drain (s : State) :
  all_recording s →
  tasks s = [] →
  0 < length (recorders s) →
  (∃ rm, room s = Some rm ∧ room_state rm = connected) →
  let n := length (recorders s) in
  (∀ k, k < 3 * n →
     disconnects (trace (run (replicate k ATask) (shutdown s)))
     = disconnects (trace s)
     ∧ (0 < recorderCount (run (replicate k ATask) (shutdown s)))%Z)
  ∧ drain_finished (length (promises s)) (disconnects (trace s))
      (recorders s).*2 (run (replicate (3 * n) ATask) (shutdown s)).
Proof.
  intros Hall Ht Hsize Hroom n.
  pose proof (shutdown_drains s Hall Ht Hsize Hroom) as Hdr.
  destruct (draining_run (3 * n - 1) _ _ _ _ _ _ _ Hdr) as [Hbefore Hfin].
  { rewrite events_left_dispatch, length_fmap. subst n. lia. }
  replace (S (3 * n - 1)) with (3 * n) in Hfin by (subst n; lia).
  rewrite !app_nil_r in Hfin. split; [|done].
  intros k Hk. apply Hbefore. lia.
Qed.


Lemma all_recording_check_sound (s : State) :
  all_recording_check s = true → all_recording s.
Proof.
  unfold all_recording_check, all_recording.
  rewrite !andb_true_iff, !bool_decide_eq_true, forallb_forall.
  intros [[Hk Hr] Hall]. split_and!; try done.
  intros t r Hin. specialize (Hall (t, r)). simpl in Hall.
  destruct (heap s !! r) as [rec|]; [|by discriminate Hall; apply list_elem_of_In].
  exists rec. rewrite andb_true_iff, !bool_decide_eq_true in Hall.
  split; [done|]. apply Hall. by apply list_elem_of_In.
Qed.

Lemma trackUnsubscribed_cases (trackid : string) (s : State) :
  (∃ r rec, Map_get trackid (recorders s) = Some r ∧ heap s !! r = Some rec
            ∧ state rec = recording)
  ∨ ¬ registered_recording trackid s.
Proof.
  unfold registered_recording.
  destruct (Map_get trackid (recorders s)) as [r|] eqn:Hget;
    [|right; intros (? & ? & ? & _); congruence].
  destruct (heap s !! r) as [rec|] eqn:Hrec;
    [|right; intros (? & ? & ? & ? & _); congruence].
  destruct (state rec) eqn:Hst.
  - right. intros (? & ? & ? & ? & ?). congruence.
  - left. by exists r, rec.
  - right. intros (? & ? & ? & ? & ?). congruence.
Qed.

Lemma trackUnsubscribed_logs (trackid : string) (cb : StopCallback) (s : State) :
  recorderCount (trackUnsubscribed trackid cb s) = recorderCount s
  ∧ ∃ logs, trace (trackUnsubscribed trackid cb s) = trace s ++ logs
            ∧ Forall is_log logs.
Proof.
  destruct (trackUnsubscribed_cases trackid s)
    as [(r & rec & Hget & Hrec & Hst)|Hmiss].
  - rewrite (trackUnsubscribed_hit _ _ _ _ _ Hget Hrec Hst). simpl.
    split; [done|]. eexists. split; [done|]. by repeat constructor.
  - rewrite (trackUnsubscribed_miss _ _ _ Hmiss). simpl.
    split; [done|]. rewrite <- app_assoc. eexists. split; [done|].
    by repeat constructor.
Qed.

Lemma dispatch_logs (cb : StopCallback) (l : list (string * nat)) :
  ∀ s, let s' := foldl (λ s entry, trackUnsubscribed entry.1 cb s) s l in
       recorderCount s' = recorderCount s
       ∧ ∃ logs, trace s' = trace s ++ logs ∧ Forall is_log logs.
Proof.
  induction l as [|[t r] l IH]; intros s; simpl.
  - split; [done|]. exists []. by rewrite app_nil_r.
  - destruct (trackUnsubscribed_logs t cb s) as (Hc & l1 & Ht1 & Hl1).
    destruct (IH (trackUnsubscribed t cb s)) as (Hc' & l2 & Ht2 & Hl2).
    split; [congruence|]. exists (l1 ++ l2).
    rewrite Ht2, Ht1, <- app_assoc. split; [done|]. by apply Forall_app.
Qed.

(** C9.  When [shutdown()] finds recorders registered and the count
    different from their number, it logs the two error messages, sets the
    count to that number, and goes on with the drain: everything else it
    does at that point is logging.  The drain then ends on the reconciled
    count: with all registered recorders recording and no recorder event
    pending, the count is positive and no disconnect is made through the
    [3 * n] events, and after them the count is zero and
    [room.disconnect()] has been called once. *)
Theorem shutdown_reconciles_count (s : State) :
  0 < length (recorders s) →
  recorderCount s ≠ Z.of_nat (length (recorders s)) →
  (∃ logs,
     trace (shutdown s)
     = trace s
       ++ [EInfo "Shutting down any remaining recorders...";
           EError (mismatch_message (recorderCount s) (length (recorders s)));
           EError "Will reset active recorder count to match."]
       ++ logs
     ∧ Forall is_log logs)
  ∧ recorderCount (shutdown s) = Z.of_nat (length (recorders s))
  ∧ (all_recording s → tasks s = [] →
     (∃ rm, room s = Some rm ∧ room_state rm = connected) →
     let n := length (recorders s) in
     (∀ k, k < 3 * n →
        disconnects (trace (run (replicate k ATask) (shutdown s)))
        = disconnects (trace s)
        ∧ (0 < recorderCount (run (replicate k ATask) (shutdown s)))%Z)
     ∧ recorderCount (run (replicate (3 * n) ATask) (shutdown s)) = 0%Z
     ∧ disconnects (trace (run (replicate (3 * n) ATask) (shutdown s)))
       = S (disconnects (trace s))).
Proof.
  intros Hsize Hdrift.
  destruct (shutdown_unfold s Hsize)
    as (s0 & Heq & Hrecs & Hheap & Htasks & Hrm & Hprom & Hcount & Htrace).
  rewrite decide_True in Htrace by done.
  destruct (dispatch_logs (CbShutdown (length (promises s))) (recorders s) s0)
    as (Hc & logs & Ht & Hlogs).
  split_and!.
  - exists logs. rewrite Heq, Ht, Htrace, <- !app_assoc. done.
  - rewrite Heq, Hc. done.
  - intros Hall Htk Hroom n.
    destruct (shutdown_then_drain s Hall Htk Hsize Hroom)
      as (Hbefore & Hzero & _ & Hdisc & _).
    done.
Qed.

(** C9, witness: the count is 2 for one registered recorder. *)
Lemma shutdown_reconciles_count_witness :
  let s := Examples.drifted in
  (0 < length (recorders s) ∧ recorderCount s ≠ Z.of_nat (length (recorders s)))
  ∧ recorderCount s = 2%Z ∧ length (recorders s) = 1
  ∧ all_recording s ∧ tasks s = []
  ∧ recorderCount (shutdown s) = 1%Z
  ∧ recorderCount (run (replicate 3 ATask) (shutdown s)) = 0%Z
  ∧ disconnects (trace (run (replicate 3 ATask) (shutdown s))) = 1.
Proof.
  intros s.
  assert (Hall : all_recording s)
    by (apply all_recording_check_sound; vm_compute; reflexivity).
  assert (H1 : 0 < length (recorders s)) by (vm_compute; lia).
  assert (H2 : recorderCount s ≠ Z.of_nat (length (recorders s)))
    by (vm_compute; discriminate).
  assert (Ht : tasks s = []) by (vm_compute; reflexivity).
  assert (Hr : ∃ rm, room s = Some rm ∧ room_state rm = connected)
    by (exists (Examples.demo [Examples.alice]); vm_compute; split; reflexivity).
  destruct (shutdown_reconciles_count s H1 H2) as (_ & Hc & Hdrain).
  destruct (Hdrain Hall Ht Hr) as (_ & Hzero & Hdisc).
  split; [exact (conj H1 H2)|].
  split; [vm_compute; reflexivity|]. split; [vm_compute; reflexivity|].
  split; [exact Hall|]. split; [exact Ht|]. split; [exact Hc|].
  split; [exact Hzero|exact Hdisc].
Defined.

(** C10, witness: the recorders of both tracks went inactive on their
    own and are still registered. *)
Lemma trackUnsubscribed_not_recording_witness :
  let s := Examples.both_ended in
  let s' := trackUnsubscribed "a1" (CbShutdown 0) s in
  Map_get "a1" (recorders s) = Some 0
  ∧ ¬ registered_recording "a1" s
  ∧ (Map_get "a1" (recorders s') = None
     ∧ trace s' = trace s ++ [EInfo ("Unsubscribe from " +:+ "a1");
                              EError (not_found_message "a1")]
     ∧ recorderCount s' = recorderCount s
     ∧ heap s' = heap s ∧ tasks s' = tasks s ∧ loads s' = loads s
     ∧ promises s' = promises s ∧ room s' = room s)
  ∧ promises (shutdown s) = promises s ++ [false]
  ∧ heap (shutdown s) = heap s ∧ tasks (shutdown s) = tasks s
  ∧ disconnects (trace (shutdown s)) = disconnects (trace s)
  ∧ (Some (CbShutdown (length (promises s))) ∉ (onstop <$> heap s))
  ∧ (∀ actions,
       promises (run actions (shutdown s)) !! (length (promises s))
       = Some false).
Proof.
  intros s s'.
  assert (Hall : ∀ t, ¬ registered_recording t s)
    by (apply none_recording_check_sound; vm_compute; reflexivity).
  assert (Hsize : 0 < length (recorders s)) by (vm_compute; lia).
  assert (Hno : Some (CbShutdown (length (promises s))) ∉ (onstop <$> heap s)).
  { vm_compute. intros Hin. inversion Hin as [|? ? ? Hin']; subst.
    inversion Hin' as [|? ? ? Hin'']; subst. inversion Hin''. }
  destruct (trackUnsubscribed_not_recording s "a1" (CbShutdown 0) (Hall "a1"))
    as [HA HB].
  destruct (HB Hall Hsize) as (H1 & H2 & H3 & H4 & H5).
  split; [vm_compute; reflexivity|]. split; [exact (Hall "a1")|].
  split; [exact HA|]. split; [exact H1|]. split; [exact H2|].
  split; [exact H3|]. split; [exact H4|]. split; [exact Hno|].
  exact (H5 Hno).
Defined.

(** ** The idle timer *)

Lemma occupancy_startRecorder track who s :
  occupancy (startRecorder track who s) = occupancy s.
Proof. unfold startRecorder. occ. Qed.

Lemma occupancy_trackUnsubscribed t cb s :
  occupancy (trackUnsubscribed t cb s) = occupancy s.
Proof. unfold trackUnsubscribed. occ. Qed.

Lemma occupancy_record track p s :
  occupancy (record track p s) = occupancy s.
Proof.
  unfold record. rewrite occupancy_startRecorder. occ.
Qed.

Lemma occupancy_trackSubscribed track p s :
  occupancy (trackSubscribed track p s) = occupancy s.
Proof. unfold trackSubscribed. destruct (track_kind track); by rewrite ?occupancy_record. Qed.

Lemma occupancy_then_disconnect s :
  occupancy (then_disconnect s) = occupancy s.
Proof. unfold then_disconnect. occ. Qed.

Lemma occupancy_resolve p s : occupancy (resolve p s) = occupancy s.
Proof.
  unfold resolve. repeat case_match; try done.
  by rewrite occupancy_then_disconnect.
Qed.

Lemma occupancy_foldl {A} (f : State → A → State) (l : list A) :
  (∀ s x, occupancy (f s x) = occupancy s) →
  ∀ s, occupancy (foldl f s l) = occupancy s.
Proof.
  intros Hf. induction l as [|x l IH]; intros s; simpl; [done|].
  by rewrite IH, Hf.
Qed.

Lemma occupancy_shutdown s : occupancy (shutdown s) = occupancy s.
Proof.
  unfold shutdown. repeat case_match.
  - rewrite occupancy_foldl by (intros; apply occupancy_trackUnsubscribed). done.
  - rewrite occupancy_foldl by (intros; apply occupancy_trackUnsubscribed). done.
  - by rewrite occupancy_resolve.
Qed.

Lemma occupancy_run_callback cb c s :
  occupancy (run_callback cb c s) = occupancy s.
Proof.
  destruct cb; simpl; [done| |apply occupancy_startRecorder].
  unfold callback. case_match; [apply occupancy_resolve|done].
Qed.

Lemma occupancy_handle_data h rec blob s :
  occupancy (handle_data h rec blob s) = occupancy s.
Proof.
  revert s. induction h as [|h IH]; intros s; simpl; case_match; try done.
  by rewrite IH.
Qed.

Lemma occupancy_fire_dataavailable r s :
  occupancy (fire_dataavailable r s) = occupancy s.
Proof.
  unfold fire_dataavailable. case_match; [|done].
  by rewrite occupancy_handle_data.
Qed.

Lemma occupancy_run_task t s : occupancy (run_task t s) = occupancy s.
Proof.
  destruct t; simpl.
  - case_match; done.
  - case_match; [|done]. case_match; [|done]. unfold on_pause. occ.
  - apply occupancy_fire_dataavailable.
  - pose proof (occupancy_fire_dataavailable r
                  (update_recorder r (set_gathering false) s)) as H1.
    repeat case_match; try done.
    unfold on_stop. by rewrite occupancy_run_callback.
Qed.

Lemma occupancy_on_load l now s : occupancy (on_load l now s) = occupancy s.
Proof. unfold on_load. by case_match. Qed.

Lemma occupancy_on_trackSubscribed track p s :
  occupancy (on_trackSubscribed track p s) = occupancy s.
Proof.
  unfold on_trackSubscribed. case_match; try done;
    by rewrite occupancy_trackSubscribed.
Qed.

Lemma occupancy_on_trackUnsubscribed track p s :
  occupancy (on_trackUnsubscribed track p s) = occupancy s.
Proof.
  unfold on_trackUnsubscribed. case_match; try done;
    by rewrite occupancy_trackUnsubscribed.
Qed.

Lemma occupancy_on_resize track who s :
  occupancy (on_resize track who s) = occupancy s.
Proof. unfold on_resize. by rewrite occupancy_trackUnsubscribed. Qed.

(** Every action other than [main], a participant arriving or leaving,
    and a timer firing leaves the timers and the participants alone. *)
Lemma occupancy_step (a : Action) (s : State) :
  match a with
  | AMain _ | AParticipantConnected _ | AParticipantDisconnected _
  | ATimer _ => True
  | _ => occupancy (step a s) = occupancy s
  end.
Proof.
  destruct a; simpl; try done.
  - apply occupancy_shutdown.
  - unfold close. occ.
  - case_match; [apply occupancy_on_trackSubscribed|done].
  - case_match; [apply occupancy_on_trackUnsubscribed|done].
  - occ.
  - occ.
  - repeat case_match; try done. apply occupancy_on_resize.
  - case_match; [done|]. rewrite occupancy_run_task. occ.
  - case_match; [done|]. rewrite occupancy_on_load. occ.
  - occ.
  - repeat case_match; try done. apply occupancy_fire_dataavailable.
  - occ.
Qed.

Lemma timer_inv_occupancy s s' :
  occupancy s' = occupancy s → timer_inv s → timer_inv s'.
Proof.
  unfold occupancy, timer_inv. intros [= Ht Hn He Hp] (H1 & H2 & H3).
  rewrite Ht, He, Hp. split_and!; try done.
  intros Hnone. apply H3. rewrite Hnone in Hp. simpl in Hp.
  by destruct (room s).
Qed.

Lemma timer_inv_quiet (s : State) :
  timers s = [] → timer_inv s.
Proof.
  intros Ht. unfold timer_inv. rewrite Ht. split_and!; try done.
  intros t Hin. by apply elem_of_nil in Hin.
Qed.

Lemma main_timers (connectedRoom : Room) (s : State) :
  timers s = [] →
  let s' := main connectedRoom s in
  room s' ≠ None
  ∧ room_participants <$> room s' = Some (room_participants connectedRoom)
  ∧ if decide (shouldClose s = false ∧ room_participants connectedRoom = [])
    then timers s' = [(next_timer s, roomStartingTimeoutSeconds * 1000)%Z]
         ∧ emptyRoomTimeout s' = Some (next_timer s)
    else timers s' = [].
Proof.
  intros Ht. unfold main. simpl.
  destruct (shouldClose s) eqn:Hsc.
  - rewrite decide_False by (intros [? _]; done).
    unfold close. case_match; simpl; by rewrite ?Ht.
  - destruct (decide (length (room_participants connectedRoom) = 0)) as [Hl|Hl].
    + apply nil_length_inv in Hl. rewrite decide_True by done.
      simpl. by rewrite Ht.
    + rewrite decide_False by (intros [_ Hnil]; by rewrite Hnil in Hl).
      match goal with |- context [foldl ?f ?s0 ?l] =>
        assert (Hocc : occupancy (foldl f s0 l) = occupancy s0)
      end.
      { apply occupancy_foldl. intros s1 p. apply occupancy_foldl.
        intros s2 t. apply occupancy_trackSubscribed. }
      unfold occupancy in Hocc. simpl in Hocc.
      injection Hocc as Ht' _ _ Hp. simpl.
      rewrite Ht', Hp, Ht. split_and!; try done.
      match goal with |- ?x ≠ None => destruct x eqn:?; done end.
Qed.

Lemma timers_all_current (s : State) :
  timer_inv s →
  match emptyRoomTimeout s with
  | Some id => filter (λ t : nat * Z, t.1 ≠ id) (timers s) = []
  | None => timers s = []
  end.
Proof.
  intros (H1 & _ & _). destruct (emptyRoomTimeout s) as [id|].
  - induction (timers s) as [|t l IH]; [done|].
    rewrite filter_cons_False.
    + apply IH. intros t' Hin. apply H1. by apply list_elem_of_further.
    + intros Hne. apply Hne. specialize (H1 t (list_elem_of_here _ _)). congruence.
  - destruct (timers s) as [|t l]; [done|].
    by specialize (H1 t (list_elem_of_here _ _)).
Qed.

(** A participant connecting leaves no timer pending. *)
Lemma connected_clears (p : Participant) (s : State) :
  timer_inv s →
  let s' := on_participantConnected p
              (with_participants (λ ps, ps ++ [p]) s) in
  timers s' = [] ∧ emptyRoomTimeout s' = None.
Proof.
  intros Hinv. pose proof (timers_all_current s Hinv) as Hcur.
  unfold on_participantConnected, with_participants.
  destruct (room s); simpl; destruct (emptyRoomTimeout s) eqn:He; simpl;
    rewrite ?He; by split.
Qed.

(** A participant leaving a room finds no timer pending, and arms one
    exactly when the room is empty afterwards. *)
Lemma disconnected_arms (p : Participant) (s : State) :
  timer_inv s →
  is_member (participant_sid p) s = true →
  let rest := filter (λ q, participant_sid q ≠ participant_sid p)
                     (current_participants s) in
  let s' := on_participantDisconnected p
              (with_participants
                 (filter (λ q, participant_sid q ≠ participant_sid p)) s) in
  timers s = []
  ∧ room_participants <$> room s' = Some rest
  ∧ if decide (rest = [])
    then timers s' = [(next_timer s, roomEndingTimeoutSeconds * 1000)%Z]
         ∧ emptyRoomTimeout s' = Some (next_timer s)
    else timers s' = [] ∧ emptyRoomTimeout s' = emptyRoomTimeout s.
Proof.
  intros (H1 & H2 & H3) Hmem rest s'.
  unfold is_member in Hmem. apply bool_decide_eq_true in Hmem.
  unfold current_participants in *.
  destruct (room s) as [rm|] eqn:Hroom; [|by apply elem_of_nil in Hmem].
  assert (Ht : timers s = []).
  { destruct (timers s) as [|t l] eqn:Ht; [done|].
    specialize (H2 ltac:(done)). simpl in H2.
    injection H2 as H2. rewrite H2 in Hmem. by apply elem_of_nil in Hmem. }
  split; [done|]. subst s' rest.
  unfold on_participantDisconnected, with_participants.
  rewrite Hroom. simpl. unfold current_participants. simpl.
  destruct (filter _ (room_participants rm)) as [|q rest] eqn:Hrest; simpl.
  - by rewrite Ht.
  - done.
Qed.

Lemma timer_inv_step (a : Action) (s : State) :
  timer_inv s → timer_inv (step a s).
Proof.
  intros Hinv. pose proof (occupancy_step a s) as Hocc.
  destruct a; try (by apply (timer_inv_occupancy s)); clear Hocc; simpl.
  - (* main *)
    destruct (room s) eqn:Hroom; [done|].
    destruct Hinv as (_ & _ & H3). specialize (H3 Hroom).
    destruct (main_timers connectedRoom s H3) as (Hsome & Hps & Hcase).
    unfold timer_inv. rewrite Hps. case_decide as Hd.
    + destruct Hd as [_ Hnil]. destruct Hcase as [-> ->]. rewrite Hnil.
      split_and!; try done.
      intros t Hin. apply list_elem_of_singleton in Hin. by subst.
    + rewrite Hcase. split_and!; try done.
      intros t Hin. by apply elem_of_nil in Hin.
  - (* participantConnected *)
    destruct (listening s && negb (is_member (participant_sid participant) s));
      [|done].
    destruct (connected_clears participant s Hinv) as [Ht _].
    by apply timer_inv_quiet.
  - (* participantDisconnected *)
    destruct (listening s) eqn:Hl; [|done]. simpl.
    destruct (is_member (participant_sid participant) s) eqn:Hm; [|done].
    destruct (disconnected_arms participant s Hinv Hm) as (_ & Hps & Hcase).
    unfold timer_inv. rewrite Hps. case_decide as Hd.
    + destruct Hcase as [-> ->]. rewrite Hd. split_and!; try done.
      * intros t Hin. apply list_elem_of_singleton in Hin. by subst.
      * intros Hnone. rewrite Hnone in Hps. done.
    + destruct Hcase as [-> _]. split_and!; try done.
      intros t Hin. by apply elem_of_nil in Hin.
  - (* a timer fires *)
    case_match; [|done]. destruct Hinv as (H1 & H2 & H3).
    unfold timer_inv. simpl. split_and!.
    + intros t Hin. apply list_elem_of_filter in Hin as [_ Hin]. by apply H1.
    + intros Hne. apply H2. intros Hnil. by rewrite Hnil in Hne.
    + intros Hnone. by rewrite H3.
Qed.

Lemma timer_inv_run (actions : list Action) :
  ∀ s, timer_inv s → timer_inv (run actions s).
Proof.
  induction actions as [|a l IH]; intros s Hinv; [done|].
  rewrite run_cons. by apply IH, timer_inv_step.
Qed.

Lemma timer_inv_initial (h : bool) : timer_inv (initial h).
Proof. by apply timer_inv_quiet. Qed.

(** C5.  In every state the page can reach: [main] on a room without
    participants arms one timer of 600 seconds, the longer period; the
    last participant leaving arms one timer of 60 seconds, the shorter
    one; a participant connecting leaves no timer pending, so that no
    timer can fire afterwards; and a pending timer is always the one
    recorded in [emptyRoomTimeout], whose firing is what calls
    [parentClose]. *)
Theorem idle_timer (actions : list Action) (h : bool) :
  let s := run actions (initial h) in
  (∀ connectedRoom,
     room s = None → shouldClose s = false →
     room_participants connectedRoom = [] →
     let s' := step (AMain connectedRoom) s in
     timers s' = [(next_timer s, 600 * 1000)%Z]
     ∧ emptyRoomTimeout s' = Some (next_timer s))
  ∧ (∀ p,
       listening s = true → is_member (participant_sid p) s = true →
       filter (λ q, participant_sid q ≠ participant_sid p)
              (current_participants s) = [] →
       let s' := step (AParticipantDisconnected p) s in
       timers s' = [(next_timer s, 60 * 1000)%Z]
       ∧ emptyRoomTimeout s' = Some (next_timer s))
  ∧ (∀ p,
       listening s = true → is_member (participant_sid p) s = false →
       let s' := step (AParticipantConnected p) s in
       timers s' = [] ∧ emptyRoomTimeout s' = None
       ∧ ∀ id, step (ATimer id) s' = s')
  ∧ (∀ id ms,
       (id, ms) ∈ timers s →
       emptyRoomTimeout s = Some id
       ∧ trace (step (ATimer id) s) = trace s ++ [EParentClose None]
       ∧ timers (step (ATimer id) s) = []).
Proof.
  intros s.
  assert (Hinv : timer_inv s) by apply timer_inv_run, timer_inv_initial.
  split_and!.
  - intros cr Hroom Hsc Hnil s'. subst s'. simpl. rewrite Hroom.
    destruct Hinv as (_ & _ & H3).
    destruct (main_timers cr s (H3 Hroom)) as (_ & _ & Hcase).
    by rewrite decide_True in Hcase.
  - intros p Hl Hm Hrest s'. subst s'. simpl. rewrite Hl, Hm. simpl.
    destruct (disconnected_arms p s Hinv Hm) as (_ & _ & Hcase).
    by rewrite decide_True in Hcase.
  - intros p Hl Hm s'. subst s'. simpl. rewrite Hl, Hm. simpl.
    destruct (connected_clears p s Hinv) as [Ht He].
    split_and!; try done.
    intros id. simpl. by rewrite Ht.
  - intros id ms Hin. pose proof (timers_all_current s Hinv) as Hcur.
    destruct Hinv as (H1 & _ & _). specialize (H1 _ Hin). simpl in H1.
    rewrite H1 in Hcur. split; [done|]. simpl.
    rewrite bool_decide_eq_true_2
      by (apply list_elem_of_fmap; by exists (id, ms)).
    simpl. done.
Qed.

(** C5, on the example room: it starts empty, Bob connects and leaves. *)
Lemma idle_timer_witness :
  let s0 := run [] (initial false) in
  let s1 := run [AMain (Examples.demo [])] (initial false) in
  let s2 := run [AMain (Examples.demo []);
                 AParticipantConnected Examples.bob] (initial false) in
  let s3 := run [AMain (Examples.demo []);
                 AParticipantConnected Examples.bob;
                 AParticipantDisconnected Examples.bob] (initial false) in
  (let s' := step (AMain (Examples.demo [])) s0 in
   timers s' = [(next_timer s0, 600 * 1000)%Z]
   ∧ emptyRoomTimeout s' = Some (next_timer s0))
  ∧ (let s' := step (AParticipantConnected Examples.bob) s1 in
     timers s' = [] ∧ emptyRoomTimeout s' = None
     ∧ ∀ id, step (ATimer id) s' = s')
  ∧ (let s' := step (AParticipantDisconnected Examples.bob) s2 in
     timers s' = [(next_timer s2, 60 * 1000)%Z]
     ∧ emptyRoomTimeout s' = Some (next_timer s2))
  ∧ (emptyRoomTimeout s3 = Some 1
     ∧ trace (step (ATimer 1) s3) = trace s3 ++ [EParentClose None]
     ∧ timers (step (ATimer 1) s3) = []).
Proof.
  intros s0 s1 s2 s3.
  pose proof (idle_timer [] false) as (H0 & _).
  pose proof (idle_timer [AMain (Examples.demo [])] false) as (_ & _ & H1 & _).
  pose proof (idle_timer [AMain (Examples.demo []);
                          AParticipantConnected Examples.bob] false)
    as (_ & H2 & _ & _).
  pose proof (idle_timer [AMain (Examples.demo []);
                          AParticipantConnected Examples.bob;
                          AParticipantDisconnected Examples.bob] false)
    as (_ & _ & _ & H3).
  split; [apply (H0 (Examples.demo [])); vm_compute; reflexivity|].
  split; [apply (H1 Examples.bob); vm_compute; reflexivity|].
  split; [apply (H2 Examples.bob); vm_compute; reflexivity|].
  apply (H3 1 60000%Z). vm_compute. apply list_elem_of_here.
Defined.

(** ** The recording files *)

Lemma created_app (t evs : list Event) (fp : list string) :
  created t fp → created (t ++ evs) fp.
Proof. intros (mp & mime & Hin). exists mp, mime. set_solver. Qed.

Lemma metadata_first_app (t evs : list Event) :
  metadata_first t →
  Forall (λ e, ∀ fp chunk start, e = EAppendRecording fp chunk start →
                                 created t fp) evs →
  metadata_first (t ++ evs).
Proof.
  intros Ht Hevs i fp chunk start Hi.
  destruct (decide (i < length t)) as [Hlt|Hge].
  - rewrite lookup_app_l in Hi by done.
    destruct (Ht _ _ _ _ Hi) as (j & mp & mime & Hj & Hlook).
    exists j, mp, mime. split; [done|].
    rewrite lookup_app_l by lia. done.
  - rewrite lookup_app_r in Hi by lia.
    apply list_elem_of_lookup_2 in Hi.
    rewrite Forall_forall in Hevs.
    destruct (Hevs _ Hi _ _ _ eq_refl) as (mp & mime & Hin).
    apply list_elem_of_lookup_1 in Hin as [j Hj].
    exists j, mp, mime. split.
    + apply lookup_lt_Some in Hj. lia.
    + rewrite lookup_app_l; [done|]. by eapply lookup_lt_Some.
Qed.

Lemma files_ok_quiet rm counts paths loading t evs :
  Forall (λ e, ¬ is_append e) evs →
  files_ok rm counts paths loading t →
  files_ok rm counts paths loading (t ++ evs).
Proof.
  intros Hq [H1 H2 H3 H4 H5]. constructor; try done.
  - intros fp Hin. by apply created_app, H3.
  - intros fp Hin. by apply created_app, H4.
  - apply metadata_first_app; [done|].
    eapply Forall_impl; [exact Hq|]. intros e Hne fp chunk start ->. by destruct Hne.
Qed.

Lemma quiet_refl s : quiet_step s s.
Proof. split; [done|]. exists []. by rewrite app_nil_r. Qed.

Lemma quiet_trans s1 s2 s3 :
  quiet_step s1 s2 → quiet_step s2 s3 → quiet_step s1 s3.
Proof.
  intros [Hv1 (e1 & Ht1 & Hq1)] [Hv2 (e2 & Ht2 & Hq2)]. split; [congruence|].
  exists (e1 ++ e2). rewrite Ht2, Ht1, <- app_assoc. split; [done|].
  by apply Forall_app.
Qed.

Lemma quiet_emit e s : ¬ is_append e → quiet_step s (emit e s).
Proof. intros He. split; [done|]. exists [e]. split; [done|]. by constructor. Qed.

Lemma quiet_same s s' :
  files_view s' = files_view s → trace s' = trace s → quiet_step s s'.
Proof. intros Hv Ht. split; [done|]. exists []. by rewrite app_nil_r. Qed.

Lemma fmap_filepath_alter (f : Recorder → Recorder) (r : nat) (h : list Recorder) :
  (∀ x, filepath (f x) = filepath x) →
  filepath <$> alter f r h = filepath <$> h.
Proof.
  intros Hf. revert r. induction h as [|x h IH]; intros r; [done|].
  destruct r as [|r]; simpl.
  - by rewrite Hf.
  - f_equal. apply IH.
Qed.

Lemma quiet_update r f s :
  (∀ x, filepath (f x) = filepath x) →
  quiet_step s (update_recorder r f s).
Proof.
  intros Hf. apply quiet_same; [|done].
  unfold files_view. simpl. by rewrite fmap_filepath_alter.
Qed.

(** Peel the outermost operation off the state on the right. *)
Ltac quiet_peel :=
  lazymatch goal with
  | |- quiet_step ?s ?s => apply quiet_refl
  | |- quiet_step _ (match ?x with _ => _ end) => destruct x eqn:?
  | |- quiet_step _ (emit _ ?x) =>
      apply (quiet_trans _ x); [|apply quiet_emit; simpl; tauto]
  | |- quiet_step _ (update_recorder _ _ ?x) =>
      apply (quiet_trans _ x); [|apply quiet_update; by intros []]
  | |- quiet_step _ (_ ?x) =>
      apply (quiet_trans _ x); [|apply quiet_same; reflexivity]
  end.

Ltac quiet := unfold uncaught, createRecording, parentClose, queue_task, info, error, debug;
              repeat quiet_peel.

Lemma quiet_trackUnsubscribed t cb s : quiet_step s (trackUnsubscribed t cb s).
Proof. unfold trackUnsubscribed. cbv zeta. quiet. Qed.

Lemma quiet_then_disconnect s : quiet_step s (then_disconnect s).
Proof.
  unfold then_disconnect. repeat case_match; try apply quiet_refl.
  lazymatch goal with
  | |- quiet_step _ (set_room _ ?x) => apply (quiet_trans _ x)
  end.
  - quiet.
  - apply quiet_same; [|reflexivity].
    unfold files_view. simpl. by rewrite_hyps.
Qed.

Lemma quiet_resolve p s : quiet_step s (resolve p s).
Proof.
  unfold resolve. repeat case_match; try apply quiet_refl.
  eapply quiet_trans; [|apply quiet_then_disconnect]. quiet.
Qed.

Lemma quiet_callback p c s : quiet_step s (callback p c s).
Proof. unfold callback. case_match; [apply quiet_resolve|apply quiet_refl]. Qed.

Lemma quiet_foldl {A} (f : State → A → State) (l : list A) :
  (∀ s x, quiet_step s (f s x)) → ∀ s, quiet_step s (foldl f s l).
Proof.
  intros Hf. induction l as [|x l IH]; intros s; simpl; [apply quiet_refl|].
  eapply quiet_trans; [apply Hf|apply IH].
Qed.

Lemma quiet_shutdown s : quiet_step s (shutdown s).
Proof.
  unfold shutdown. cbv zeta. case_match.
  - eapply quiet_trans; [|apply quiet_foldl; intros; apply quiet_trackUnsubscribed].
    case_match; quiet.
  - eapply quiet_trans; [|apply quiet_resolve]. quiet.
Qed.

Lemma quiet_close s : quiet_step s (close s).
Proof. unfold close. case_match; quiet. Qed.

Lemma quiet_on_pause r s : quiet_step s (on_pause r s).
Proof. unfold on_pause. cbv zeta. quiet. Qed.

Lemma quiet_on_start rec s : quiet_step s (on_start rec s).
Proof. unfold on_start. cbv zeta. quiet. Qed.

Lemma quiet_on_trackUnsubscribed track p s :
  quiet_step s (on_trackUnsubscribed track p s).
Proof.
  unfold on_trackUnsubscribed.
  case_match; try apply quiet_refl;
    (eapply quiet_trans; [|apply quiet_trackUnsubscribed]); quiet.
Qed.

Lemma quiet_on_resize track who s : quiet_step s (on_resize track who s).
Proof.
  unfold on_resize. eapply quiet_trans; [|apply quiet_trackUnsubscribed]. quiet.
Qed.

Lemma quiet_on_disconnected e s : quiet_step s (on_disconnected e s).
Proof. unfold on_disconnected. cbv zeta. quiet. Qed.

Lemma quiet_on_room_ended s : quiet_step s (on_room_ended s).
Proof. unfold on_room_ended. cbv zeta. quiet. Qed.

Lemma quiet_setTimeout ms s : quiet_step s (setTimeout ms s).2.
Proof. unfold setTimeout. simpl. quiet. Qed.

Lemma quiet_clearTimeout id s : quiet_step s (clearTimeout id s).
Proof. unfold clearTimeout. quiet. Qed.

Lemma quiet_with_participants f s : quiet_step s (with_participants f s).
Proof.
  unfold with_participants. case_match; [|apply quiet_refl].
  apply quiet_same; [|done]. unfold files_view. simpl. by rewrite_hyps.
Qed.

Lemma quiet_on_participantConnected p s :
  quiet_step s (on_participantConnected p s).
Proof.
  unfold on_participantConnected. cbv zeta. case_match.
  - eapply quiet_trans; [|apply quiet_same; reflexivity].
    eapply quiet_trans; [|apply quiet_clearTimeout]. quiet.
  - quiet.
Qed.

Lemma quiet_on_participantDisconnected p s :
  quiet_step s (on_participantDisconnected p s).
Proof.
  unfold on_participantDisconnected. cbv zeta. case_match; [|quiet].
  unfold setTimeout. quiet.
Qed.

(** ** Strings and paths *)

Lemma string_app_inj_r (t s1 s2 : string) : s1 +:+ t = s2 +:+ t → s1 = s2.
Proof.
  revert s2. induction s1 as [|a s1 IH]; intros [|b s2] Heq.
  - done.
  - apply (f_equal String.length) in Heq.
    rewrite !string_length_app in Heq. cbn [String.length] in Heq. lia.
  - apply (f_equal String.length) in Heq.
    rewrite !string_length_app in Heq. cbn [String.length] in Heq. lia.
  - change (String a (s1 +:+ t) = String b (s2 +:+ t)) in Heq.
    injection Heq as -> Heq. f_equal. by apply IH.
Qed.

Lemma recording_path_inj (name name' key key' : string) (n n' : nat) :
  recording_path name key n = recording_path name' key' n' →
  name = name' ∧ key = key' ∧ n = n'.
Proof.
  unfold recording_path. intros [= -> -> Hn]. split_and!; try done.
  apply string_app_inj_r in Hn. by apply (inj pretty) in Hn.
Qed.

(** ** The files through every step *)

Lemma files_inv_quiet (s s' : State) :
  quiet_step s s' → files_inv s → files_inv s'.
Proof.
  unfold files_inv, quiet_step, files_view.
  intros [[= Hrm Hc Hp Hl] (evs & -> & Hq)] Hinv.
  rewrite Hc, Hp, Hl. apply files_ok_quiet; [done|].
  destruct Hinv as [H1 H2 H3 H4 H5]. constructor; try done.
  intros fp Hin. destruct (H1 fp Hin) as (r & key & n & Hr & Hfp & Hn).
  rewrite Hr in Hrm. simpl in Hrm.
  destruct (room s') as [r'|]; [|done]. simpl in Hrm. injection Hrm as Hrm.
  exists r', key, n. by rewrite Hrm.
Qed.

Lemma files_inv_startRecorder (track : Track) (who : string) (s : State) :
  files_inv s → files_inv (startRecorder track who s).
Proof.
  intros Hinv. unfold startRecorder. cbv zeta.
  set (key := who +:+ "." +:+ kind_name (track_kind track)).
  set (mime := kind_name (track_kind track) +:+ "/webm;codecs=" +:+ _).
  destruct (room s) as [rm|] eqn:Hroom; simpl; rewrite Hroom.
  - (* a recorder is created *)
    unfold files_inv in *. simpl. rewrite Hroom.
    rewrite fmap_filepath_alter by (by intros []).
    rewrite fmap_app. simpl.
    set (c := default 0 (subscriptionCounts s !! key)) in *.
    destruct Hinv as [H1 H2 H3 H4 H5].
    assert (Hcreated : ∀ t0 m1 m2 m3 fp mp,
              created (((((t0 ++ [EInfo m1]) ++ [EInfo m2])
                         ++ [ECreateRecording fp mp mime]) ++ [EInfo m3])) fp).
    { intros. exists mp, mime. set_solver. }
    constructor.
    + intros fp Hin. apply elem_of_app in Hin as [Hin|Hin].
      * destruct (H1 fp Hin) as (r & k & n & Hr & Hfp & Hn).
        exists r, k, n. split; [congruence|]. split; [done|].
        destruct (decide (key = k)) as [<-|Hne].
        -- rewrite lookup_insert_eq. simpl. fold c in Hn. lia.
        -- by rewrite lookup_insert_ne.
      * apply list_elem_of_singleton in Hin as ->.
        exists rm, key, (c + 1). rewrite lookup_insert_eq. simpl.
        split_and!; try done; lia.
    + apply NoDup_app. split_and!; [done| |apply NoDup_singleton].
      intros fp Hin Hnew. apply list_elem_of_singleton in Hnew. subst fp.
      destruct (H1 _ Hin) as (r & k & n & Hr & Hfp & Hn).
      rewrite Hroom in Hr. injection Hr as <-.
      apply recording_path_inj in Hfp as (_ & <- & <-).
      fold c in Hn. lia.
    + intros fp Hin. apply elem_of_app in Hin as [Hin|Hin].
      * rewrite <- !app_assoc. by apply created_app, H3.
      * apply list_elem_of_singleton in Hin as ->. apply Hcreated.
    + intros fp Hin. rewrite <- !app_assoc. by apply created_app, H4.
    + rewrite <- !app_assoc. apply metadata_first_app; [done|].
      repeat constructor; intros ???; discriminate.
  - (* no room: an exception *)
    unfold files_inv in *. simpl. rewrite Hroom.
    destruct Hinv as [H1 H2 H3 H4 H5].
    assert (Hnil : filepath <$> heap s = []).
    { destruct (filepath <$> heap s) as [|fp l]; [done|].
      destruct (H1 fp) as (r & _ & _ & Hr & _); [set_solver|].
      by rewrite Hroom in Hr. }
    rewrite Hnil in *. constructor.
    + intros fp Hin. by apply elem_of_nil in Hin.
    + constructor.
    + intros fp Hin. by apply elem_of_nil in Hin.
    + intros fp Hin. rewrite <- !app_assoc. by apply created_app, H4.
    + rewrite <- !app_assoc. apply metadata_first_app; [done|].
      repeat constructor; intros ???; discriminate.
Qed.

Lemma metadata_first_append t fp chunk start :
  metadata_first t → created t fp →
  metadata_first (t ++ [EAppendRecording fp chunk start]).
Proof.
  intros Ht Hc. apply metadata_first_app; [done|].
  constructor; [|constructor]. by intros ? ? ? [= <- _ _].
Qed.

Lemma files_inv_handle_data h rec blob s :
  filepath rec ∈ filepath <$> heap s →
  files_inv s → files_inv (handle_data h rec blob s).
Proof.
  revert s. induction h as [|orig IH]; intros s Hin Hinv; simpl.
  - case_match.
    + eapply files_inv_quiet; [|done]. quiet.
    + destruct Hinv as [H1 H2 H3 H4 H5]. unfold files_inv. simpl.
      rewrite fmap_app. constructor; try done.
      intros fp Hfp. apply elem_of_app in Hfp as [Hfp|Hfp]; [by apply H4|].
      apply list_elem_of_singleton in Hfp as ->. by apply H3.
  - case_match; [done|]. apply IH; [done|].
    eapply files_inv_quiet; [|done]. quiet.
Qed.

Lemma files_inv_fire_dataavailable r s :
  files_inv s → files_inv (fire_dataavailable r s).
Proof.
  intros Hinv. unfold fire_dataavailable.
  destruct (heap s !! r) as [rec|] eqn:Hr; [|done]. cbv zeta.
  apply files_inv_handle_data.
  - simpl. rewrite fmap_filepath_alter by (by intros []).
    apply list_elem_of_fmap. exists rec. split; [done|].
    by eapply list_elem_of_lookup_2.
  - eapply files_inv_quiet; [|done]. quiet.
Qed.

Lemma files_inv_run_callback cb count s :
  files_inv s → files_inv (run_callback cb count s).
Proof.
  intros Hinv. destruct cb; simpl; [done| |by apply files_inv_startRecorder].
  eapply files_inv_quiet; [apply quiet_callback|done].
Qed.

Lemma files_inv_on_stop rec cb s : files_inv s → files_inv (on_stop rec cb s).
Proof.
  intros Hinv. unfold on_stop. cbv zeta. apply files_inv_run_callback.
  eapply files_inv_quiet; [|done]. quiet.
Qed.

Lemma files_inv_run_task t s : files_inv s → files_inv (run_task t s).
Proof.
  intros Hinv. destruct t as [r|r|r|r]; simpl.
  - case_match; [|done]. eapply files_inv_quiet; [apply quiet_on_start|done].
  - eapply files_inv_quiet; [|done]. repeat case_match; try quiet.
    eapply quiet_trans; [|apply quiet_on_pause]. quiet.
  - by apply files_inv_fire_dataavailable.
  - repeat case_match; try apply files_inv_on_stop;
      apply files_inv_fire_dataavailable;
      (eapply files_inv_quiet; [|done]); quiet.
Qed.

Lemma files_inv_on_load l rest now s :
  loads s = l :: rest → files_inv s → files_inv (on_load l now (set_loads rest s)).
Proof.
  intros Hl [H1 H2 H3 H4 H5]. rewrite Hl in H4.
  assert (Hc : created (trace s) (load_filepath l)).
  { apply H4. rewrite fmap_cons. apply list_elem_of_here. }
  unfold on_load. cbv zeta. case_match.
  - unfold files_inv. simpl. rewrite <- app_assoc. constructor; try done.
    + intros fp Hin. by apply created_app, H3.
    + intros fp Hin. apply created_app, H4.
      rewrite fmap_cons. by apply list_elem_of_further.
    + rewrite app_assoc. apply metadata_first_append.
      * apply metadata_first_app; [done|].
        repeat constructor; intros ???; discriminate.
      * by apply created_app.
  - unfold files_inv. simpl. constructor; try done.
    + intros fp Hin. by apply created_app, H3.
    + intros fp Hin. apply created_app, H4.
      rewrite fmap_cons. by apply list_elem_of_further.
    + apply metadata_first_app; [done|].
      repeat constructor; intros ???; discriminate.
Qed.

Lemma files_inv_record track p s : files_inv s → files_inv (record track p s).
Proof.
  intros Hinv. unfold record. cbv zeta. apply files_inv_startRecorder.
  eapply files_inv_quiet; [|done]. quiet.
Qed.

Lemma files_inv_trackSubscribed track p s :
  files_inv s → files_inv (trackSubscribed track p s).
Proof.
  intros Hinv. unfold trackSubscribed.
  case_match; try done; by apply files_inv_record.
Qed.

Lemma files_inv_on_trackSubscribed track p s :
  files_inv s → files_inv (on_trackSubscribed track p s).
Proof.
  intros Hinv. unfold on_trackSubscribed.
  case_match; try done; apply files_inv_trackSubscribed;
    (eapply files_inv_quiet; [|done]); quiet.
Qed.

Lemma files_inv_foldl {A} (f : State → A → State) (l : list A) :
  (∀ s x, files_inv s → files_inv (f s x)) →
  ∀ s, files_inv s → files_inv (foldl f s l).
Proof.
  intros Hf. induction l as [|x l IH]; intros s Hinv; simpl; [done|].
  by apply IH, Hf.
Qed.

Lemma files_inv_main connectedRoom s :
  room s = None → files_inv s → files_inv (main connectedRoom s).
Proof.
  intros Hroom Hinv. unfold main. cbv zeta.
  set (s1 := info _ (set_room _ (debug _ s))).
  assert (Hs1 : files_inv s1).
  { destruct Hinv as [H1 H2 H3 H4 H5].
    assert (Hnil : filepath <$> heap s = []).
    { destruct (filepath <$> heap s) as [|fp l]; [done|].
      destruct (H1 fp) as (r & _ & _ & Hr & _); [set_solver|].
      by rewrite Hroom in Hr. }
    unfold files_inv. simpl. rewrite Hnil. constructor.
    - intros fp Hin. by apply elem_of_nil in Hin.
    - constructor.
    - intros fp Hin. by apply elem_of_nil in Hin.
    - intros fp Hin. rewrite <- app_assoc. by apply created_app, H4.
    - rewrite <- app_assoc. apply metadata_first_app; [done|].
      repeat constructor; intros ???; discriminate. }
  clearbody s1. case_match.
  - eapply files_inv_quiet; [apply quiet_close|done].
  - eapply files_inv_quiet; [apply quiet_same; reflexivity|].
    case_match.
    + eapply files_inv_quiet; [|done]. unfold setTimeout. quiet.
    + apply files_inv_foldl.
      * intros s2 p. apply files_inv_foldl. intros s3 track.
        apply files_inv_trackSubscribed.
      * eapply files_inv_quiet; [|done]. quiet.
Qed.

Lemma files_inv_step a s : files_inv s → files_inv (step a s).
Proof.
  intros Hinv. destruct a; simpl.
  - case_match; [done|]. by apply files_inv_main.
  - eapply files_inv_quiet; [apply quiet_shutdown|done].
  - eapply files_inv_quiet; [apply quiet_close|done].
  - case_match; [|done]. eapply files_inv_quiet; [|done].
    eapply quiet_trans;
      [apply quiet_with_participants|apply quiet_on_participantConnected].
  - case_match; [|done]. eapply files_inv_quiet; [|done].
    eapply quiet_trans;
      [apply quiet_with_participants|apply quiet_on_participantDisconnected].
  - case_match; [|done]. by apply files_inv_on_trackSubscribed.
  - case_match; [|done].
    eapply files_inv_quiet; [apply quiet_on_trackUnsubscribed|done].
  - case_match; [|done]. eapply files_inv_quiet; [|done].
    eapply quiet_trans; [|apply quiet_on_disconnected]. quiet.
  - case_match; [|done]. eapply files_inv_quiet; [|done].
    eapply quiet_trans; [|apply quiet_on_room_ended]. quiet.
  - repeat case_match; try done.
    eapply files_inv_quiet; [apply quiet_on_resize|done].
  - case_match; [|done]. eapply files_inv_quiet; [|done].
    apply (quiet_trans _ (clearTimeout id s)); [apply quiet_clearTimeout|quiet].
  - destruct (tasks s) as [|t rest] eqn:Ht; [done|].
    apply files_inv_run_task. eapply files_inv_quiet; [|done]. quiet.
  - destruct (loads s) as [|l rest] eqn:Hl; [done|].
    by apply files_inv_on_load.
  - repeat case_match; try done. eapply files_inv_quiet; [|done]. quiet.
  - repeat case_match; try done; by apply files_inv_fire_dataavailable.
  - repeat case_match; try done; (eapply files_inv_quiet; [|done]); quiet.
Qed.

Lemma files_inv_initial h : files_inv (initial h).
Proof.
  unfold files_inv, initial. simpl. constructor.
  - intros fp Hin. by apply elem_of_nil in Hin.
  - constructor.
  - intros fp Hin. by apply elem_of_nil in Hin.
  - intros fp Hin. by apply elem_of_nil in Hin.
  - intros i ? ? ? Hi. by rewrite lookup_nil in Hi.
Qed.

Lemma files_inv_run actions s : files_inv s → files_inv (run actions s).
Proof.
  revert s. induction actions as [|a actions IH]; intros s Hinv; [done|].
  rewrite run_cons. by apply IH, files_inv_step.
Qed.

(** ** The restart on a resize *)


Lemma alter_last {A} (f : A → A) (l : list A) (x : A) :
  alter f (length l) (l ++ [x]) = l ++ [f x].
Proof.
  induction l as [|y l IH]; [done|]. simpl. f_equal. apply IH.
Qed.




(** The restart on that example: the camera's second recorder writes to
    file number 2 of the same directory. *)
Example resize_example :
  let s := run [AResize 0; ATask; ATask; ATask] Examples.both_started in
  (filepath <$> heap s)
  = [["recordings"; "demo"; "alice.audio"; "1.webm"];
     ["recordings"; "demo"; "alice.video"; "1.webm"];
     ["recordings"; "demo"; "alice.video"; "2.webm"]]
  ∧ (state <$> heap s) = [recording; inactive; recording]
  ∧ recorders s = [("a1", 0); ("v1", 2)]
  ∧ tasks s = [TStart 2].
Proof. vm_compute. by repeat split. Qed.

(** ** Unsubscribing twice *)

Lemma Map_delete_idemp (k : string) (m : list (string * nat)) :
  Map_delete k (Map_delete k m) = Map_delete k m.
Proof.
  induction m as [|[k' v] m IH]; simpl; [done|].
  destruct (decide (k' = k)) as [->|Hne]; [done|].
  simpl. rewrite decide_False by done. by rewrite IH.
Qed.

Lemma recorders_trackUnsubscribed (t : string) (cb : StopCallback) (s : State) :
  recorders (trackUnsubscribed t cb s) = Map_delete t (recorders s).
Proof.
  destruct (trackUnsubscribed_cases t s) as [(r & rec & Hget & Hrec & Hst)|Hmiss].
  - by rewrite (trackUnsubscribed_hit _ _ _ _ _ Hget Hrec Hst).
  - by rewrite (trackUnsubscribed_miss _ _ _ Hmiss).
Qed.

(** X8.  Unsubscribing a track a second time, whatever happened in
    between to other tracks' entries, finds no recorder: the call logs
    the error and nothing else changes, so its continuation is dropped
    (a second resize during a restart does not restart twice). *)
Theorem unsubscribe_twice (t : string) (cb cb' : StopCallback) (s : State) :
  let s1 := trackUnsubscribed t cb s in
  let s2 := trackUnsubscribed t cb' s1 in
  trace s2 = trace s1 ++ [EInfo ("Unsubscribe from " +:+ t);
                          EError (not_found_message t)]
  ∧ recorders s2 = recorders s1 ∧ heap s2 = heap s1 ∧ tasks s2 = tasks s1
  ∧ recorderCount s2 = recorderCount s1 ∧ promises s2 = promises s1
  ∧ subscriptionCounts s2 = subscriptionCounts s1.
Proof.
  intros s1 s2. subst s2.
  assert (Hmiss : ¬ registered_recording t s1).
  { intros (r & rec & Hget & _). unfold s1 in Hget.
    by rewrite recorders_trackUnsubscribed, Map_get_delete_eq in Hget. }
  rewrite (trackUnsubscribed_miss _ _ _ Hmiss). simpl.
  rewrite <- app_assoc. split_and!; try done.
  unfold s1. by rewrite recorders_trackUnsubscribed, Map_delete_idemp.
Qed.

(** ** Frames *)

Lemma framed_refl {T} (V : State → T) P s : framed V P s s.
Proof. split; [done|]. exists []. by rewrite app_nil_r. Qed.

Lemma framed_trans {T} (V : State → T) P s1 s2 s3 :
  framed V P s1 s2 → framed V P s2 s3 → framed V P s1 s3.
Proof.
  intros [Hv1 (e1 & Ht1 & Hq1)] [Hv2 (e2 & Ht2 & Hq2)]. split; [congruence|].
  exists (e1 ++ e2). rewrite Ht2, Ht1, <- app_assoc. split; [done|].
  by apply Forall_app.
Qed.

Lemma framed_emit {T} (V : State → T) (P : Event → Prop) e s :
  V (emit e s) = V s → P e → framed V P s (emit e s).
Proof. intros Hv He. split; [done|]. exists [e]. split; [done|]. by constructor. Qed.

Lemma framed_same {T} (V : State → T) P s s' :
  V s' = V s → trace s' = trace s → framed V P s s'.
Proof. intros Hv Ht. split; [done|]. exists []. by rewrite app_nil_r. Qed.

Lemma framed_foldl {T A} (V : State → T) P (f : State → A → State) (l : list A) :
  (∀ s x, framed V P s (f s x)) → ∀ s, framed V P s (foldl f s l).
Proof.
  intros Hf. induction l as [|x l IH]; intros s; simpl; [apply framed_refl|].
  eapply framed_trans; [apply Hf|apply IH].
Qed.

(** Peel the outermost operation off the state on the right; [upd]
    shows that a change of one recorder leaves the view alone. *)
Ltac framed_peel upd :=
  lazymatch goal with
  | |- framed _ _ ?s ?s => apply framed_refl
  | |- framed _ _ _ (match ?x with _ => _ end) => destruct x eqn:?
  | |- framed ?V ?P _ (emit _ ?x) =>
      apply (framed_trans V P _ x);
      [|apply framed_emit; [reflexivity|simpl; unfold not_disconnect; done]]
  | |- framed ?V ?P _ (update_recorder _ _ ?x) =>
      apply (framed_trans V P _ x); [|apply framed_same; [upd|reflexivity]]
  | |- framed ?V ?P _ (_ ?x) =>
      apply (framed_trans V P _ x); [|apply framed_same; reflexivity]
  end.

Ltac framed_go upd :=
  unfold uncaught, createRecording, appendRecording, parentClose, queue_task,
    info, error, debug;
  repeat framed_peel upd.

(** ** One disconnect *)

Ltac still := framed_go ltac:(reflexivity).

Lemma still_trackUnsubscribed t cb s :
  framed connection not_disconnect s (trackUnsubscribed t cb s).
Proof. unfold trackUnsubscribed. cbv zeta. still. Qed.

Lemma still_startRecorder track who s :
  framed connection not_disconnect s (startRecorder track who s).
Proof.
  destruct s. unfold startRecorder, framed, connection. norm.
  destruct room0; simpl; (split; [reflexivity|]);
    rewrite <- ?app_assoc; (eexists; split; [reflexivity|]);
    repeat constructor; done.
Qed.

Lemma still_record track p s :
  framed connection not_disconnect s (record track p s).
Proof.
  unfold record. cbv zeta.
  eapply framed_trans; [|apply still_startRecorder]. still.
Qed.

Lemma still_trackSubscribed track p s :
  framed connection not_disconnect s (trackSubscribed track p s).
Proof.
  unfold trackSubscribed.
  destruct (track_kind track); try apply still_record. apply framed_refl.
Qed.

Lemma still_handle_data h rec blob s :
  framed connection not_disconnect s (handle_data h rec blob s).
Proof.
  revert s. induction h as [|orig IH]; intros s; simpl.
  - case_match; still.
  - case_match; [apply framed_refl|].
    eapply framed_trans; [|apply IH]. still.
Qed.

Lemma still_fire_dataavailable r s :
  framed connection not_disconnect s (fire_dataavailable r s).
Proof.
  unfold fire_dataavailable. destruct (heap s !! r); [|apply framed_refl].
  cbv zeta. eapply framed_trans; [|apply still_handle_data]. still.
Qed.

Lemma disconnected_once_framed s s' :
  framed connection not_disconnect s s' →
  disconnected_once s → disconnected_once s'.
Proof.
  intros [Hv (evs & Ht & Hevs)]. unfold disconnected_once.
  assert (Hd : disconnects (trace s') = disconnects (trace s)).
  { rewrite Ht, disconnects_app.
    assert (disconnects evs = 0); [|lia].
    clear Ht. induction Hevs as [|e evs He Hevs IH]; [done|].
    unfold disconnects in *. simpl. by destruct e. }
  by rewrite Hd, Hv.
Qed.

Lemma disconnected_once_then_disconnect s :
  disconnected_once s → disconnected_once (then_disconnect s).
Proof.
  intros Hinv. unfold then_disconnect.
  destruct (room s) as [rm|] eqn:Hrm; [|done].
  destruct (room_state rm) eqn:Hst; [|done].
  destruct Hinv as [H0|[_ Hc]].
  - right. simpl. unfold connection. simpl. split; [|done].
    rewrite !disconnects_app, H0. by unfold disconnects.
  - unfold connection in Hc. rewrite Hrm in Hc. simpl in Hc. congruence.
Qed.

Lemma disconnected_once_resolve p s :
  disconnected_once s → disconnected_once (resolve p s).
Proof.
  intros Hinv. unfold resolve. repeat case_match; try done.
  apply disconnected_once_then_disconnect.
  eapply disconnected_once_framed; [|done]. still.
Qed.

Lemma disconnected_once_run_callback cb count s :
  disconnected_once s → disconnected_once (run_callback cb count s).
Proof.
  intros Hinv. destruct cb; simpl; [done| |].
  - unfold callback. case_match; [|done]. by apply disconnected_once_resolve.
  - eapply disconnected_once_framed; [apply still_startRecorder|done].
Qed.

Lemma disconnected_once_run_task t s :
  disconnected_once s → disconnected_once (run_task t s).
Proof.
  intros Hinv. destruct t as [r|r|r|r]; simpl.
  - eapply disconnected_once_framed; [|done]. unfold on_start. still.
  - eapply disconnected_once_framed; [|done]. unfold on_pause. still.
  - eapply disconnected_once_framed; [apply still_fire_dataavailable|done].
  - set (s1 := fire_dataavailable r _).
    assert (H1 : disconnected_once s1).
    { eapply disconnected_once_framed; [|exact Hinv]. unfold s1.
      eapply framed_trans; [|apply still_fire_dataavailable]. still. }
    clearbody s1. repeat case_match; try done.
    unfold on_stop. cbv zeta. apply disconnected_once_run_callback.
    eapply disconnected_once_framed; [|done]. still.
Qed.

Lemma disconnected_once_shutdown s :
  disconnected_once s → disconnected_once (shutdown s).
Proof.
  intros Hinv. unfold shutdown. cbv zeta. case_match.
  - eapply disconnected_once_framed; [|done].
    eapply framed_trans;
      [|apply framed_foldl; intros; apply still_trackUnsubscribed].
    case_match; still.
  - apply disconnected_once_resolve.
    eapply disconnected_once_framed; [|done]. still.
Qed.

Lemma disconnected_once_main connectedRoom s :
  room s = None → disconnected_once s → disconnected_once (main connectedRoom s).
Proof.
  intros Hroom Hinv.
  assert (H0 : disconnects (trace s) = 0).
  { destruct Hinv as [H0|[_ Hc]]; [done|].
    unfold connection in Hc. by rewrite Hroom in Hc. }
  unfold main. cbv zeta.
  set (s1 := info _ (set_room _ (debug _ s))).
  assert (H1 : disconnected_once s1).
  { left. unfold s1. simpl. rewrite !disconnects_app, H0. by unfold disconnects. }
  clearbody s1. destruct (shouldClose s1).
  - eapply disconnected_once_framed; [|done]. unfold close. still.
  - eapply disconnected_once_framed; [|exact H1].
    lazymatch goal with
    | |- framed ?V ?P _ (set_listening _ ?x) =>
        apply (framed_trans V P _ x); [|apply framed_same; reflexivity]
    end.
    destruct (decide (length (room_participants connectedRoom) = 0)).
    + unfold setTimeout. still.
    + eapply framed_trans; [|apply framed_foldl].
      * still.
      * intros s2 participant. apply framed_foldl. intros s3 track.
        apply still_trackSubscribed.
Qed.

Lemma still_with_participants f s :
  framed connection not_disconnect s (with_participants f s).
Proof.
  unfold with_participants. destruct (room s) eqn:Hrm; [|apply framed_refl].
  apply framed_same; [|done]. unfold connection. simpl. by rewrite Hrm.
Qed.

Lemma disconnected_once_step a s :
  disconnected_once s → disconnected_once (step a s).
Proof.
  intros Hinv. destruct a; simpl.
  - case_match; [done|]. by apply disconnected_once_main.
  - by apply disconnected_once_shutdown.
  - eapply disconnected_once_framed; [|done]. unfold close. still.
  - case_match; [|done]. eapply disconnected_once_framed; [|done].
    lazymatch goal with
    | |- framed ?V ?P _ (_ _ ?x) =>
        apply (framed_trans V P _ x); [apply still_with_participants|]
    end.
    unfold on_participantConnected, clearTimeout. still.
  - case_match; [|done]. eapply disconnected_once_framed; [|done].
    lazymatch goal with
    | |- framed ?V ?P _ (_ _ ?x) =>
        apply (framed_trans V P _ x); [apply still_with_participants|]
    end.
    unfold on_participantDisconnected, setTimeout. still.
  - case_match; [|done]. eapply disconnected_once_framed; [|done].
    unfold on_trackSubscribed. case_match; try apply framed_refl;
      (eapply framed_trans; [|apply still_trackSubscribed]); still.
  - case_match; [|done]. eapply disconnected_once_framed; [|done].
    unfold on_trackUnsubscribed. case_match; try apply framed_refl;
      (eapply framed_trans; [|apply still_trackUnsubscribed]); still.
  - case_match; [|done]. eapply disconnected_once_framed; [|done].
    unfold on_disconnected. still.
  - case_match; [|done]. eapply disconnected_once_framed; [|done].
    unfold on_room_ended. still.
  - repeat case_match; try done. eapply disconnected_once_framed; [|done].
    unfold on_resize. eapply framed_trans; [|apply still_trackUnsubscribed].
    still.
  - case_match; [|done]. eapply disconnected_once_framed; [|done].
    unfold clearTimeout. still.
  - destruct (tasks s) as [|t rest]; [done|]. apply disconnected_once_run_task.
    eapply disconnected_once_framed; [|done]. still.
  - destruct (loads s) as [|l rest]; [done|].
    eapply disconnected_once_framed; [|done]. unfold on_load. still.
  - repeat case_match; done.
  - repeat case_match; try done.
    eapply disconnected_once_framed; [apply still_fire_dataavailable|done].
  - repeat case_match; try done; (eapply disconnected_once_framed; [|done]); still.
Qed.

(** X9.  The page disconnects from the room at most once, however often
    and in whatever circumstances [shutdown()] is called; and when it
    has, the room is in the disconnected state. *)
Theorem disconnects_at_most_once (h : bool) (actions : list Action) :
  let s := run actions (initial h) in
  disconnects (trace s) = 0
  ∨ (disconnects (trace s) = 1 ∧ connection s = Some disconnected).
Proof.
  intros s. unfold s.
  generalize (initial h), (or_introl eq_refl : disconnected_once (initial h)).
  induction actions as [|a actions IH]; intros s0 H0; [done|].
  rewrite run_cons. by apply IH, disconnected_once_step.
Qed.

(** ** What disconnects the room *)



(** ** The hand-over *)






(** ** The steps that disconnect *)










(** ** The layout of the recordings *)

Lemma layout_view_update r f s :
  (∀ x, onstop (f x) = onstop x) →
  layout_view (update_recorder r f s) = layout_view s.
Proof.
  intros Hf. unfold layout_view. simpl. by rewrite fmap_onstop_alter.
Qed.

Ltac plain :=
  framed_go ltac:(apply layout_view_update; by intros []).

Lemma layout_framed s s' :
  framed layout_view not_create s s' → layout_inv s → layout_inv s'.
Proof.
  unfold framed, layout_view. intros [[= Hn He Hh] (evs & Ht & Hevs)] [H1 H2 H3].
  constructor.
  - intros e Hin. rewrite Ht in Hin. apply elem_of_app in Hin as [Hin|Hin].
    + destruct (H1 e Hin) as [Hc|(rm & Hrm & Hc)]; [by left|right].
      rewrite Hrm in Hn. destruct (room s') as [rm'|]; [|done].
      simpl in Hn. injection Hn as Hn. exists rm'. by rewrite Hn.
    + left. rewrite Forall_forall in Hevs. by apply Hevs.
  - by rewrite He.
  - by rewrite Hh.
Qed.

Lemma layout_startRecorder track who s :
  track_kind track ≠ data →
  layout_inv s → layout_inv (startRecorder track who s).
Proof.
  intros Hk Hinv. unfold startRecorder. cbv zeta.
  destruct (room _) as [rm|] eqn:Hroom; simpl in Hroom;
    [|by apply (layout_framed s); [plain|]].
  destruct Hinv as [H1 H2 H3]. constructor.
  - simpl. rewrite Hroom. intros e Hin.
    rewrite !elem_of_app, !list_elem_of_singleton in Hin.
    destruct Hin as [[[[Hin| ->]| ->]| ->]| ->]; try (by left).
    + destruct (H1 e Hin) as [Hc|(rm' & Hrm & Hc)]; [by left|right].
      exists rm. split; [done|]. congruence.
    + right. exists rm. split; [done|]. simpl.
      exists who, (track_kind track),
        (default 0 (subscriptionCounts s !! (who +:+ "." +:+ kind_name (track_kind track))) + 1).
      split_and!; [lia|done|done|].
      destruct (track_kind track); [left|right|done]; (split; [done|]).
      * reflexivity.
      * destruct (h264 s); [left|right]; reflexivity.
  - done.
  - simpl. rewrite fmap_onstop_alter by (by intros []). rewrite fmap_app.
    apply Forall_app. split; [done|]. by repeat constructor.
Qed.

Lemma layout_trackUnsubscribed t cb s :
  restarts_video (Some cb) →
  layout_inv s → layout_inv (trackUnsubscribed t cb s).
Proof.
  intros Hcb Hinv. unfold trackUnsubscribed. cbv zeta.
  set (s1 := set_recorders _ _).
  assert (H1 : layout_inv s1) by (apply (layout_framed s); [unfold s1; plain|done]).
  clearbody s1.
  destruct (Map_get t _) as [r|]; [|by apply (layout_framed s1); [plain|]].
  destruct (heap s1 !! r) as [rec|] eqn:Hrec;
    [|by apply (layout_framed s1); [plain|]].
  destruct (state rec); try (by apply (layout_framed s1); [plain|]).
  destruct H1 as [Ha Hb Hc]. constructor.
  - simpl. intros e Hin. apply elem_of_app in Hin as [Hin|Hin]; [by apply Ha|].
    apply list_elem_of_singleton in Hin as ->. by left.
  - done.
  - simpl. rewrite fmap_onstop_alter by (by intros []).
    rewrite (alter_at _ _ _ _ Hrec), list_fmap_insert. simpl.
    apply Forall_insert; done.
Qed.

Lemma layout_then_disconnect s :
  framed layout_view not_create s (then_disconnect s).
Proof.
  unfold then_disconnect. destruct (room s) as [rm|] eqn:Hrm; [|apply framed_refl].
  destruct (room_state rm); [|apply framed_refl].
  lazymatch goal with
  | |- framed ?V ?P _ (set_room _ ?x) => apply (framed_trans V P _ x)
  end.
  - plain.
  - apply framed_same; [|done]. unfold layout_view. simpl. by rewrite Hrm.
Qed.

Lemma layout_resolve q s : framed layout_view not_create s (resolve q s).
Proof.
  unfold resolve. repeat case_match; try apply framed_refl.
  eapply framed_trans; [|apply layout_then_disconnect]. plain.
Qed.

Lemma layout_run_callback cb count s :
  restarts_video (Some cb) →
  layout_inv s → layout_inv (run_callback cb count s).
Proof.
  intros Hcb Hinv. destruct cb as [|q|track who]; simpl; [done| |].
  - apply (layout_framed s); [|done]. unfold callback.
    case_match; [apply layout_resolve|apply framed_refl].
  - apply layout_startRecorder; [|done]. simpl in Hcb. by rewrite Hcb.
Qed.

Lemma layout_handle_data h rec blob s :
  framed layout_view not_create s (handle_data h rec blob s).
Proof.
  revert s. induction h as [|orig IH]; intros s; simpl.
  - case_match; plain.
  - case_match; [apply framed_refl|].
    eapply framed_trans; [|apply IH]. plain.
Qed.

Lemma layout_fire_dataavailable r s :
  framed layout_view not_create s (fire_dataavailable r s).
Proof.
  unfold fire_dataavailable. destruct (heap s !! r); [|apply framed_refl].
  cbv zeta. eapply framed_trans; [|apply layout_handle_data]. plain.
Qed.

Lemma layout_run_task t s : layout_inv s → layout_inv (run_task t s).
Proof.
  intros Hinv. destruct t as [r|r|r|r]; simpl.
  - apply (layout_framed s); [|done]. unfold on_start. plain.
  - apply (layout_framed s); [|done]. unfold on_pause. plain.
  - apply (layout_framed s); [apply layout_fire_dataavailable|done].
  - set (s1 := fire_dataavailable r _).
    assert (H1 : layout_inv s1).
    { apply (layout_framed s); [|done]. unfold s1.
      eapply framed_trans; [|apply layout_fire_dataavailable]. plain. }
    clearbody s1.
    destruct (heap s1 !! r) as [rec|] eqn:Hrec; [|done].
    destruct (onstop rec) as [cb|] eqn:Hcb; [|done].
    unfold on_stop. cbv zeta. apply layout_run_callback.
    + pose proof (layout_heap s1 H1) as Hh. rewrite Forall_forall in Hh.
      rewrite <- Hcb. apply Hh. apply list_elem_of_fmap. exists rec.
      split; [done|]. by eapply list_elem_of_lookup_2.
    + apply (layout_framed s1); [plain|done].
Qed.

Lemma layout_record track p s :
  track_kind track ≠ data → layout_inv s → layout_inv (record track p s).
Proof.
  intros Hk Hinv. unfold record. cbv zeta. apply layout_startRecorder; [done|].
  destruct (track_kind track) eqn:Hkind; [done| |done].
  set (s1 := match videos s !! _ with Some _ => _ | None => _ end).
  assert (H1 : layout_inv s1)
    by (apply (layout_framed s); [unfold s1; plain|done]).
  clearbody s1. destruct H1 as [Ha Hb Hc]. constructor.
  - simpl. intros e Hin. apply elem_of_app in Hin as [Hin|Hin]; [by apply Ha|].
    apply list_elem_of_singleton in Hin as ->. by left.
  - simpl. apply Forall_app. split; [done|]. by repeat constructor.
  - done.
Qed.

Lemma layout_trackSubscribed track p s :
  layout_inv s → layout_inv (trackSubscribed track p s).
Proof.
  intros Hinv. unfold trackSubscribed.
  destruct (track_kind track) eqn:Hk; [| |done];
    (apply layout_record; [by rewrite Hk|done]).
Qed.

Lemma layout_foldl {A} (f : State → A → State) (l : list A) :
  (∀ s x, layout_inv s → layout_inv (f s x)) →
  ∀ s, layout_inv s → layout_inv (foldl f s l).
Proof.
  intros Hf. induction l as [|x l IH]; intros s Hs; simpl; [done|].
  by apply IH, Hf.
Qed.

Lemma layout_main connectedRoom s :
  room s = None → layout_inv s → layout_inv (main connectedRoom s).
Proof.
  intros Hroom [H1 H2 H3]. unfold main. cbv zeta.
  set (s1 := info _ (set_room _ (debug _ s))).
  assert (Hs1 : layout_inv s1).
  { constructor; [|done|done]. unfold s1. simpl. intros e Hin. left.
    rewrite !elem_of_app, !list_elem_of_singleton in Hin.
    destruct Hin as [[Hin| ->]| ->]; [|done|done].
    destruct (H1 e Hin) as [Hc|(rm & Hrm & _)]; [done|congruence]. }
  clearbody s1. destruct (shouldClose s1).
  - apply (layout_framed s1); [|done]. unfold close. plain.
  - lazymatch goal with
    | |- layout_inv (set_listening _ ?x) =>
        apply (layout_framed x); [apply framed_same; reflexivity|]
    end.
    destruct (decide (length (room_participants connectedRoom) = 0)).
    + apply (layout_framed s1); [|done]. unfold setTimeout. plain.
    + apply layout_foldl.
      * intros s2 participant. apply layout_foldl. intros s3 track.
        apply layout_trackSubscribed.
      * apply (layout_framed s1); [plain|done].
Qed.

Lemma layout_with_participants f s :
  framed layout_view not_create s (with_participants f s).
Proof.
  unfold with_participants. destruct (room s) eqn:Hrm; [|apply framed_refl].
  apply framed_same; [|done]. unfold layout_view. simpl. by rewrite Hrm.
Qed.

Lemma layout_shutdown s : layout_inv s → layout_inv (shutdown s).
Proof.
  intros Hinv. unfold shutdown. cbv zeta. case_match.
  - apply layout_foldl.
    + intros s2 [t r] H2. by apply layout_trackUnsubscribed.
    + apply (layout_framed s); [|done]. case_match; plain.
  - apply (layout_framed s); [|done].
    eapply framed_trans; [|apply layout_resolve]. plain.
Qed.

Lemma layout_step a s : layout_inv s → layout_inv (step a s).
Proof.
  intros Hinv. destruct a; simpl.
  - case_match; [done|]. by apply layout_main.
  - by apply layout_shutdown.
  - apply (layout_framed s); [|done]. unfold close. plain.
  - case_match; [|done]. apply (layout_framed s); [|done].
    lazymatch goal with
    | |- framed ?V ?P _ (_ _ ?x) =>
        apply (framed_trans V P _ x); [apply layout_with_participants|]
    end.
    unfold on_participantConnected, clearTimeout. plain.
  - case_match; [|done]. apply (layout_framed s); [|done].
    lazymatch goal with
    | |- framed ?V ?P _ (_ _ ?x) =>
        apply (framed_trans V P _ x); [apply layout_with_participants|]
    end.
    unfold on_participantDisconnected, setTimeout. plain.
  - case_match; [|done]. unfold on_trackSubscribed.
    case_match; try done; apply layout_trackSubscribed;
      (apply (layout_framed s); [plain|done]).
  - case_match; [|done]. unfold on_trackUnsubscribed.
    case_match; try done; (apply layout_trackUnsubscribed; [done|]);
      (apply (layout_framed s); [plain|done]).
  - case_match; [|done]. apply (layout_framed s); [|done].
    unfold on_disconnected. plain.
  - case_match; [|done]. apply (layout_framed s); [|done].
    unfold on_room_ended. plain.
  - destruct (elements s !! element) as [[[track who]|]|] eqn:Hel; try done.
    unfold on_resize. apply layout_trackUnsubscribed.
    + pose proof (layout_elements s Hinv) as He. rewrite Forall_forall in He.
      apply (He (Some (track, who))). by eapply list_elem_of_lookup_2.
    + apply (layout_framed s); [plain|done].
  - case_match; [|done]. apply (layout_framed s); [|done].
    unfold clearTimeout. plain.
  - destruct (tasks s) as [|t rest]; [done|]. apply layout_run_task.
    apply (layout_framed s); [plain|done].
  - destruct (loads s) as [|l rest]; [done|].
    apply (layout_framed s); [|done]. unfold on_load. plain.
  - repeat case_match; try done. apply (layout_framed s); [plain|done].
  - repeat case_match; try done.
    apply (layout_framed s); [apply layout_fire_dataavailable|done].
  - repeat case_match; try done; (apply (layout_framed s); [plain|done]).
Qed.

Lemma layout_initial h : layout_inv (initial h).
Proof.
  constructor; simpl; [|constructor|constructor].
  intros e Hin. by apply elem_of_nil in Hin.
Qed.

Lemma layout_run actions s : layout_inv s → layout_inv (run actions s).
Proof.
  revert s. induction actions as [|a actions IH]; intros s Hs; [done|].
  rewrite run_cons. by apply IH, layout_step.
Qed.

(** X10.  Every [createRecording] call the page ever makes names a file
    [recordings/<room name>/<identity>.<kind>/<n>.webm] with [n] from 1,
    the metadata file [<n>.json] beside it, and the type of the kind:
    [audio/webm;codecs=opus] for audio, [video/webm;codecs=h264] or
    [video/webm;codecs=vp8] for video.  No recording is ever created for
    a data track. *)
Theorem createRecording_layout (h : bool) (actions : list Action)
    (filepath metapath : list string) (mimeType : string) :
  let s := run actions (initial h) in
  ECreateRecording filepath metapath mimeType ∈ trace s →
  ∃ rm, room s = Some rm
        ∧ recording_call (room_name rm)
            (ECreateRecording filepath metapath mimeType).
Proof.
  intros s Hin.
  pose proof (layout_run actions _ (layout_initial h)) as Hinv.
  by destruct (layout_calls _ Hinv _ Hin) as [Hc|Hc].
Qed.

Lemma createRecording_layout_witness :
  let s := run [AMain (Examples.demo [Examples.alice]); ATask; ATask]
               (initial false) in
  let filepath := ["recordings"; "demo"; "alice.video"; "1.webm"] in
  let metapath := ["recordings"; "demo"; "alice.video"; "1.json"] in
  ECreateRecording filepath metapath "video/webm;codecs=vp8" ∈ trace s
  ∧ ∃ rm, room s = Some rm
          ∧ recording_call (room_name rm)
              (ECreateRecording filepath metapath "video/webm;codecs=vp8").
Proof.
  intros s filepath metapath.
  assert (H : ECreateRecording filepath metapath "video/webm;codecs=vp8"
              ∈ trace s).
  { apply list_elem_of_In. vm_compute. tauto. }
  split; [exact H|].
  exact (createRecording_layout false _ filepath metapath _ H).
Defined.

(** ** The recorders that [main] starts *)

Lemma creations_app t1 t2 : creations (t1 ++ t2) = creations t1 ++ creations t2.
Proof. apply omap_app. Qed.




Lemma started_startRecorder track who s rm :
  room s = Some rm → started 1 s (startRecorder track who s).
Proof.
  intros Hroom. destruct s; simpl in *; subst.
  unfold startRecorder. norm. rewrite alter_last.
  constructor; simpl; try done.
  eexists [_]. split_and!; try done.
  - by repeat constructor.
  - rewrite !creations_app. simpl. by rewrite !app_nil_r.
Qed.








(** ** One announcement per recorder *)

Lemma recorder_files_update r f s :
  (∀ x, filepath (f x) = filepath x) →
  recorder_files (update_recorder r f s) = recorder_files s.
Proof.
  intros Hf. unfold recorder_files. simpl. by rewrite fmap_filepath_alter.
Qed.

Ltac silent :=
  framed_go ltac:(apply recorder_files_update; by intros []).

Lemma announced_framed s s' :
  framed recorder_files not_create s s' → announced s → announced s'.
Proof.
  unfold announced. intros [Hv (evs & Ht & Hevs)] Ha.
  rewrite Hv, Ht, creations_app, Ha.
  assert (Hnil : creations evs = []); [|by rewrite Hnil, app_nil_r].
  clear Ht. induction Hevs as [|e evs He Hevs IH]; [done|].
  unfold creations in *. simpl. by destruct e.
Qed.

Lemma announced_startRecorder track who s :
  announced s → announced (startRecorder track who s).
Proof.
  intros Ha. destruct (room s) as [rm|] eqn:Hroom.
  - destruct (started_startRecorder track who s rm Hroom)
      as [(new & Hh & _ & _ & Hc) _ _ _ _ _ _].
    unfold announced, recorder_files in *. by rewrite Hh, Hc, fmap_app, Ha.
  - apply (announced_framed s); [|done]. unfold startRecorder. cbv zeta.
    simpl. rewrite Hroom. silent.
Qed.

Lemma silent_trackUnsubscribed t cb s :
  framed recorder_files not_create s (trackUnsubscribed t cb s).
Proof. unfold trackUnsubscribed. cbv zeta. silent. Qed.

Lemma silent_then_disconnect s :
  framed recorder_files not_create s (then_disconnect s).
Proof. unfold then_disconnect. silent. Qed.

Lemma silent_resolve q s : framed recorder_files not_create s (resolve q s).
Proof.
  unfold resolve. repeat case_match; try apply framed_refl.
  eapply framed_trans; [|apply silent_then_disconnect]. silent.
Qed.

Lemma silent_handle_data h rec blob s :
  framed recorder_files not_create s (handle_data h rec blob s).
Proof.
  revert s. induction h as [|orig IH]; intros s; simpl.
  - case_match; silent.
  - case_match; [apply framed_refl|].
    eapply framed_trans; [|apply IH]. silent.
Qed.

Lemma silent_fire_dataavailable r s :
  framed recorder_files not_create s (fire_dataavailable r s).
Proof.
  unfold fire_dataavailable. destruct (heap s !! r); [|apply framed_refl].
  cbv zeta. eapply framed_trans; [|apply silent_handle_data]. silent.
Qed.

Lemma announced_run_callback cb count s :
  announced s → announced (run_callback cb count s).
Proof.
  intros Ha. destruct cb as [|q|track who]; simpl; [done| |].
  - apply (announced_framed s); [|done]. unfold callback.
    case_match; [apply silent_resolve|apply framed_refl].
  - by apply announced_startRecorder.
Qed.

Lemma announced_run_task t s : announced s → announced (run_task t s).
Proof.
  intros Ha. destruct t as [r|r|r|r]; simpl.
  - apply (announced_framed s); [|done]. unfold on_start. silent.
  - apply (announced_framed s); [|done]. unfold on_pause. silent.
  - apply (announced_framed s); [apply silent_fire_dataavailable|done].
  - set (s1 := fire_dataavailable r _).
    assert (H1 : announced s1).
    { apply (announced_framed s); [|done]. unfold s1.
      eapply framed_trans; [|apply silent_fire_dataavailable]. silent. }
    clearbody s1. repeat case_match; try done.
    unfold on_stop. cbv zeta. apply announced_run_callback.
    apply (announced_framed s1); [silent|done].
Qed.

Lemma announced_record track p s : announced s → announced (record track p s).
Proof.
  intros Ha. unfold record. cbv zeta. apply announced_startRecorder.
  apply (announced_framed s); [silent|done].
Qed.

Lemma announced_trackSubscribed track p s :
  announced s → announced (trackSubscribed track p s).
Proof.
  intros Ha. unfold trackSubscribed.
  destruct (track_kind track); try done; by apply announced_record.
Qed.

Lemma announced_foldl {A} (f : State → A → State) (l : list A) :
  (∀ s x, announced s → announced (f s x)) →
  ∀ s, announced s → announced (foldl f s l).
Proof.
  intros Hf. induction l as [|x l IH]; intros s Hs; simpl; [done|].
  by apply IH, Hf.
Qed.

Lemma announced_main connectedRoom s :
  announced s → announced (main connectedRoom s).
Proof.
  intros Ha. unfold main. cbv zeta.
  set (s1 := info _ (set_room _ (debug _ s))).
  assert (H1 : announced s1)
    by (apply (announced_framed s); [unfold s1; silent|done]).
  clearbody s1. destruct (shouldClose s1).
  - apply (announced_framed s1); [|done]. unfold close. silent.
  - lazymatch goal with
    | |- announced (set_listening _ ?x) =>
        apply (announced_framed x); [apply framed_same; reflexivity|]
    end.
    destruct (decide (length (room_participants connectedRoom) = 0)).
    + apply (announced_framed s1); [|done]. unfold setTimeout. silent.
    + apply announced_foldl.
      * intros s2 participant. apply announced_foldl. intros s3 track.
        apply announced_trackSubscribed.
      * apply (announced_framed s1); [silent|done].
Qed.

Lemma announced_step a s : announced s → announced (step a s).
Proof.
  intros Ha. destruct a; simpl.
  - case_match; [done|]. by apply announced_main.
  - apply (announced_framed s); [|done]. unfold shutdown. cbv zeta. case_match.
    + eapply framed_trans;
        [|apply framed_foldl; intros; apply silent_trackUnsubscribed].
      case_match; silent.
    + eapply framed_trans; [|apply silent_resolve]. silent.
  - apply (announced_framed s); [|done]. unfold close. silent.
  - case_match; [|done]. apply (announced_framed s); [|done].
    unfold on_participantConnected, with_participants, clearTimeout. silent.
  - case_match; [|done]. apply (announced_framed s); [|done].
    unfold on_participantDisconnected, with_participants, setTimeout. silent.
  - case_match; [|done]. unfold on_trackSubscribed.
    case_match; try done; apply announced_trackSubscribed;
      (apply (announced_framed s); [silent|done]).
  - case_match; [|done]. apply (announced_framed s); [|done].
    unfold on_trackUnsubscribed. case_match; try apply framed_refl;
      (eapply framed_trans; [|apply silent_trackUnsubscribed]); silent.
  - case_match; [|done]. apply (announced_framed s); [|done].
    unfold on_disconnected. silent.
  - case_match; [|done]. apply (announced_framed s); [|done].
    unfold on_room_ended. silent.
  - repeat case_match; try done. apply (announced_framed s); [|done].
    unfold on_resize. eapply framed_trans; [|apply silent_trackUnsubscribed].
    silent.
  - case_match; [|done]. apply (announced_framed s); [|done].
    unfold clearTimeout. silent.
  - destruct (tasks s) as [|t rest]; [done|]. apply announced_run_task.
    apply (announced_framed s); [silent|done].
  - destruct (loads s) as [|l rest]; [done|].
    apply (announced_framed s); [|done]. unfold on_load. silent.
  - repeat case_match; try done. apply (announced_framed s); [silent|done].
  - repeat case_match; try done.
    apply (announced_framed s); [apply silent_fire_dataavailable|done].
  - repeat case_match; try done; (apply (announced_framed s); [silent|done]).
Qed.

(** X12.  In every state the page can reach, the [createRecording] calls
    made so far are exactly one per recorder object, in the order the
    recorders were created, each with the recorder's file; and no file
    was announced twice, so no recording takes the place of an earlier
    one. *)
Theorem one_createRecording_per_recorder (h : bool) (actions : list Action) :
  let s := run actions (initial h) in
  creations (trace s) = filepath <$> heap s
  ∧ NoDup (creations (trace s)).
Proof.
  intros s.
  assert (Ha : announced s).
  { unfold s. generalize (initial h), (eq_refl : announced (initial h)).
    induction actions as [|a actions IH]; intros s0 H0; [done|].
    rewrite run_cons. by apply IH, announced_step. }
  split; [exact Ha|]. rewrite Ha.
  apply (files_distinct _ _ _ _ _
           (files_inv_run actions _ (files_inv_initial h))).
Qed.

(** ** Chunks of a running recorder *)

Lemma capture_chunk (r : nat) (rec : Recorder) (chunk : list byte) (now : Z)
    (s : State) :
  steady r rec s →
  let s' := run (capture r now chunk) s in
  steady r rec s'
  ∧ trace s' = trace s ++ chunk_events rec chunk now
  ∧ heap s' = heap s ∧ tasks s' = tasks s
  ∧ recorderCount s' = recorderCount s ∧ recorders s' = recorders s.
Proof.
  intros (Hrec & Hst & Hg & Hh & Hd & Hl) s'. subst s'.
  assert (Hr : r < length (heap s)) by (by eapply lookup_lt_Some).
  unfold capture, steady, chunk_events.
  destruct rec as [st fname fpath h op os g d]. simpl in *. subst.
  destruct s; simpl in *; subst.
  rewrite run_cons. simpl step. rewrite Hrec. simpl.
  rewrite run_cons. unfold step at 2. norm.
  rewrite list_lookup_alter_eq, Hrec. simpl.
  unfold fire_dataavailable. norm.
  rewrite list_lookup_alter_eq, Hrec. simpl.
  rewrite list_alter_alter_eq.
  rewrite (alter_at _ _ _ _ Hrec). unfold set_gathered. simpl.
  rewrite (list_insert_id _ _ _ Hrec).
  destruct (decide (length chunk = 0)) as [Hc|Hc]; norm.
  - by split_and!.
  - unfold run. simpl. unfold on_load. simpl.
    rewrite arrayBufferToString_eq. norm. rewrite <- app_assoc.
    by split_and!.
Qed.

Lemma appends_app t1 t2 : appends (t1 ++ t2) = appends t1 ++ appends t2.
Proof. apply omap_app. Qed.

Lemma captures_cons r c now chunks :
  captures r ((c, now) :: chunks) = capture r now c ++ captures r chunks.
Proof. reflexivity. Qed.

Lemma captured_events_cons rec c now chunks :
  captured_events rec ((c, now) :: chunks)
  = chunk_events rec c now ++ captured_events rec chunks.
Proof. reflexivity. Qed.

Lemma captures_trace (r : nat) (rec : Recorder) (chunks : list (list byte * Z)) :
  ∀ s, steady r rec s →
    steady r rec (run (captures r chunks) s)
    ∧ trace (run (captures r chunks) s) = trace s ++ captured_events rec chunks
    ∧ heap (run (captures r chunks) s) = heap s
    ∧ recorderCount (run (captures r chunks) s) = recorderCount s.
Proof.
  induction chunks as [|[c now] chunks IH]; intros s Hs.
  - unfold captures, captured_events. simpl. rewrite run_nil, app_nil_r. done.
  - rewrite captures_cons, captured_events_cons, run_app.
    destruct (capture_chunk r rec c now s Hs) as (Hs1 & Ht1 & Hh1 & _ & Hc1 & _).
    simpl in *.
    destruct (IH _ Hs1) as (Hs2 & Ht2 & Hh2 & Hc2).
    split_and!; [done| |congruence|congruence].
    by rewrite Ht2, Ht1, <- app_assoc.
Qed.

(** X14.  A running recorder that delivers its data at every timeslice
    loses nothing and repeats nothing: for each non-empty chunk the page
    makes one [appendRecording] call with the encoding of exactly that
    chunk, in the order of capture, for the recorder's file; an empty
    chunk is reported and skipped.  Decoded and put together, the calls
    carry exactly the bytes captured, and the recorder is left
    recording with nothing gathered. *)
Theorem timeslices_append_in_order (r : nat) (rec : Recorder)
    (chunks : list (list byte * Z)) (s : State) :
  steady r rec s →
  let s' := run (captures r chunks) s in
  steady r rec s'
  ∧ appends (trace s')
    = appends (trace s)
      ++ omap (λ c, if decide (length c.1 = 0) then None
                    else Some (filepath rec, Codec.fromCharCode c.1)) chunks
  ∧ concat ((λ a, Codec.stringToArrayBuffer a.2)
              <$> drop (length (appends (trace s))) (appends (trace s')))
    = concat chunks.*1
  ∧ recorderCount s' = recorderCount s.
Proof.
  intros Hs s'. subst s'.
  destruct (captures_trace r rec chunks s Hs) as (Hs' & Ht & _ & Hc).
  assert (Ha : appends (captured_events rec chunks)
               = omap (λ c, if decide (length c.1 = 0) then None
                            else Some (filepath rec, Codec.fromCharCode c.1))
                      chunks).
  { clear.
    induction chunks as [|[c now] chunks IH]; [done|].
    rewrite captured_events_cons, appends_app, IH. simpl.
    unfold chunk_events. by destruct (decide (length c = 0)). }
  rewrite Ht, appends_app, Ha, drop_app_length.
  split_and!; try done.
  clear. induction chunks as [|[c now] chunks IH]; [done|].
  simpl. destruct (decide (length c = 0)) as [Hc|Hc]; simpl.
  - apply length_zero_iff_nil in Hc as ->. exact IH.
  - rewrite stringToArrayBuffer_fromCharCode. f_equal. exact IH.
Qed.

Lemma timeslices_append_in_order_witness :
  let s := Examples.both_started in
  let rec :=
    {| state := recording;
       filename := "recordings/demo/alice.audio/1.webm";
       filepath := ["recordings"; "demo"; "alice.audio"; "1.webm"];
       ondataavailable := HRecord; onpause := false; onstop := None;
       gathering := true; gathered := [] |} in
  let chunks := [([x01; x02], 1000%Z); ([], 2000%Z); ([x03], 3000%Z)] in
  let s' := run (captures 0 chunks) s in
  steady 0 rec s
  ∧ steady 0 rec s'
  ∧ appends (trace s')
    = appends (trace s)
      ++ omap (λ c, if decide (length c.1 = 0) then None
                    else Some (filepath rec, Codec.fromCharCode c.1)) chunks
  ∧ concat ((λ a, Codec.stringToArrayBuffer a.2)
              <$> drop (length (appends (trace s))) (appends (trace s')))
    = concat chunks.*1
  ∧ recorderCount s' = recorderCount s.
Proof.
  intros s rec chunks s'.
  assert (H : steady 0 rec s) by (vm_compute; repeat split; reflexivity).
  split; [exact H|].
  exact (timeslices_append_in_order 0 rec chunks s H).
Defined.

End SandboxFacts.

(* ===================================================================== *)
(** * Properties of the host                                             *)
(* ===================================================================== *)

Section HostFacts.
Import Host Props.

#[local] Arguments String.append : simpl never.
#[local] Arguments pretty : simpl never.

(** ** Runs of the host *)

Lemma host_run_cons a l s : run (a :: l) s = run l (step a s).
Proof. done. Qed.

Lemma host_run_app l1 l2 s : run (l1 ++ l2) s = run l2 (run l1 s).
Proof. unfold run. by rewrite foldl_app. Qed.

Lemma step_exited a s : exited s ≠ None → step a s = s.
Proof. unfold step. by destruct (exited s). Qed.

Lemma run_exited l s : exited s ≠ None → run l s = s.
Proof.
  intros He. induction l as [|a l IH]; [done|].
  by rewrite host_run_cons, step_exited.
Qed.

Lemma writes_app t1 t2 : writes (t1 ++ t2) = writes t1 ++ writes t2.
Proof. apply omap_app. Qed.

(** Unfold the host's functions down to field updates. *)
Ltac host_unfold :=
  unfold main_rejected, on_signal, serve, main, main_resume, await, close_resume,
    close, close_from_wait, close_from_server, close_from_browser, suspend,
    process_exit, complete, createRecording, appendRecording, appendFile,
    logger_debug, logger_info, logger_error, emit in *.

(** ** The writes the host issues *)

(** A served action issues the write of [issue], and nothing else does. *)
Lemma host_step_writes a s :
  exited s = None →
  writes (trace (step a s)) = writes (trace s) ++ option_list (issue a).
Proof.
  intros He. unfold step. rewrite He.
  destruct a as [c pid| |stack|signal|call now|i|i failure now];
    try destruct call; host_unfold; simpl;
    repeat case_match; simpl;
    rewrite ?writes_app; simpl; rewrite ?app_nil_r; try done.
Qed.

(** The writes of a run are those of the actions served before the
    exit, in order. *)
Lemma host_run_writes l s :
  ∃ k, writes (trace (run l s)) = writes (trace s) ++ omap issue (take k l).
Proof.
  revert s. induction l as [|a l IH]; intros s.
  - exists 0. simpl. by rewrite app_nil_r.
  - destruct (exited s) as [code|] eqn:He.
    + exists 0. rewrite run_exited by (by rewrite He). simpl.
      by rewrite app_nil_r.
    + rewrite host_run_cons. destruct (IH (step a s)) as [k Hk].
      exists (S k). rewrite Hk, host_step_writes by done.
      rewrite <- app_assoc. f_equal. simpl. by destruct (issue a).
Qed.

Lemma omap_split {A B} (f : A → option B) (l : list A) (l1 l2 : list B) (y : B) :
  omap f l = l1 ++ y :: l2 →
  ∃ k1 x k2, l = k1 ++ x :: k2 ∧ omap f k1 = l1 ∧ f x = Some y
             ∧ omap f k2 = l2.
Proof.
  revert l1. induction l as [|a l IH]; intros l1 Heq; simpl in Heq.
  - by destruct l1.
  - destruct (f a) as [b|] eqn:Hfa.
    + destruct l1 as [|b' l1]; simpl in Heq; injection Heq as -> Heq.
      * by exists [], a, l.
      * destruct (IH _ Heq) as (k1 & x & k2 & -> & <- & Hx & <-).
        exists (a :: k1), x, k2. simpl. by rewrite Hfa.
    + destruct (IH _ Heq) as (k1 & x & k2 & -> & <- & Hx & <-).
      exists (a :: k1), x, k2. simpl. by rewrite Hfa.
Qed.

(** In the calls of a page trace, an [appendRecording] has the
    [createRecording] of its file before it. *)
Lemma page_create_first (t : list Sandbox.Event) (before after : list Call)
    (filepath : list string) (chunk : list N) (start : Z) :
  metadata_first t →
  omap page_call t = before ++ CAppendRecording filepath chunk start :: after →
  ∃ metapath mimeType,
    Sandbox.ECreateRecording filepath metapath mimeType ∈ t
    ∧ CCreateRecording filepath metapath mimeType ∈ before.
Proof.
  intros Hfirst Heq.
  apply omap_split in Heq as (t1 & e & t2 & -> & <- & He & _).
  destruct e; simplify_eq/=.
  destruct (Hfirst (length t1) filepath chunk start) as (j & mp & mime & Hj & Hlook).
  { by rewrite list_lookup_middle. }
  rewrite lookup_app_l in Hlook by done.
  apply list_elem_of_lookup_2 in Hlook.
  exists mp, mime. split; [set_solver|].
  apply list_elem_of_omap. by exists (Sandbox.ECreateRecording filepath mp mime).
Qed.

Lemma issued_in_order (t : list Sandbox.Event) (actions : list Action) :
  metadata_first t →
  host_calls actions `prefix_of` omap page_call t →
  metadata_issued_first t (omap issue actions).
Proof.
  intros Hfirst [rest Hrest] before path data start after Heq.
  apply omap_split in Heq as (a1 & a & a2 & -> & <- & Ha & _).
  destruct a as [| | | |call now| |]; try done.
  destruct call; simplify_eq/=.
  unfold host_calls in Hrest. rewrite omap_app in Hrest. simpl in Hrest.
  rewrite <- app_assoc in Hrest. simpl in Hrest.
  destruct (page_create_first _ _ _ _ _ _ Hfirst Hrest)
    as (mp & mime & Hin & Hcall).
  apply list_elem_of_omap in Hcall as (a & Ha & Hcall).
  destruct a as [| | | |call now'| |]; simplify_eq/=.
  exists filepath, mp, mime, now'. split_and!; [done|done|].
  apply list_elem_of_omap. by exists (ACall (CCreateRecording filepath mp mime) now').
Qed.

Lemma host_calls_take k actions :
  host_calls (take k actions) `prefix_of` host_calls actions.
Proof.
  exists (host_calls (drop k actions)). unfold host_calls.
  by rewrite <- omap_app, take_drop.
Qed.

(** ** The teardown *)

Lemma stages_app t1 t2 : stages (t1 ++ t2) = stages t1 ++ stages t2.
Proof. apply omap_app. Qed.






















(** The stages of that run: every one of them, once, although [close]
    was called three times. *)
Example interrupted_stages :
  let s := run Examples.interrupted initial in
  stages (trace s) = [0; 1; 2; 3; 4; 5]
  ∧ exited s = Some 0%Z ∧ closing s = []
  ∧ run (Examples.interrupted ++ [ASignal "SIGINT"]) initial = s.
Proof. vm_compute. by repeat split. Qed.

(** ** [indent] *)

Lemma indent_from_one_line (str : string) : one_line str → indent_from str = str.
Proof.
  induction str as [|c rest IH]; [done|]. intros [Hc Hrest]. simpl.
  rewrite decide_False by done. by rewrite IH.
Qed.

Lemma indent_from_app (a b : string) :
  indent_from (a +:+ nl +:+ b)
  = indent_from a +:+ nl +:+ "  " +:+ indent_from b.
Proof.
  induction a as [|c a IH].
  - reflexivity.
  - change (String c a +:+ nl +:+ b) with (String c (a +:+ nl +:+ b)).
    simpl indent_from. rewrite IH. by destruct (decide _).
Qed.

(** X3.  [indent] puts two spaces in front of every line: a string
    without a line feed gets them in front, and the indentation of two
    texts joined by a line feed is the two indentations joined by a line
    feed. *)
Theorem indent_lines (a b : string) :
  (one_line a → indent a = "  " +:+ a)
  ∧ indent (a +:+ nl +:+ b) = indent a +:+ nl +:+ indent b.
Proof.
  unfold indent. split.
  - intros Ha. by rewrite indent_from_one_line.
  - rewrite indent_from_app.
    generalize (indent_from a). generalize (indent_from b). intros x y.
    reflexivity.
Qed.

Lemma indent_lines_witness :
  one_line "at close" ∧ indent "at close" = "  " +:+ "at close".
Proof.
  assert (H : one_line "at close") by (vm_compute; repeat split; discriminate).
  split; [exact H|]. exact (proj1 (indent_lines "at close" "") H).
Defined.

(** ** Writes completed in the order issued *)

Lemma flush_issue (path : string) (bytes : list byte) (kind : WriteKind)
    (s : State) :
  flush (appendFile path bytes kind s)
  = apply_write (flush s) {| write_path := path; write_data := bytes;
                             write_kind := kind |}.
Proof. unfold flush, appendFile. simpl. by rewrite foldl_app. Qed.

Lemma flush_complete_head (now : Z) (s : State) :
  flush (complete 0 None now s) = flush s.
Proof.
  unfold flush, complete.
  destruct (pending s) as [|w rest] eqn:Hp; simpl; [by rewrite Hp|].
  destruct (write_kind w); simpl; done.
Qed.

Lemma written_snoc path ws w :
  written path (ws ++ [w])
  = written path ws ++ (if decide (w.1.1 = path) then w.1.2 else []).
Proof.
  unfold written. rewrite omap_app, concat_app. simpl.
  destruct (decide (w.1.1 = path)); simpl; by rewrite ?app_nil_r.
Qed.

Lemma in_order_step (a : Action) (s : State) (path : string) :
  exited s = None → in_order a →
  exited (step a s) = None
  ∧ default [] (flush (step a s) !! path)
    = default [] (flush s !! path) ++ written path (option_list (issue a)).
Proof.
  intros He Ha. unfold step. rewrite He.
  destruct a as [| | | |call now|i|i failure now]; try done.
  - destruct call as [m|m|m|e|fp mp mime|fp chunk start]; try done; simpl.
    + split; [done|]. by rewrite app_nil_r.
    + split; [done|]. by rewrite app_nil_r.
    + split; [done|]. by rewrite app_nil_r.
    + split; [done|]. unfold createRecording. cbv zeta.
      change (flush (logger_info ?m ?x)) with (flush x).
      rewrite flush_issue. unfold written, apply_write. simpl.
      change (flush (set_dirs ?d s)) with (flush s).
      destruct (decide (join mp = path)) as [->|Hne]; simpl.
      * by rewrite lookup_insert_eq, app_nil_r.
      * by rewrite lookup_insert_ne, app_nil_r.
    + split; [done|]. unfold appendRecording. cbv zeta.
      rewrite flush_issue. unfold written, apply_write. simpl.
      destruct (decide (join fp = path)) as [->|Hne]; simpl.
      * by rewrite lookup_insert_eq, app_nil_r.
      * by rewrite lookup_insert_ne, app_nil_r.
  - destruct i as [|i]; [|done]. destruct failure; [done|].
    split.
    + unfold complete. destruct (pending s) as [|w rest]; simpl; [done|].
      by destruct (write_kind w).
    + rewrite flush_complete_head. simpl. unfold written. simpl.
      by rewrite app_nil_r.
Qed.

Lemma written_app path ws1 ws2 :
  written path (ws1 ++ ws2) = written path ws1 ++ written path ws2.
Proof. unfold written. by rewrite omap_app, concat_app. Qed.

(** X4.  While the host serves logging and recording calls and the
    runtime completes the writes in the order they were issued, none
    failing, every file ends up with what it had followed by the data of
    the writes issued for it, in the order of the calls. *)
Theorem writes_in_issue_order (actions : list Action) (s : State)
    (path : string) :
  exited s = None → Forall in_order actions →
  let s' := run actions s in
  exited s' = None
  ∧ default [] (flush s' !! path)
    = default [] (flush s !! path) ++ written path (omap issue actions)
  ∧ (pending s' = [] → flush s' = files s').
Proof.
  intros He Hall s'. subst s'. revert s He.
  induction Hall as [|a actions Ha Hall IH]; intros s He.
  - split_and!; [done| |by intros Hp; unfold flush; rewrite Hp].
    simpl. unfold written. simpl. by rewrite app_nil_r.
  - rewrite host_run_cons.
    destruct (in_order_step a s path He Ha) as [He' Hstep].
    destruct (IH _ He') as (H1 & H2 & H3).
    split_and!; [done| |done].
    rewrite H2, Hstep, <- app_assoc. f_equal.
    rewrite <- written_app. f_equal. simpl. by destruct (issue a).
Qed.

Lemma writes_in_issue_order_witness :
  let fp := ["recordings"; "demo"; "alice.audio"; "1.webm"] in
  let mp := ["recordings"; "demo"; "alice.audio"; "1.json"] in
  let actions :=
    [ACall (CCreateRecording fp mp "audio/webm;codecs=opus") 1000;
     ACall (CAppendRecording fp [1; 2]%N 2000) 2000;
     AComplete 0 None 2001;
     ACall (CInfo "Writing 1 bytes") 3000;
     ACall (CAppendRecording fp [3]%N 3000) 3000;
     AComplete 0 None 3001; AComplete 0 None 3002] in
  let s' := run actions initial in
  (exited initial = None ∧ Forall in_order actions)
  ∧ exited s' = None
  ∧ default [] (flush s' !! join fp)
    = default [] (flush initial !! join fp)
      ++ written (join fp) (omap issue actions)
  ∧ (pending s' = [] → flush s' = files s').
Proof.
  intros fp mp actions s'.
  assert (H1 : exited initial = None) by reflexivity.
  assert (H2 : Forall in_order actions) by (repeat constructor).
  split; [exact (conj H1 H2)|].
  exact (writes_in_issue_order actions initial (join fp) H1 H2).
Defined.

(** The file of that run holds the three bytes, in order. *)
Example writes_example :
  let fp := ["recordings"; "demo"; "alice.audio"; "1.webm"] in
  let mp := ["recordings"; "demo"; "alice.audio"; "1.json"] in
  let s' := run [ACall (CCreateRecording fp mp "audio/webm;codecs=opus") 1000;
                 ACall (CAppendRecording fp [1; 2]%N 2000) 2000;
                 AComplete 0 None 2001;
                 ACall (CAppendRecording fp [3]%N 3000) 3000;
                 AComplete 0 None 3001; AComplete 0 None 3002] initial in
  files s' !! join fp = Some [x01; x02; x03] ∧ pending s' = [].
Proof. vm_compute. by split. Qed.

(** ** What the host no longer does *)

(** Show that a trace is the old one with events of some kind appended. *)
Ltac grown :=
  rewrite <- ?app_assoc;
  first [ by exists []; rewrite app_nil_r
        | eexists; split; [reflexivity|]; repeat constructor; simpl; tauto ].

Lemma shouldClose_step (a : Action) (s : State) :
  shouldClose s = true →
  shouldClose (step a s) = true
  ∧ ∃ evs, trace (step a s) = trace s ++ evs
           ∧ Forall (λ e, ¬ startup_step e) evs.
Proof.
  intros Hs. unfold step. destruct (exited s); [split; [done|grown]|].
  destruct a as [c pid| |stack|signal|call now|i|i failure now];
    try destruct call; destruct s; host_unfold; simpl in *; subst;
    repeat case_match; simpl; (split; [done|grown]).
Qed.

(** X6.  A signal sets [shouldClose] for good, and from then on [main]
    brings nothing more up: whatever happens afterwards, no browser is
    launched, no page opened or navigated, no callback registered and
    the page's [main] is not evaluated. *)
Theorem no_startup_after_signal (signal : string) (actions : list Action)
    (s : State) :
  exited s = None →
  let s1 := step (ASignal signal) s in
  shouldClose s1 = true
  ∧ shouldClose (run actions s1) = true
  ∧ ∃ evs, trace (run actions s1) = trace s1 ++ evs
           ∧ Forall (λ e, ¬ startup_step e) evs.
Proof.
  intros He s1.
  assert (H1 : shouldClose s1 = true).
  { subst s1. unfold step. rewrite He. destruct s; host_unfold; simpl.
    repeat case_match; done. }
  split; [done|]. clearbody s1. clear He s.
  revert s1 H1. induction actions as [|a actions IH]; intros s Hs.
  - split; [done|]. exists []. by rewrite app_nil_r.
  - rewrite host_run_cons.
    destruct (shouldClose_step a s Hs) as (Hs' & e1 & Ht1 & Hf1).
    destruct (IH _ Hs') as (Hs'' & e2 & Ht2 & Hf2).
    split; [done|]. exists (e1 ++ e2).
    rewrite Ht2, Ht1, <- app_assoc. split; [done|]. by apply Forall_app.
Qed.

Lemma no_startup_after_signal_witness :
  let s := run [AStart {| port := 3000; token := "tok"; roomSid := "RM1" |} 42;
                AMainResume] initial in
  let s1 := step (ASignal "SIGINT") s in
  let actions := [AMainResume; AMainResume; ACloseResume 0; AMainResume] in
  exited s = None
  ∧ shouldClose s1 = true
  ∧ shouldClose (run actions s1) = true
  ∧ ∃ evs, trace (run actions s1) = trace s1 ++ evs
           ∧ Forall (λ e, ¬ startup_step e) evs.
Proof.
  intros s s1 actions.
  assert (H : exited s = None) by (vm_compute; reflexivity).
  split; [exact H|].
  exact (no_startup_after_signal "SIGINT" actions s H).
Defined.

Lemma stuck_step (a : Action) (s : State) :
  stuck s → stuck (step a s) ∧ stages (trace (step a s)) = stages (trace s).
Proof.
  intros (Hc & Hcl & He). unfold step. rewrite He.
  destruct a as [c pid| |stack|signal|call now|i|i failure now];
    try destruct call; destruct s; unfold stuck; host_unfold; simpl in *; subst;
    repeat case_match; simpl; rewrite ?stages_app; simpl;
    rewrite ?app_nil_r; try done.
Qed.

(** X7.  When the first value given to [close] is one without a [stack]
    (a string, as the page's room-ended listener sends), the call sets
    the guard and ends in its error report, before any stage.  From then
    on every call of [close] returns at once and none is suspended, so
    whatever happens the host performs no teardown stage and never
    exits. *)
Theorem close_without_stack_hangs (now : Z) (actions : list Action)
    (s : State) :
  isClosing s = false → closing s = [] → exited s = None →
  let s1 := step (ACall (CParentClose (Some NoStack)) now) s in
  isClosing s1 = true ∧ trace s1 = trace s
  ∧ exited (run actions s1) = None
  ∧ closing (run actions s1) = []
  ∧ stages (trace (run actions s1)) = stages (trace s).
Proof.
  intros Hc Hcl He s1.
  assert (H1 : stuck s1 ∧ trace s1 = trace s).
  { subst s1. unfold step, stuck. rewrite He. simpl. unfold close.
    rewrite Hc. by destruct s. }
  destruct H1 as [Hstuck Ht]. rewrite <- Ht. clearbody s1.
  split; [apply Hstuck|]. split; [done|]. clear Ht Hc Hcl He s.
  revert s1 Hstuck. induction actions as [|a actions IH]; intros s Hs.
  - destruct Hs as (_ & ? & ?). done.
  - rewrite host_run_cons. destruct (stuck_step a s Hs) as [Hs' Hst].
    destruct (IH _ Hs') as (H1 & H2 & H3). split_and!; try done. congruence.
Qed.

Lemma close_without_stack_hangs_witness :
  let s := run Examples.started initial in
  let s1 := step (ACall (CParentClose (Some NoStack)) 0) s in
  let actions := [ASignal "SIGINT"; AMainResume; ACloseResume 0;
                  ACall (CParentClose None) 1] in
  (isClosing s = false ∧ closing s = [] ∧ exited s = None)
  ∧ isClosing s1 = true ∧ trace s1 = trace s
  ∧ exited (run actions s1) = None
  ∧ closing (run actions s1) = []
  ∧ stages (trace (run actions s1)) = stages (trace s).
Proof.
  intros s s1 actions.
  assert (H1 : isClosing s = false) by (vm_compute; reflexivity).
  assert (H2 : closing s = []) by (vm_compute; reflexivity).
  assert (H3 : exited s = None) by (vm_compute; reflexivity).
  split; [exact (conj H1 (conj H2 H3))|].
  exact (close_without_stack_hangs 0 actions s H1 H2 H3).
Defined.

(** ** A value without a stack *)

Lemma stuck_run (actions : list Action) (s : State) :
  stuck s →
  stuck (run actions s) ∧ stages (trace (run actions s)) = stages (trace s).
Proof.
  revert s. induction actions as [|a actions IH]; intros s Hs; [done|].
  rewrite host_run_cons. destruct (stuck_step a s Hs) as [Hs' Hst].
  destruct (IH _ Hs') as [H1 H2]. split; [done|congruence].
Qed.

(** C6, on the value the page's room-ended listener passes to
    [parentClose]: a string, which has no [stack].  The host is up, with
    its server, browser and page, so a teardown has six stages to
    perform.  The first call of [close] sets the guard and ends in its
    error report; the second call returns at once.  No stage was
    performed, and whatever happens afterwards none is performed and the
    process does not exit: the stages are performed zero times, not
    once. *)
Theorem close_after_room_ended :
  let s := run Examples.started initial in
  let s1 := step (ACall (CParentClose (Some NoStack)) 0) s in
  let s2 := step (ACall (CParentClose None) 1) s1 in
  isClosing s = false ∧ exited s = None
  ∧ teardown s = [0; 1; 2; 3; 4; 5]
  ∧ isClosing s1 = true
  ∧ s2 = s1
  ∧ stages (trace s2) = []
  ∧ ∀ actions,
      stages (trace (run actions s2)) = []
      ∧ (∀ n, times n (stages (trace (run actions s2))) ≠ 1)
      ∧ exited (run actions s2) = None.
Proof.
  intros s s1 s2.
  assert (Hstuck : stuck s2) by (vm_compute; by repeat split).
  assert (Hst : stages (trace s2) = []) by (vm_compute; reflexivity).
  do 6 (split; [vm_compute; reflexivity|]).
  intros actions. destruct (stuck_run actions s2 Hstuck) as [(_ & _ & He) Hs].
  rewrite Hs, Hst. split_and!; [done| |done].
  intros n. unfold times. simpl. lia.
Qed.

(** ** Directories *)





End HostFacts.

(* ===================================================================== *)
(** * Page and host together                                             *)
(* ===================================================================== *)

Section SessionFacts.
Import Props.

#[local] Arguments String.append : simpl never.
#[local] Arguments pretty : simpl never.

(** C7 (amended).  Whatever happens in the page and whatever the host
    does in between, when the host serves the page's calls in the order
    they were made: the page calls [createRecording] for a file before
    any [appendRecording] for it, and the host issues the write of the
    metadata before it issues the write of any chunk of that file. *)
Theorem metadata_issued_before_chunks (h : bool)
    (actions : list Sandbox.Action) (host_actions : list Host.Action) :
  let t := Sandbox.trace (Sandbox.run actions (Sandbox.initial h)) in
  host_calls host_actions `prefix_of` omap page_call t →
  metadata_first t
  ∧ metadata_issued_first t
      (writes (Host.trace (Host.run host_actions Host.initial))).
Proof.
  intros t Hprefix.
  assert (Hfirst : metadata_first t).
  { apply (files_metadata_first _ _ _ _ _
             (files_inv_run actions _ (files_inv_initial h))). }
  split; [done|].
  destruct (host_run_writes host_actions Host.initial) as [k ->]. simpl.
  apply issued_in_order; [done|].
  etrans; [apply host_calls_take|done].
Qed.




(** C7, witness: a page run with one chunk, all of its calls served by
    the host. *)
Lemma metadata_issued_before_chunks_witness :
  let t := Sandbox.trace (Sandbox.run
             [Sandbox.AMain (Examples.demo [Examples.alice]); Sandbox.ATask;
              Sandbox.ATask; Sandbox.AGather 0 [x01; x02; x03];
              Sandbox.ATimeslice 0; Sandbox.ALoad 5000]
             (Sandbox.initial false)) in
  host_calls (Examples.served (Sandbox.trace Examples.first_chunk) 1000)
    `prefix_of` omap page_call t
  ∧ metadata_first t
  ∧ metadata_issued_first t
      (writes (Host.trace
                 (Host.run (Examples.served (Sandbox.trace Examples.first_chunk) 1000)
                           Host.initial))).
Proof.
  intros t.
  assert (Hp : host_calls (Examples.served (Sandbox.trace Examples.first_chunk) 1000)
                 `prefix_of` omap page_call t).
  { exists []. vm_compute. reflexivity. }
  split; [exact Hp|].
  exact (metadata_issued_before_chunks false _ _ Hp).
Defined.

(** C7, counterexample to "the metadata file exists and is fully written
    before the first chunk is appended": the host serves the calls of a
    page that recorded one chunk.  The runtime completes the write of the
    chunk while the write of the metadata is still pending; and when the
    write of the metadata fails, the error is logged and the chunk is
    appended all the same. *)
Lemma metadata_not_awaited_counterexample :
  let t := Sandbox.trace Examples.first_chunk in
  let webm := "recordings/demo/alice.audio/1.webm" in
  let json := "recordings/demo/alice.audio/1.json" in
  appends t = [(["recordings"; "demo"; "alice.audio"; "1.webm"],
                [1; 2; 3]%N)]
  ∧ (let s := Host.run (Examples.served t 1000 ++ [Host.AComplete 2 None 1001])
                       Host.initial in
     Host.files s !! webm = Some [x01; x02; x03]
     ∧ Host.files s !! json = None
     ∧ (Host.write_path <$> Host.pending s)
       = [json; "recordings/demo/alice.video/1.json"])
  ∧ (let s := Host.run (Examples.served t 1000
                        ++ [Host.AComplete 0 (Some "Error: EMFILE") 1001;
                            Host.AComplete 0 None 1001;
                            Host.AComplete 0 None 1001])
                       Host.initial in
     Host.files s !! webm = Some [x01; x02; x03]
     ∧ Host.files s !! json = None
     ∧ Host.pending s = []).
Proof.
  intros t webm json. split; [|split]; cbv zeta; repeat split;
    vm_compute; reflexivity.
Qed.

(** ** A chunk from the page to the file *)

(** X5.  A buffer that a file reader hands to the page arrives in the
    file unchanged: the page encodes it and calls [appendRecording]; the
    host, with no write pending, decodes the string and, when the
    runtime completes the write, the file named by the path holds what
    it held followed by exactly the bytes of the buffer. *)
Theorem chunk_arrives_intact (l : Sandbox.Load) (now now' : Z)
    (s : Sandbox.State) (hs : Host.State) :
  Host.exited hs = None → Host.pending hs = [] →
  let t := Sandbox.trace (Sandbox.on_load l now s) in
  let calls := omap page_call (drop (length (Sandbox.trace s)) t) in
  let hs' := Host.run (((λ call, Host.ACall call now') <$> calls)
                       ++ [Host.AComplete 0 None now']) hs in
  Host.files hs' !! Host.join (Sandbox.load_filepath l)
  = Some (default [] (Host.files hs !! Host.join (Sandbox.load_filepath l))
          ++ Sandbox.load_data l)
  ∧ Host.pending hs' = []
  ∧ ∀ path, path ≠ Host.join (Sandbox.load_filepath l) →
      Host.files hs' !! path = Host.files hs !! path.
Proof.
  intros He Hp t calls hs'. subst hs' calls t.
  rewrite on_load_trace, drop_app_length. simpl omap. simpl fmap.
  destruct hs; simpl in *; subst.
  unfold Host.run. simpl. unfold Host.appendRecording, Host.appendFile.
  rewrite stringToArrayBuffer_fromCharCode. simpl.
  split_and!.
  - by rewrite lookup_insert_eq.
  - done.
  - intros path Hne. by rewrite lookup_insert_ne.
Qed.

Lemma chunk_arrives_intact_witness :
  let l := {| Sandbox.load_filepath := ["recordings"; "demo"; "alice.audio"; "1.webm"];
              Sandbox.load_filename := "recordings/demo/alice.audio/1.webm";
              Sandbox.load_data := [x00; xff; x80] |} in
  let s := Examples.with_data in
  let hs := Host.initial in
  let t := Sandbox.trace (Sandbox.on_load l 5000 s) in
  let calls := omap page_call (drop (length (Sandbox.trace s)) t) in
  let hs' := Host.run (((λ call, Host.ACall call 5001) <$> calls)
                       ++ [Host.AComplete 0 None 5001]) hs in
  (Host.exited hs = None ∧ Host.pending hs = [])
  ∧ Host.files hs' !! Host.join (Sandbox.load_filepath l)
    = Some (default [] (Host.files hs !! Host.join (Sandbox.load_filepath l))
            ++ Sandbox.load_data l)
  ∧ Host.pending hs' = []
  ∧ ∀ path, path ≠ Host.join (Sandbox.load_filepath l) →
      Host.files hs' !! path = Host.files hs !! path.
Proof.
  intros l s hs t calls hs'.
  assert (H1 : Host.exited hs = None) by reflexivity.
  assert (H2 : Host.pending hs = []) by reflexivity.
  split; [exact (conj H1 H2)|].
  exact (chunk_arrives_intact l 5000 5001 s hs H1 H2).
Defined.

(** ** Writes and directories *)





End SessionFacts.


(* ===================================================================== *)
(** * From the recorder to the file                                      *)
(* ===================================================================== *)

Section RecordingPath.
Import Sandbox Props.

#[local] Arguments String.append : simpl never.
#[local] Arguments pretty : simpl never.
#[local] Arguments run : simpl never.

Lemma host_chunk (rec : Recorder) (c : list byte) (now now' : Z)
    (hs : Host.State) :
  Host.exited hs = None → Host.pending hs = [] →
  let hs' := Host.run (served_and_written
                         (omap page_call (chunk_events rec c now)) now') hs in
  Host.exited hs' = None ∧ Host.pending hs' = []
  ∧ default [] (Host.files hs' !! Host.join (filepath rec))
    = default [] (Host.files hs !! Host.join (filepath rec)) ++ c.
Proof.
  intros He Hp hs'. subst hs'. unfold chunk_events, served_and_written.
  destruct hs; simpl in *; subst.
  destruct (decide (length c = 0)) as [Hc|Hc]; simpl.
  - apply length_zero_iff_nil in Hc as ->. unfold Host.run. simpl.
    by rewrite app_nil_r.
  - unfold Host.run. simpl. unfold Host.appendRecording, Host.appendFile.
    rewrite stringToArrayBuffer_fromCharCode. simpl.
    by rewrite lookup_insert_eq.
Qed.

Lemma served_and_written_app c1 c2 now :
  served_and_written (c1 ++ c2) now
  = served_and_written c1 now ++ served_and_written c2 now.
Proof. unfold served_and_written. by rewrite fmap_app, join_app. Qed.

Lemma host_chunks (rec : Recorder) (now' : Z) (chunks : list (list byte * Z)) :
  ∀ hs, Host.exited hs = None → Host.pending hs = [] →
    let hs' := Host.run (served_and_written
                           (omap page_call (captured_events rec chunks)) now')
                        hs in
    Host.exited hs' = None ∧ Host.pending hs' = []
    ∧ default [] (Host.files hs' !! Host.join (filepath rec))
      = default [] (Host.files hs !! Host.join (filepath rec))
        ++ concat chunks.*1.
Proof.
  induction chunks as [|[c now] chunks IH]; intros hs He Hp; simpl.
  - by rewrite app_nil_r.
  - rewrite captured_events_cons, omap_app, served_and_written_app, host_run_app.
    destruct (host_chunk rec c now now' hs He Hp) as (He1 & Hp1 & Hf1).
    destruct (IH _ He1 Hp1) as (He2 & Hp2 & Hf2).
    split_and!; [done|done|].
    by rewrite Hf2, Hf1, <- app_assoc.
Qed.

(** X15.  From the recorder to the disk: when a running recorder
    delivers chunk after chunk and the host serves the page's calls with
    each write completed before the next call, the recording file ends
    up holding what it held followed by exactly the bytes captured, in
    order; nothing is left pending. *)
Theorem captured_bytes_reach_file (r : nat) (rec : Recorder)
    (chunks : list (list byte * Z)) (now' : Z) (s : State)
    (hs : Host.State) :
  steady r rec s → Host.exited hs = None → Host.pending hs = [] →
  let s' := run (captures r chunks) s in
  let calls := omap page_call (drop (length (trace s)) (trace s')) in
  let hs' := Host.run (served_and_written calls now') hs in
  Host.exited hs' = None ∧ Host.pending hs' = []
  ∧ default [] (Host.files hs' !! Host.join (filepath rec))
    = default [] (Host.files hs !! Host.join (filepath rec))
      ++ concat chunks.*1.
Proof.
  intros Hs He Hp s' calls hs'. subst hs' calls s'.
  destruct (captures_trace r rec chunks s Hs) as (_ & Ht & _).
  rewrite Ht, drop_app_length. by apply host_chunks.
Qed.

Lemma captured_bytes_reach_file_witness :
  let s := Examples.both_started in
  let hs := Host.initial in
  let rec :=
    {| state := recording;
       filename := "recordings/demo/alice.audio/1.webm";
       filepath := ["recordings"; "demo"; "alice.audio"; "1.webm"];
       ondataavailable := HRecord; onpause := false; onstop := None;
       gathering := true; gathered := [] |} in
  let chunks := [([x01; x02], 1000%Z); ([], 2000%Z); ([x03], 3000%Z)] in
  let s' := run (captures 0 chunks) s in
  let calls := omap page_call (drop (length (trace s)) (trace s')) in
  let hs' := Host.run (served_and_written calls 4000) hs in
  (steady 0 rec s ∧ Host.exited hs = None ∧ Host.pending hs = [])
  ∧ Host.exited hs' = None ∧ Host.pending hs' = []
  ∧ default [] (Host.files hs' !! Host.join (filepath rec))
    = default [] (Host.files hs !! Host.join (filepath rec))
      ++ concat chunks.*1.
Proof.
  intros s hs rec chunks s' calls hs'.
  assert (H1 : steady 0 rec s) by (vm_compute; repeat split; reflexivity).
  assert (H2 : Host.exited hs = None) by reflexivity.
  assert (H3 : Host.pending hs = []) by reflexivity.
  split; [exact (conj H1 (conj H2 H3))|].
  exact (captured_bytes_reach_file 0 rec chunks 4000 s hs H1 H2 H3).
Defined.

End RecordingPath.
